(** * Resume parsing pipeline: redaction and section extraction

    A shallow embedding of [main.py]: [extract_info], [anonymize_data] and
    [process_resume], together with the fragment of Python's [re] and [str]
    that these functions use.

    Text is a list of characters.  A character is a code point below 256
    (the Latin-1 range); on that range the character tables below are the
    ones of Python 3 ([str.isspace], the [re] classes [\s], [\d], [\w] for
    [str] patterns, and case-insensitive comparison against ASCII pattern
    letters).  Text with code points above 255 is outside the model. *)

From Stdlib Require Import NArith Ascii String List Bool Arith Lia.
Import ListNotations.

Set Implicit Arguments.

(** ** Characters and text *)

Definition str := list ascii.

(** A Python string literal. *)
Definition txt (x : string) : str := list_ascii_of_string x.

Definition code (c : ascii) : nat := nat_of_ascii c.

Definition in_range (lo hi : nat) (c : ascii) : bool :=
  (lo <=? code c) && (code c <=? hi).

(** [str.isspace] and the class [\s]: TAB..CR, FS..US, space, NEL, NBSP. *)
Definition isspace (c : ascii) : bool :=
  in_range 9 13 c || in_range 28 32 c || (code c =? 133) || (code c =? 160).

(** The class [\d]: the decimal digits. *)
Definition isdecimal (c : ascii) : bool := in_range 48 57 c.

Definition isupper_ascii (c : ascii) : bool := in_range 65 90 c.
Definition islower_ascii (c : ascii) : bool := in_range 97 122 c.

(** The class [\w]: alphanumeric characters and the underscore. *)
Definition isword (c : ascii) : bool :=
  isdecimal c || isupper_ascii c || islower_ascii c || (code c =? 95)
  || (code c =? 170) || (code c =? 178) || (code c =? 179) || (code c =? 181)
  || (code c =? 185) || (code c =? 186) || in_range 188 190 c
  || in_range 192 214 c || in_range 216 246 c || in_range 248 255 c.

(** Lower-casing of the ASCII letters; this is all that case-insensitive
    comparison against an ASCII pattern letter needs. *)
Definition lower (c : ascii) : ascii :=
  if isupper_ascii c then ascii_of_nat (code c + 32) else c.

Definition upper (c : ascii) : ascii :=
  if islower_ascii c then ascii_of_nat (code c - 32) else c.

Definition ch_eqb (a b : ascii) : bool := Ascii.eqb a b.

Definition newline : ascii := ascii_of_nat 10.

Definition nonempty (x : str) : bool :=
  match x with [] => false | _ :: _ => true end.

(** ** Python string methods *)

Fixpoint lstrip (x : str) : str :=
  match x with
  | [] => []
  | c :: t => if isspace c then lstrip t else x
  end.

Definition rstrip (x : str) : str := rev (lstrip (rev x)).

(** [x.strip()] *)
Definition strip (x : str) : str := rstrip (lstrip x).

(** [x.split(sep)] for a one-character separator. *)
Fixpoint split (sep : ascii) (x : str) : list str :=
  match x with
  | [] => [[]]
  | c :: t =>
      if ch_eqb c sep then [] :: split sep t
      else match split sep t with
           | [] => [[c]]
           | w :: ws => (c :: w) :: ws
           end
  end.

Fixpoint starts_with (p x : str) : bool :=
  match p, x with
  | [], _ => true
  | a :: p', b :: x' => ch_eqb a b && starts_with p' x'
  | _ :: _, [] => false
  end.

(** [old in x] *)
Fixpoint contains (x old : str) : bool :=
  starts_with old x ||
  match x with
  | [] => false
  | _ :: t => contains t old
  end.

(** The scan of [x.replace(old, new)] for a non-empty [old]: occurrences are
    found left to right and do not overlap; [skip] counts the characters of
    the occurrence just replaced that are still to be passed over. *)
Fixpoint replace_scan (old new : str) (skip : nat) (x : str) : str :=
  match x with
  | [] => []
  | c :: t =>
      match skip with
      | S n => replace_scan old new n t
      | 0 =>
          if starts_with old x
          then new ++ replace_scan old new (length old - 1) t
          else c :: replace_scan old new 0 t
      end
  end.

(** [x.replace(old, new)]; with an empty [old] Python inserts [new] before
    every character and at the end. *)
Definition replace (x old new : str) : str :=
  match old with
  | [] => new ++ flat_map (fun c => c :: new) x
  | _ :: _ => replace_scan old new 0 x
  end.

(** ** The fragment of [re] used by the program *)

Inductive set_item : Type :=
| SChar (c : ascii)          (* a character listed in the set *)
| SRange (lo hi : ascii)     (* lo-hi *)
| SSpace                     (* \s *)
| SDigit.                    (* \d *)

Inductive regex : Type :=
| Eps
| Lit (c : ascii)
| Dot
| CSet (items : list set_item)
| Bnd                                   (* \b *)
| Eos                                   (* $ *)
| Seq (r1 r2 : regex)
| Alt (r1 r2 : regex)
| Rep (greedy : bool) (lo : nat) (hi : option nat) (r : regex)
| Grp (n : nat) (r : regex).

Record flags : Type := { ignorecase : bool; dotall : bool }.

Definition no_flags : flags := {| ignorecase := false; dotall := false |}.
Definition IGNORECASE_DOTALL : flags := {| ignorecase := true; dotall := true |}.

(** The state of a match attempt: the text already passed (most recent
    character first), the text ahead, and the groups captured so far. *)
Record mstate : Type := {
  before : str;
  rest : str;
  caps : list (nat * str)
}.

Definition pos (st : mstate) : nat := length (before st).

Definition set_cap (n : nat) (v : str) (st : mstate) : mstate :=
  {| before := before st; rest := rest st; caps := (n, v) :: caps st |}.

Fixpoint get_cap (n : nat) (cs : list (nat * str)) : option str :=
  match cs with
  | [] => None
  | (i, v) :: cs' => if i =? n then Some v else get_cap n cs'
  end.

Definition item_ok (c : ascii) (i : set_item) : bool :=
  match i with
  | SChar a => ch_eqb c a
  | SRange lo hi => in_range (code lo) (code hi) c
  | SSpace => isspace c
  | SDigit => isdecimal c
  end.

Definition set_ok (items : list set_item) (c : ascii) : bool :=
  existsb (item_ok c) items.

Section Matcher.

Variable fl : flags.

Definition lit_ok (a c : ascii) : bool :=
  if ignorecase fl then ch_eqb (lower c) (lower a) else ch_eqb c a.

Definition dot_ok (c : ascii) : bool :=
  if dotall fl then true else negb (ch_eqb c newline).

(** Under IGNORECASE a set also takes the other case of its members; the
    only set used with that flag, [[:\s]], holds no letter. *)
Definition cset_ok (items : list set_item) (c : ascii) : bool :=
  if ignorecase fl
  then set_ok items c || set_ok items (lower c) || set_ok items (upper c)
  else set_ok items c.

(** Consume one character satisfying [p]. *)
Definition one (p : ascii -> bool) (st : mstate)
           (k : mstate -> option mstate) : option mstate :=
  match rest st with
  | [] => None
  | c :: t =>
      if p c
      then k {| before := c :: before st; rest := t; caps := caps st |}
      else None
  end.

Definition word_before (st : mstate) : bool :=
  match before st with [] => false | c :: _ => isword c end.

Definition word_after (st : mstate) : bool :=
  match rest st with [] => false | c :: _ => isword c end.

(** [\b]: exactly one side of the position is a word character. *)
Definition at_boundary (st : mstate) : bool :=
  xorb (word_before st) (word_after st).

(** [$] without MULTILINE: the end of the text, or just before a newline
    that ends the text. *)
Definition at_end (st : mstate) : bool :=
  match rest st with
  | [] => true
  | c :: [] => ch_eqb c newline
  | _ => false
  end.

(** The loop of a repetition whose body is matched by [body]: [budget]
    bounds the iterations still allowed and [cnt] counts those done.  A
    greedy repetition tries one more iteration before trying to stop, a
    lazy one tries to stop first; an iteration has to consume a character
    to count. *)
Definition rep_loop (body : mstate -> (mstate -> option mstate) -> option mstate)
           (greedy : bool) (lo : nat) (k : mstate -> option mstate)
  : nat -> nat -> mstate -> option mstate :=
  fix loop (budget cnt : nat) (st : mstate) {struct budget} : option mstate :=
    match budget with
    | 0 => if lo <=? cnt then k st else None
    | S b =>
        if greedy then
          match body st (fun st1 => if pos st <? pos st1
                                    then loop b (S cnt) st1 else None) with
          | Some m => Some m
          | None => if lo <=? cnt then k st else None
          end
        else
          match (if lo <=? cnt then k st else None) with
          | Some m => Some m
          | None => body st (fun st1 => if pos st <? pos st1
                                        then loop b (S cnt) st1 else None)
          end
    end.

(** Backtracking matcher in continuation-passing style: [mt r st k] tries
    the ways [r] can match at [st] in the order of Python's engine and
    returns the first for which the continuation [k] succeeds.  The budget
    of a repetition is its upper bound when it has one, the length of the
    text ahead otherwise. *)
Fixpoint mt (r : regex) (st : mstate) (k : mstate -> option mstate)
  {struct r} : option mstate :=
  match r with
  | Eps => k st
  | Lit a => one (lit_ok a) st k
  | Dot => one dot_ok st k
  | CSet items => one (cset_ok items) st k
  | Bnd => if at_boundary st then k st else None
  | Eos => if at_end st then k st else None
  | Seq r1 r2 => mt r1 st (fun st1 => mt r2 st1 k)
  | Alt r1 r2 =>
      match mt r1 st k with
      | Some m => Some m
      | None => mt r2 st k
      end
  | Grp n r1 =>
      mt r1 st
         (fun st1 => k (set_cap n (firstn (pos st1 - pos st) (rest st)) st1))
  | Rep greedy lo hi r1 =>
      rep_loop (mt r1) greedy lo k
               (match hi with Some h => h | None => length (rest st) end) 0 st
  end.

(** A match object. *)
Record rmatch : Type := {
  m_start : nat;
  m_end : nat;
  m_text : str;                 (* group(0) *)
  m_caps : list (nat * str)
}.

(** [m.group(n)], [None] when the group did not take part in the match. *)
Definition group (m : rmatch) (n : nat) : option str := get_cap n (m_caps m).

Definition match_at (r : regex) (bef rst : str) : option rmatch :=
  match mt r {| before := bef; rest := rst; caps := [] |} Some with
  | Some st =>
      Some {| m_start := length bef;
              m_end := pos st;
              m_text := firstn (pos st - length bef) rst;
              m_caps := caps st |}
  | None => None
  end.

(** Leftmost match, trying every start position in turn. *)
Fixpoint scan (r : regex) (bef rst : str) : option rmatch :=
  match match_at r bef rst with
  | Some m => Some m
  | None =>
      match rst with
      | [] => None
      | c :: t => scan r (c :: bef) t
      end
  end.

(** [re.search(r, text)] *)
Definition search (r : regex) (text : str) : option rmatch := scan r [] text.

(** Successive non-overlapping matches, left to right; [skip] counts the
    characters of the last match still to be passed over.  After an empty
    match the scan moves on by one character; the two patterns this is used
    with open with a piece that takes at least one character, so they have
    no empty match. *)
Fixpoint iter (r : regex) (skip : nat) (bef rst : str) : list rmatch :=
  match skip with
  | S n =>
      match rst with
      | [] => []
      | c :: t => iter r n (c :: bef) t
      end
  | 0 =>
      match match_at r bef rst with
      | Some m =>
          m :: match rst with
               | [] => []
               | c :: t => iter r (m_end m - m_start m - 1) (c :: bef) t
               end
      | None =>
          match rst with
          | [] => []
          | c :: t => iter r 0 (c :: bef) t
          end
      end
  end.

Definition finditer (r : regex) (text : str) : list rmatch := iter r 0 [] text.

(** Rebuild the text with every match replaced by [repl]; [at_] is the
    position in the original text at which [x] starts. *)
Fixpoint splice (repl : str) (at_ : nat) (x : str) (ms : list rmatch) : str :=
  match ms with
  | [] => x
  | m :: ms' =>
      firstn (m_start m - at_) x ++ repl
        ++ splice repl (m_end m) (skipn (m_end m - at_) x) ms'
  end.

(** [re.sub(r, repl, text)] for a replacement without escapes. *)
Definition sub (r : regex) (repl text : str) : str :=
  splice repl 0 text (finditer r text).

(** [re.findall] for a pattern without groups: the matched strings. *)
Definition findall0 (r : regex) (text : str) : list str :=
  map m_text (finditer r text).

Definition group_or_empty (m : rmatch) (n : nat) : str :=
  match group m n with Some v => v | None => [] end.

(** [re.findall] for a pattern with two groups: the pairs of groups, an
    unset group giving the empty string. *)
Definition findall2 (r : regex) (text : str) : list (str * str) :=
  map (fun m => (group_or_empty m 1, group_or_empty m 2)) (finditer r text).

End Matcher.

(** *** Pattern syntax helpers *)

Declare Scope re_scope.
Delimit Scope re_scope with re.
Infix ";;" := Seq (at level 61, right associativity) : re_scope.

(** A run of literal characters. *)
Fixpoint lits (x : str) : regex :=
  match x with
  | [] => Eps
  | c :: t => Seq (Lit c) (lits t)
  end.

Definition opt (r : regex) : regex := Rep true 0 (Some 1) r.          (* r?  *)
Definition opt_lazy (r : regex) : regex := Rep false 0 (Some 1) r.    (* r?? *)
Definition star (r : regex) : regex := Rep true 0 None r.             (* r*  *)
Definition star_lazy (r : regex) : regex := Rep false 0 None r.       (* r*? *)
Definition plus (r : regex) : regex := Rep true 1 None r.             (* r+  *)
Definition times (n : nat) (r : regex) : regex := Rep true n (Some n) r.  (* r{n} *)

(** ** The patterns of [main.py] *)

Local Open Scope char_scope.

Definition rng (a b : ascii) : set_item := SRange a b.

Definition digit : regex := CSet [SDigit].                       (* \d *)
Definition sep_set : regex := CSet [SChar "-"; SChar "."; SSpace].   (* [-.\s] *)
Definition colon_space : regex := CSet [SChar ":"; SSpace].          (* [:\s] *)

(** [\b[A-Za-z0-9._%+-]+@[A-Za-z0-9.-]+\.[A-Z|a-z]{2,}\b] *)
Definition email_pattern : regex :=
  (Bnd
   ;; plus (CSet [rng "A" "Z"; rng "a" "z"; rng "0" "9";
                  SChar "."; SChar "_"; SChar "%"; SChar "+"; SChar "-"])
   ;; Lit "@"
   ;; plus (CSet [rng "A" "Z"; rng "a" "z"; rng "0" "9"; SChar "."; SChar "-"])
   ;; Lit "."
   ;; Rep true 2 None (CSet [rng "A" "Z"; SChar "|"; rng "a" "z"])
   ;; Bnd)%re.

(** [\b(\+?\d{1,3}[-.\s]??)?(\(?\d{3}\)?[-.\s]??\d{3}[-.\s]??\d{4}|\d{10})\b] *)
Definition phone_pattern : regex :=
  (Bnd
   ;; opt (Grp 1 (opt (Lit "+") ;; Rep true 1 (Some 3) digit ;; opt_lazy sep_set))
   ;; Grp 2 (Alt (opt (Lit "(") ;; times 3 digit ;; opt (Lit ")")
                  ;; opt_lazy sep_set ;; times 3 digit
                  ;; opt_lazy sep_set ;; times 4 digit)
                 (times 10 digit))
   ;; Bnd)%re.

(** The tail shared by the section patterns: [[:\s]*(.*?)(END|$)]. *)
Definition section_tail (stop : regex) : regex :=
  (star colon_space ;; Grp 1 (star_lazy Dot) ;; Grp 2 (Alt stop Eos))%re.

(** [Skills?[:\s]*(.*?)(\n|$)] *)
Definition skills_pattern : regex :=
  (lits (txt "Skill") ;; opt (Lit "s") ;; section_tail (Lit newline))%re.

Definition blank_line : regex := (Lit newline ;; Lit newline)%re.   (* \n\n *)

(** [Education[:\s]*(.*?)(\n\n|$)] *)
Definition education_pattern : regex :=
  (lits (txt "Education") ;; section_tail blank_line)%re.

(** [Experience|Work History[:\s]*(.*?)(\n\n|$)]: the alternation binds
    weaker than concatenation, so the tail and its groups belong to the
    second alternative only. *)
Definition experience_pattern : regex :=
  Alt (lits (txt "Experience"))
      (lits (txt "Work History") ;; section_tail blank_line)%re.

(** [Certifications[:\s]*(.*?)(\n\n|$)] *)
Definition certifications_pattern : regex :=
  (lits (txt "Certifications") ;; section_tail blank_line)%re.

Local Close Scope char_scope.

(** ** Values and dictionaries *)

(** The Python values the program stores in its dictionaries. *)
#[warnings="-register-all"]
Inductive value : Type :=
| VNone
| VStr (x : str)
| VList (xs : list str)
| VDict (d : list (string * value)).

(** A [dict] with string keys, in insertion order. *)
Definition dict := list (string * value).

Fixpoint dict_get (d : dict) (k : string) : option value :=
  match d with
  | [] => None
  | (k', v) :: d' => if String.eqb k' k then Some v else dict_get d' k
  end.

(** [d[k] = v]: an existing key keeps its place, a new key goes last. *)
Fixpoint dict_set (d : dict) (k : string) (v : value) : dict :=
  match d with
  | [] => [(k, v)]
  | (k', v') :: d' =>
      if String.eqb k' k then (k', v) :: d' else (k', v') :: dict_set d' k v
  end.

(** [{**d1, **d2}] *)
Definition dict_merge (d1 d2 : dict) : dict :=
  fold_left (fun d kv => dict_set d (fst kv) (snd kv)) d2 d1.

(** [d.get(k, None)] *)
Definition dict_get_or_none (d : dict) (k : string) : value :=
  match dict_get d k with
  | Some v => v
  | None => VNone
  end.

Definition keys (d : dict) : list string := map fst d.

(** ** [extract_info] *)

Local Open Scope string_scope.
Local Open Scope list_scope.

(** [[x.strip() for x in raw.split(sep) if x.strip()]] *)
Definition stripped_items (sep : ascii) (raw : str) : list str :=
  map strip (filter (fun x => nonempty (strip x)) (split sep raw)).

(** One section of [extract_info]: [re.search] with IGNORECASE | DOTALL, the
    test [m and m.group(1)], and the list built from the stripped capture.
    [None] stands for the branch not taken. *)
Definition section_items (p : regex) (sep : ascii) (text : str)
  : option (list str) :=
  match search IGNORECASE_DOTALL p text with
  | Some m =>
      match group m 1 with
      | Some g => if nonempty g then Some (stripped_items sep (strip g)) else None
      | None => None
      end
  | None => None
  end.

Definition assign_if (d : dict) (k : string) (v : option (list str)) : dict :=
  match v with
  | Some xs => dict_set d k (VList xs)
  | None => d
  end.

Definition extract_info (text : str) : dict :=
  let extracted_data :=
    [("skills", VList []); ("education", VList []);
     ("experience", VList []); ("certifications", VList [])] in
  let extracted_data :=
    assign_if extracted_data "skills"
              (section_items skills_pattern ","%char text) in
  let extracted_data :=
    assign_if extracted_data "education"
              (section_items education_pattern newline text) in
  let extracted_data :=
    assign_if extracted_data "experience"
              (section_items experience_pattern newline text) in
  let extracted_data :=
    assign_if extracted_data "certifications"
              (section_items certifications_pattern newline text) in
  extracted_data.

(** ** The entity tagger and the effects of the pipeline *)

(** An entity of [doc.ents]: its text and its label. *)
Record Ent : Type := { ent_text : str; ent_label : string }.

(** A computation either returns or raises. *)
Inductive outcome (E A : Type) : Type :=
| Ok (a : A)
| Raise (e : E).

Arguments Ok {E A} a.
Arguments Raise {E A} e.

(** A pipeline computation: the texts the tagger was called with, in order,
    and the outcome. *)
Definition M (E A : Type) : Type := (list str * outcome E A)%type.

Definition ret {E A : Type} (a : A) : M E A := ([], Ok a).

Definition bind {E A B : Type} (m : M E A) (f : A -> M E B) : M E B :=
  match m with
  | (log, Ok a) => let (log', r) := f a in (log ++ log', r)
  | (log, Raise e) => (log, Raise e)
  end.

Notation "'let*' x ':=' m 'in' f" := (bind m (fun x => f))
  (at level 10, x name, m at level 100, f at level 200).

Definition calls {E A : Type} (m : M E A) : list str := fst m.
Definition result {E A : Type} (m : M E A) : outcome E A := snd m.

Definition NAME_TOKEN : str := txt "[CANDIDATE NAME]".
Definition ADDRESS_TOKEN : str := txt "[ADDRESS]".
Definition EMAIL_TOKEN : str := txt "***@***.com".
Definition PHONE_TOKEN : str := txt "XXX-XXX-XXXX".

(** [[ent.text for ent in doc.ents if ent.label_ == "PERSON"]] *)
Definition person_names (ents : list Ent) : list str :=
  map ent_text (filter (fun e => String.eqb (ent_label e) "PERSON") ents).

(** [[ent.text for ent in doc.ents if ent.label_ in ["GPE", "LOC"]]] *)
Definition location_names (ents : list Ent) : list str :=
  map ent_text
      (filter (fun e => String.eqb (ent_label e) "GPE"
                        || String.eqb (ent_label e) "LOC") ents).

(** [[p[1] for p in phones if p[1]]] *)
Definition phones_flat (phones : list (str * str)) : list str :=
  map snd (filter (fun p => nonempty (snd p)) phones).

(** The loop [for address in addresses: text = text.replace(address, ...)]. *)
Definition replace_addresses (addresses : list str) (text : str) : str :=
  fold_left (fun t a => replace t a ADDRESS_TOKEN) addresses text.

(** ** The output schema *)

(** An entry of the schema template: an internal key, or a list of
    internal keys for a nested record. *)
Inductive tval : Type :=
| TKey (k : string)
| TKeys (ks : list string).

Definition output_schema_template : list (string * tval) :=
  [("Skill_Set", TKey "skills");
   ("Experience_Summary", TKey "experience");
   ("Anonymized_Resume_Text", TKey "anonymized_resume_text");
   ("Certifications_List", TKey "certifications");
   ("Education_Records", TKey "education")].

(** The loop over [template.items()] that fills [final_output]. *)
Definition apply_template (template : list (string * tval))
           (combined_data : dict) : dict :=
  fold_left
    (fun final_output entry =>
       match snd entry with
       | TKeys sub_keys =>
           dict_set final_output (fst entry)
             (VDict (fold_left
                       (fun d sub_key =>
                          dict_set d sub_key
                                   (dict_get_or_none combined_data sub_key))
                       sub_keys []))
       | TKey value_key =>
           dict_set final_output (fst entry)
                    (dict_get_or_none combined_data value_key)
       end)
    template [].

Section Pipeline.

(** What the tagger raises, and the tagger [nlp] itself: it returns the
    entities of the text in document order, or raises. *)
Variable exn : Type.
Variable nlp : str -> outcome exn (list Ent).

Definition call_nlp (text : str) : M exn (list Ent) := ([text], nlp text).

Definition anonymize_data (text : str) : M exn (str * dict) :=
  let anonymized_info :=
    [("masked_emails", VList []); ("masked_phones", VList []);
     ("masked_addresses", VList [])] in
  let emails := findall0 no_flags email_pattern text in
  let anonymized_info := dict_set anonymized_info "masked_emails" (VList emails) in
  let anonymized_text := sub no_flags email_pattern EMAIL_TOKEN text in
  let phones := findall2 no_flags phone_pattern anonymized_text in
  let anonymized_info :=
    dict_set anonymized_info "masked_phones" (VList (phones_flat phones)) in
  let anonymized_text := sub no_flags phone_pattern PHONE_TOKEN anonymized_text in
  let* doc := call_nlp anonymized_text in
  let names := person_names doc in
  let '(anonymized_text, anonymized_info) :=
    match names with
    | candidate_name :: _ =>
        (replace anonymized_text candidate_name NAME_TOKEN,
         dict_set anonymized_info "masked_name" (VStr candidate_name))
    | [] => (anonymized_text, anonymized_info)
    end in
  let addresses := location_names doc in
  let anonymized_text := replace_addresses addresses anonymized_text in
  let anonymized_info :=
    dict_set anonymized_info "masked_addresses" (VList addresses) in
  ret (anonymized_text, anonymized_info).

(** *** [process_resume] *)

(** The decoders of uploaded files are external; each returns the text of
    the file, or the empty text when decoding fails. *)
Variable path : Type.
Variable extract_text_from_pdf : path -> str.
Variable extract_text_from_docx : path -> str.
Variable extract_text_from_image : path -> str.

Definition decode (file_path : path) (content_type : string) : str :=
  if String.eqb content_type "application/pdf"
  then extract_text_from_pdf file_path
  else if String.eqb content_type
       "application/vnd.openxmlformats-officedocument.wordprocessingml.document"
  then extract_text_from_docx file_path
  else if String.eqb content_type "image/jpeg"
          || String.eqb content_type "image/png"
  then extract_text_from_image file_path
  else [].

Definition process_resume (file_path : path) (content_type : string)
  : M exn dict :=
  let text := decode file_path content_type in
  let* r := anonymize_data text in
  let '(anonymized_text, anonymized_info) := r in
  let extracted_info := extract_info anonymized_text in
  let combined_data :=
    dict_merge
      (dict_merge [("anonymized_resume_text", VStr anonymized_text)]
                  extracted_info)
      anonymized_info in
  ret (apply_template output_schema_template combined_data).

End Pipeline.

(** ** The section matchers as the specification words them

    A direct scanner that follows the specification's description of a
    section matcher: find the first case-insensitive occurrence of the header
    keyword, pass over colons and whitespace, capture up to the terminator
    or the end of the text, split, trim every item and drop the empty ones.
    The theorems below compare [extract_info] with it. *)

Module Spec.

Fixpoint starts_with_ci (kw x : str) : bool :=
  match kw, x with
  | [], _ => true
  | a :: kw', b :: x' => ch_eqb (lower b) (lower a) && starts_with_ci kw' x'
  | _ :: _, [] => false
  end.

(** The text after the first case-insensitive occurrence of [kw]. *)
Fixpoint after_first (kw x : str) : option str :=
  if starts_with_ci kw x then Some (skipn (length kw) x)
  else match x with
       | [] => None
       | _ :: t => after_first kw t
       end.

(** The first position at which one of two alternative keywords occurs,
    the first keyword having priority: which one it is ([true] for the
    first) and the text after it. *)
Fixpoint after_first_of (kw1 kw2 x : str) : option (bool * str) :=
  if starts_with_ci kw1 x then Some (true, skipn (length kw1) x)
  else if starts_with_ci kw2 x then Some (false, skipn (length kw2) x)
  else match x with
       | [] => None
       | _ :: t => after_first_of kw1 kw2 t
       end.

(** Pass over an optional letter. *)
Definition drop_optional (a : ascii) (x : str) : str :=
  match x with
  | c :: t => if ch_eqb (lower c) (lower a) then t else x
  | [] => []
  end.

Definition is_colon_space (c : ascii) : bool := ch_eqb c ":"%char || isspace c.

(** Pass over the colons and whitespace that follow the header. *)
Fixpoint skip_colon_space (x : str) : str :=
  match x with
  | c :: t => if is_colon_space c then skip_colon_space t else x
  | [] => []
  end.

(** Everything up to the first line break, or the end of the text. *)
Fixpoint until_newline (x : str) : str :=
  match x with
  | [] => []
  | c :: t => if ch_eqb c newline then [] else c :: until_newline t
  end.

(** Everything up to the first blank line (two consecutive line breaks),
    or the end of the text. *)
Fixpoint until_blank_line (x : str) : str :=
  match x with
  | [] => []
  | c :: t =>
      if starts_with [newline; newline] x then [] else c :: until_blank_line t
  end.

(** Split, trim each item, drop the empty items. *)
Definition items (sep : ascii) (capture : str) : list str :=
  filter nonempty (map strip (split sep capture)).

Definition skills (text : str) : list str :=
  match after_first (txt "Skill") text with
  | Some body =>
      items ","%char
            (until_newline (skip_colon_space (drop_optional "s"%char body)))
  | None => []
  end.

(** A multi-line section under one keyword. *)
Definition lines_after (kw : str) (text : str) : list str :=
  match after_first kw text with
  | Some body => items newline (until_blank_line (skip_colon_space body))
  | None => []
  end.

Definition education : str -> list str := lines_after (txt "Education").
Definition certifications : str -> list str := lines_after (txt "Certifications").

(** The experience section as specified: either keyword opens it. *)
Definition experience (text : str) : list str :=
  match after_first_of (txt "Experience") (txt "Work History") text with
  | Some (_, body) => items newline (until_blank_line (skip_colon_space body))
  | None => []
  end.

(** [old] occurs in [x]. *)
Definition occurs (old x : str) : Prop :=
  exists pre post, x = pre ++ old ++ post.

(** Every occurrence of a non-empty [old], found left to right without
    overlap, is replaced by [new]. *)
Inductive replaced_all (old new : str) : str -> str -> Prop :=
| ra_none : forall x, ~ occurs old x -> replaced_all old new x x
| ra_next : forall pre post out,
    (forall pre' post', pre ++ old ++ post = pre' ++ old ++ post' ->
                        length pre <= length pre') ->
    replaced_all old new post out ->
    replaced_all old new (pre ++ old ++ post) (pre ++ new ++ out).

End Spec.


(** ** Definitions used to state the properties *)

(** A text made of whitespace only. *)
Definition all_space (ws : str) : Prop := forallb isspace ws = true.

(** A non-empty text without leading or trailing whitespace. *)
Definition trimmed (x : str) : Prop :=
  x <> []
  /\ (forall c t, x = c :: t -> isspace c = false)
  /\ (forall t c, x = t ++ [c] -> isspace c = false).

(** A line break. *)
Definition nl : str := [newline].

(** A tagger that reports no entity. *)
Definition no_spans {E : Type} : str -> outcome E (list Ent) := fun _ => Ok [].

(** A tagger that cannot be invoked. *)
Definition unavailable : str -> outcome unit (list Ent) := fun _ => Raise tt.

(** The input of the first scenario of the specification. *)
Definition contact_line : str :=
  txt "Contact: jane@example.com or 555-123-4567. Skills: Python, SQL, Go".

(** A resume whose experience section opens with the header Experience. *)
Definition experience_resume : str :=
  txt "Experience:" ++ nl ++ txt "Acme Corp" ++ nl ++ txt "Beta Inc".

(** The entity pass, given the entities the tagger returned. *)
Definition entity_pass (ents : list Ent) (post_phone : str) : str :=
  replace_addresses (location_names ents)
    (match person_names ents with
     | candidate_name :: _ => replace post_phone candidate_name NAME_TOKEN
     | [] => post_phone
     end).

(** The record [process_resume] returns for an anonymized text. *)
Definition final_record (anonymized_text : str) : dict :=
  [("Skill_Set", dict_get_or_none (extract_info anonymized_text) "skills");
   ("Experience_Summary",
    dict_get_or_none (extract_info anonymized_text) "experience");
   ("Anonymized_Resume_Text", VStr anonymized_text);
   ("Certifications_List",
    dict_get_or_none (extract_info anonymized_text) "certifications");
   ("Education_Records",
    dict_get_or_none (extract_info anonymized_text) "education")].

(** A placeholder: it opens with [opening] and closes with [closing]. *)
Definition delimited (tok : str) (opening closing : ascii) : Prop :=
  (exists r, tok = opening :: r) /\ (exists r, tok = r ++ [closing]).

(** A text that names its candidate twice, and a tagger result for it. *)
Definition jane_text : str := txt "Jane Doe, engineer at Acme. Jane Doe led the team.".

Definition jane_tagger : str -> outcome unit (list Ent) :=
  fun _ => Ok [ {| ent_text := txt "Acme"; ent_label := "ORG" |};
                {| ent_text := txt "Jane Doe"; ent_label := "PERSON" |};
                {| ent_text := txt "Doe"; ent_label := "PERSON" |} ].

(** The delimiters of the two entity placeholders. *)
Definition is_bracket (c : ascii) : bool := ch_eqb c "["%char || ch_eqb c "]"%char.

(** A recorded string that the placeholder [tok] cannot bring back: it is
    not empty, holds no square bracket, and is no part of the placeholder. *)
Definition maskable (n tok : str) : bool :=
  nonempty n && negb (existsb is_bracket n) && negb (contains tok n).

(** A text with a name and two places, the tagger result for it, and what
    [anonymize_data] returns on them. *)
Definition paris_text : str :=
  txt "Jane Doe, Paris. Jane Doe moved from Paris to Lyon.".

Definition paris_tagger : str -> outcome unit (list Ent) :=
  fun _ => Ok [ {| ent_text := txt "Jane Doe"; ent_label := "PERSON" |};
                {| ent_text := txt "Paris"; ent_label := "GPE" |};
                {| ent_text := txt "Lyon"; ent_label := "GPE" |} ].

Definition paris_out : str :=
  txt "[CANDIDATE NAME], [ADDRESS]. [CANDIDATE NAME] moved from [ADDRESS] to [ADDRESS].".

Definition paris_info : dict :=
  [("masked_emails", VList []); ("masked_phones", VList []);
   ("masked_addresses", VList [txt "Paris"; txt "Lyon"]);
   ("masked_name", VStr (txt "Jane Doe"))].

(** A tagger that reports a name which is part of the name placeholder. *)
Definition ida_tagger : str -> outcome unit (list Ent) :=
  fun _ => Ok [ {| ent_text := txt "IDA"; ent_label := "PERSON" |} ].

(** The text left once the leading characters that satisfy [p] are passed. *)
Fixpoint skip_set (p : ascii -> bool) (x : str) : str :=
  match x with
  | c :: t => if p c then skip_set p t else x
  | [] => []
  end.

(** [$] on the text ahead: nothing is left, or one final line break. *)
Definition at_end_of (x : str) : bool :=
  match x with
  | [] => true
  | c :: [] => ch_eqb c newline
  | _ => false
  end.

(** The capture stops at [x]: the terminator [stop] starts there, or [$]
    holds there. *)
Definition stop_here (stop x : str) : bool := starts_with stop x || at_end_of x.

(** The text up to the first position at which the capture stops. *)
Fixpoint capture_until (stop x : str) : str :=
  if stop_here stop x then []
  else match x with
       | [] => []
       | c :: t => c :: capture_until stop t
       end.

(** The first state, scanning forward, at which [k] succeeds. *)
Fixpoint first_success (k : mstate -> option mstate) (bef x : str)
         (cs : list (nat * str)) : option mstate :=
  match k {| before := bef; rest := x; caps := cs |} with
  | Some m => Some m
  | None =>
      match x with
      | [] => None
      | c :: t => first_success k (c :: bef) t cs
      end
  end.

(** A terminator pattern [r] matches exactly the text [stop]. *)
Definition matches_text (r : regex) (stop : str) : Prop :=
  forall bef x cs k,
    mt IGNORECASE_DOTALL r {| before := bef; rest := x; caps := cs |} k
    = if starts_with stop x
      then k {| before := rev stop ++ bef; rest := skipn (length stop) x;
                caps := cs |}
      else None.

(** What a pattern does at one position: [None] when it does not match
    there, otherwise its first group. *)
Definition group1_at (r : regex) (bef x : str) : option (option str) :=
  option_map (fun m => group m 1) (match_at IGNORECASE_DOTALL r bef x).

(** The first position, scanning forward, at which [h] answers. *)
Fixpoint first_hit (h : str -> option (option str)) (x : str)
  : option (option str) :=
  match h x with
  | Some g => Some g
  | None =>
      match x with
      | [] => None
      | _ :: t => first_hit h t
      end
  end.

(** The input of the second scenario: an education section closed by a
    blank line, then the experience header and any further text. *)
Definition education_resume (more : str) : str :=
  txt "Education:" ++ nl ++ txt "BSc Computer Science, MIT" ++ nl ++ nl
      ++ txt "Experience:" ++ nl ++ more.

(** The experience lines of the program: the body under the first header
    found, when that header is Work History; under the header Experience
    the pattern has no group to capture a body with. *)
Definition captured_experience (text : str) : list str :=
  match Spec.after_first_of (txt "Experience") (txt "Work History") text with
  | Some (false, body) =>
      Spec.items newline (Spec.until_blank_line (Spec.skip_colon_space body))
  | _ => []
  end.

(** The second scenario of the specification, with two experience lines. *)
Definition scenario_resume : str :=
  education_resume (txt "Acme Corp" ++ nl ++ txt "Beta Inc").

(** A pattern every match of which takes at least one character. *)
Fixpoint consumes (r : regex) : bool :=
  match r with
  | Lit _ | Dot | CSet _ => true
  | Eps | Bnd | Eos => false
  | Seq r1 r2 => consumes r1 || consumes r2
  | Alt r1 r2 => consumes r1 && consumes r2
  | Rep _ lo _ _ => (0 <? lo)%nat
  | Grp _ r1 => consumes r1
  end.

(** ** The texts a pattern takes, and character counts *)

(** [st'] is the state reached from [st] once the text [a] is passed. *)
Definition ahead (st : mstate) (a : str) (st' : mstate) : Prop :=
  rest st = a ++ rest st' /\ before st' = rev a ++ before st.

(** The texts a pattern can take, position tests left aside. *)
Fixpoint lang (fl : flags) (r : regex) : str -> Prop :=
  match r with
  | Eps | Bnd | Eos => fun a => a = []
  | Lit c => fun a => exists x, a = [x] /\ lit_ok fl c x = true
  | Dot => fun a => exists x, a = [x] /\ dot_ok fl x = true
  | CSet items => fun a => exists x, a = [x] /\ cset_ok fl items x = true
  | Seq r1 r2 => fun a => exists a1 a2, a = a1 ++ a2 /\ lang fl r1 a1 /\ lang fl r2 a2
  | Alt r1 r2 => fun a => lang fl r1 a \/ lang fl r2 a
  | Grp _ r1 => lang fl r1
  | Rep _ lo hi r1 =>
      fun a => exists pieces,
          a = concat pieces /\ Forall (lang fl r1) pieces
          /\ lo <= length pieces
          /\ match hi with Some h => length pieces <= h | None => True end
  end.

(** The number of characters of [a] that satisfy [p]. *)
Definition count (p : ascii -> bool) (a : str) : nat := length (filter p a).

(** All the characters. *)
Definition all_ascii : list ascii := map ascii_of_nat (seq 0 256).

(** Every character accepted by [q] satisfies [p]. *)
Definition every (q p : ascii -> bool) : bool :=
  forallb (fun c => implb (q c) (p c)) all_ascii.

Definition char_min (p q : ascii -> bool) : nat := if every q p then 1 else 0.

Definition char_max (p q : ascii -> bool) : nat :=
  if every q (fun c => negb (p c)) then 0 else 1.

(** A lower bound on the number of characters satisfying [p] in a text taken
    by [r]. *)
Fixpoint cmin (fl : flags) (p : ascii -> bool) (r : regex) : nat :=
  match r with
  | Eps | Bnd | Eos => 0
  | Lit c => char_min p (lit_ok fl c)
  | Dot => char_min p (dot_ok fl)
  | CSet items => char_min p (cset_ok fl items)
  | Seq r1 r2 => cmin fl p r1 + cmin fl p r2
  | Alt r1 r2 => Nat.min (cmin fl p r1) (cmin fl p r2)
  | Grp _ r1 => cmin fl p r1
  | Rep _ lo _ r1 => lo * cmin fl p r1
  end.

(** An upper bound, when there is one. *)
Fixpoint cmax (fl : flags) (p : ascii -> bool) (r : regex) : option nat :=
  match r with
  | Eps | Bnd | Eos => Some 0
  | Lit c => Some (char_max p (lit_ok fl c))
  | Dot => Some (char_max p (dot_ok fl))
  | CSet items => Some (char_max p (cset_ok fl items))
  | Seq r1 r2 =>
      match cmax fl p r1, cmax fl p r2 with
      | Some m1, Some m2 => Some (m1 + m2)
      | _, _ => None
      end
  | Alt r1 r2 =>
      match cmax fl p r1, cmax fl p r2 with
      | Some m1, Some m2 => Some (Nat.max m1 m2)
      | _, _ => None
      end
  | Grp _ r1 => cmax fl p r1
  | Rep _ _ hi r1 =>
      match cmax fl p r1 with
      | Some 0 => Some 0
      | Some m => match hi with Some h => Some (h * m) | None => None end
      | None => None
      end
  end.

Local Open Scope char_scope.

(** The optional country-code part of [phone_pattern] and the number that
    its second group captures. *)
Definition phone_prefix : regex :=
  opt (Grp 1 (opt (Lit "+") ;; Rep true 1 (Some 3) digit ;; opt_lazy sep_set)%re).

Definition phone_number : regex :=
  Alt (opt (Lit "(") ;; times 3 digit ;; opt (Lit ")")
       ;; opt_lazy sep_set ;; times 3 digit
       ;; opt_lazy sep_set ;; times 4 digit)%re
      (times 10 digit).

(** The characters a recorded phone number is made of. *)
Definition phone_char (c : ascii) : bool :=
  isdecimal c || ch_eqb c "(" || ch_eqb c ")" || ch_eqb c "-" || ch_eqb c "."
  || isspace c.

Definition is_at (c : ascii) : bool := ch_eqb c "@".

Definition is_plus (c : ascii) : bool := ch_eqb c "+".

Definition is_separator (c : ascii) : bool :=
  ch_eqb c "-" || ch_eqb c "." || isspace c.

Local Close Scope char_scope.

(** The texts the optional first group of [phone_pattern] takes, a country
    code: nothing, or an optional plus sign, one to three decimal digits and
    an optional separator (a hyphen, a dot or a whitespace character). *)
Definition country_code (code : str) : Prop :=
  code = []
  \/ exists sign digits separator,
      code = sign ++ digits ++ separator
      /\ length sign <= 1 /\ forallb is_plus sign = true
      /\ 1 <= length digits <= 3 /\ forallb isdecimal digits = true
      /\ length separator <= 1 /\ forallb is_separator separator = true.

(** The texts cut out of [x] by successive matches: [x] is gap, match, gap,
    match, ..., gap, and [out] is [x] with every match replaced by [repl]. *)
Inductive spliced (repl : str) : str -> list str -> str -> Prop :=
| spliced_nil : forall x, spliced repl x [] x
| spliced_cons : forall gap t rest ts out,
    spliced repl rest ts out ->
    spliced repl (gap ++ t ++ rest) (t :: ts) (gap ++ repl ++ out).

(** What [anonymize_data] returns on the contact line when the tagger
    reports nothing. *)
Definition contact_out : str :=
  txt "Contact: ***@***.com or XXX-XXX-XXXX. Skills: Python, SQL, Go".

Definition contact_info : dict :=
  [("masked_emails", VList [txt "jane@example.com"]);
   ("masked_phones", VList [txt "555-123-4567"]);
   ("masked_addresses", VList [])].

(** A line with a phone number after a country code, and what
    [anonymize_data] returns on it when the tagger reports nothing. *)
Definition intl_line : str := txt "Call 44 555-123-4567 now".

Definition intl_out : str := txt "Call XXX-XXX-XXXX now".

Definition intl_info : dict :=
  [("masked_emails", VList []);
   ("masked_phones", VList [txt "555-123-4567"]);
   ("masked_addresses", VList [])].

(** ** Header keywords *)

(** The keyword [kw] occurs in [text], letter case apart. *)
Definition mentions (kw text : str) : bool :=
  contains (map lower text) (map lower kw).

(** A resume whose experience section opens with the header Work History. *)
Definition work_history_resume : str :=
  txt "Work History:" ++ nl ++ txt "Acme Corp" ++ nl ++ txt "Beta Inc"
      ++ nl ++ nl ++ txt "Hobbies: chess".

(** ** The strings of a record *)

(** The strings a value holds. *)
Definition strings_of (v : value) : list str :=
  match v with
  | VStr x => [x]
  | VList xs => xs
  | _ => []
  end.

(** The strings of a record: its texts and the items of its lists. *)
Definition record_strings (d : dict) : list str :=
  flat_map (fun entry => strings_of (snd entry)) d.

(** ** The schema template *)

(** No string occurs twice in the list. *)
Fixpoint distinct (l : list string) : bool :=
  match l with
  | [] => true
  | k :: l' => negb (existsb (String.eqb k) l') && distinct l'
  end.

(** What [apply_template] stores for one entry of the template. *)
Definition entry_value (combined_data : dict) (value_key : tval) : value :=
  match value_key with
  | TKeys sub_keys =>
      VDict (fold_left
               (fun d sub_key =>
                  dict_set d sub_key (dict_get_or_none combined_data sub_key))
               sub_keys [])
  | TKey value_key => dict_get_or_none combined_data value_key
  end.

(** A combined record in which one internal key of the schema is missing. *)
Definition partial_data : dict :=
  [("skills", VList [txt "Rocq"]); ("anonymized_resume_text", VStr (txt "x"))].

Definition nested_template : list (string * tval) :=
  [("Text", TKey "anonymized_resume_text");
   ("Sections", TKeys ["skills"; "education"])].

(** ** A resume without text *)

(** The record returned for a resume without text. *)
Definition empty_record : dict :=
  [("Skill_Set", VList []); ("Experience_Summary", VList []);
   ("Anonymized_Resume_Text", VStr []); ("Certifications_List", VList []);
   ("Education_Records", VList [])].

(** A tagger that finds no entity. *)
Definition silent_tagger (text : str) : outcome unit (list Ent) := Ok [].

(** ** [upload_and_parse]

    The endpoint is modelled over the files reachable from the working
    directory, a map from paths to contents.  A path is the text that
    [pathlib] prints for it on a POSIX system, and two different paths are
    two different files: links and [..] components, through which different
    paths reach one file, are outside the model.  Opening the temporary file
    may fail (a missing directory, a name the system refuses); reading the
    upload and removing a file do not. *)

(** [sep.join(parts)] *)
Fixpoint join (sep : str) (parts : list str) : str :=
  match parts with
  | [] => []
  | [x] => x
  | x :: parts' => x ++ sep ++ join sep parts'
  end.

(** [part.lstrip('/')] *)
Fixpoint lstrip_sep (part : str) : str :=
  match part with
  | c :: t => if ch_eqb c "/"%char then lstrip_sep t else part
  | [] => []
  end.

(** [x == '.'] *)
Definition is_dot (x : str) : bool :=
  match x with
  | [c] => ch_eqb c "."%char
  | _ => false
  end.

(** The root of a path and what follows it: two leading slashes are kept,
    any other number of them is one. *)
Definition splitroot (part : str) : str * str :=
  match part with
  | c :: _ =>
      if ch_eqb c "/"%char
      then let stripped_part := lstrip_sep part in
           if (length part - length stripped_part =? 2)%nat
           then (txt "//", stripped_part)
           else (txt "/", stripped_part)
      else ([], part)
  | [] => ([], part)
  end.

(** [str(Path(s))] for one argument on a POSIX system: the components
    between slashes, the empty ones and the [.] ones left out, after the
    root if there is one; [.] when nothing is left.  A [..] component is
    kept as it is. *)
Definition Path (s : string) : string :=
  let '(root, rel) := splitroot (txt s) in
  let parsed :=
    filter (fun x => nonempty x && negb (is_dot x)) (split "/"%char rel) in
  match (root ++ join (txt "/") parsed)%list with
  | [] => "."
  | shown => string_of_list_ascii shown
  end.

Definition bytes : Type := list Byte.byte.

(** The uploaded file: its declared content type, its file name, and what
    the successive calls [file.read(1024)] return; once the list is used up
    a read returns [b""]. *)
Record UploadFile : Type :=
  { content_type : string; filename : string; reads : list bytes }.

(** The files of the working directory, by path. *)
Definition filesystem : Type := string -> option bytes.

Definition write_file (fs : filesystem) (p : string) (c : bytes) : filesystem :=
  fun q => if String.eqb q p then Some c else fs q.

Definition remove (fs : filesystem) (p : string) : filesystem :=
  fun q => if String.eqb q p then None else fs q.

Definition exists_ (fs : filesystem) (p : string) : bool :=
  match fs p with Some _ => true | None => false end.

Definition allowed_types : list string :=
  ["application/pdf";
   "application/vnd.openxmlformats-officedocument.wordprocessingml.document";
   "image/jpeg";
   "image/png"].

Definition max_file_size_bytes : N := 5 * 1024 * 1024.

(** The loop [while True: chunk = await file.read(1024) ...]: the bytes
    written to the buffer, and whether the loop ended by [break] ([true]) or
    by the size check ([false]). *)
Fixpoint read_upload (reads : list bytes) (file_size_read : N) (buffer : bytes)
  : bytes * bool :=
  match reads with
  | [] => (buffer, true)
  | chunk :: reads' =>
      match chunk with
      | [] => (buffer, true)
      | _ :: _ =>
          let file_size_read := (file_size_read + N.of_nat (length chunk))%N in
          if (max_file_size_bytes <? file_size_read)%N
          then (buffer, false)
          else read_upload reads' file_size_read (buffer ++ chunk)
      end
  end.

(** What the endpoint raises: an [HTTPException], the error of opening the
    temporary file, or whatever the tagger raised. *)
Inductive failure (exn : Type) : Type :=
| HTTPException (status_code : nat) (detail : string)
| OpenError
| TaggerError (e : exn).

Arguments HTTPException {exn} status_code detail.
Arguments OpenError {exn}.
Arguments TaggerError {exn} e.

Section Upload.

Variable exn : Type.
Variable nlp : str -> outcome exn (list Ent).

(** The decoders read the file at a path of the file system. *)
Variable extract_text_from_pdf : filesystem -> string -> str.
Variable extract_text_from_docx : filesystem -> string -> str.
Variable extract_text_from_image : filesystem -> string -> str.

(** [uuid.uuid4()], as text, and whether [temp_file_path.open("wb")]
    succeeds. *)
Variable uuid4 : string.
Variable can_open : filesystem -> string -> bool.

(** The [finally] block. *)
Definition cleanup (fs : filesystem) (temp_file_path : string) : filesystem :=
  if exists_ fs temp_file_path then remove fs temp_file_path else fs.

(** The endpoint: the file system it leaves, the tagger calls it made, and
    what it returns or raises. *)
Definition upload_and_parse (file : UploadFile) (fs : filesystem)
  : filesystem * M (failure exn) dict :=
  if negb (existsb (String.eqb (content_type file)) allowed_types)
  then (fs, ([], Raise (HTTPException 400
               "Invalid file type. Only PDF, DOCX, and JPG/PNG are supported.")))
  else
    let temp_file_path :=
      Path ("temp_" ++ uuid4 ++ "_" ++ filename file)%string in
    if negb (can_open fs temp_file_path)
    then (cleanup fs temp_file_path, ([], Raise OpenError))
    else
      let '(buffer, complete) := read_upload (reads file) 0 [] in
      let fs := write_file fs temp_file_path buffer in
      if complete
      then
        let '(log, r) :=
          process_resume nlp
            (extract_text_from_pdf fs) (extract_text_from_docx fs)
            (extract_text_from_image fs) temp_file_path (content_type file) in
        (cleanup fs temp_file_path,
         (log, match r with
               | Ok structured_data => Ok structured_data
               | Raise e => Raise (TaggerError e)
               end))
      else
        (cleanup fs temp_file_path,
         ([], Raise (HTTPException 413 "File size exceeds the 5 MB limit."))).

End Upload.

(** The body of an upload: the chunks read before the first empty one. *)
Fixpoint received (reads : list bytes) : bytes :=
  match reads with
  | [] => []
  | [] :: _ => []
  | chunk :: reads' => chunk ++ received reads'
  end.

(** The path of the temporary file,
    [Path(f"temp_{uuid.uuid4()}_{file.filename}")]. *)
Definition temp_path (uuid4 : string) (file : UploadFile) : string :=
  Path ("temp_" ++ uuid4 ++ "_" ++ filename file)%string.

(** A decoder that reads the stored bytes as text, an empty directory, and
    three uploads: one sent in three chunks, one of 5 MB and 1 KB, and one
    whose file name ends with a slash. *)
Definition stored_text (fs : filesystem) (p : string) : str :=
  match fs p with
  | Some b => map ascii_of_byte b
  | None => []
  end.

Definition no_files : filesystem := fun _ => None.

Definition small_upload : UploadFile :=
  {| content_type := "application/pdf";
     filename := "cv.pdf";
     reads := [[Byte.x53; Byte.x6b]; [Byte.x69]; []; [Byte.x7a]] |}.

Definition slash_upload : UploadFile :=
  {| content_type := "application/pdf";
     filename := "cv.pdf/";
     reads := [[Byte.x53; Byte.x6b]] |}.

Definition big_upload : UploadFile :=
  {| content_type := "image/png";
     filename := "scan.png";
     reads := repeat (repeat Byte.x00 1024) (5 * 1024 + 1) |}.

(** * Properties *)

(** ** Characters *)

Lemma ch_eqb_eq : forall a b, ch_eqb a b = true <-> a = b.
Proof. intros a b. unfold ch_eqb. apply Ascii.eqb_eq. Qed.

Lemma ch_eqb_refl : forall a, ch_eqb a a = true.
Proof. intro a. apply ch_eqb_eq. reflexivity. Qed.

(** ** [strip] *)

Lemma lstrip_split : forall x, exists ws, x = ws ++ lstrip x /\ all_space ws.
Proof.
  induction x as [|c t IH]; simpl.
  - exists []. split; reflexivity.
  - destruct (isspace c) eqn:Hc.
    + destruct IH as [ws [E Hws]]. exists (c :: ws). split.
      * simpl. f_equal. exact E.
      * unfold all_space. simpl. rewrite Hc. exact Hws.
    + exists []. split; reflexivity.
Qed.

Lemma lstrip_head : forall x c t, lstrip x = c :: t -> isspace c = false.
Proof.
  induction x as [|a x IH]; simpl; intros c t H.
  - discriminate.
  - destruct (isspace a) eqn:Ha.
    + eapply IH. exact H.
    + inversion H. subst. exact Ha.
Qed.

Lemma lstrip_all_space : forall ws, all_space ws -> lstrip ws = [].
Proof.
  induction ws as [|c t IH]; simpl; intro H.
  - reflexivity.
  - unfold all_space in H. simpl in H. apply andb_prop in H.
    destruct H as [Hc Ht]. rewrite Hc. apply IH. exact Ht.
Qed.

Lemma lstrip_app_space : forall ws x, all_space ws -> lstrip (ws ++ x) = lstrip x.
Proof.
  induction ws as [|c t IH]; simpl; intros x H.
  - reflexivity.
  - unfold all_space in H. simpl in H. apply andb_prop in H.
    destruct H as [Hc Ht]. rewrite Hc. apply IH. exact Ht.
Qed.

Lemma all_space_rev : forall ws, all_space ws -> all_space (rev ws).
Proof.
  intros ws H. unfold all_space in *. rewrite forallb_forall in *.
  intros c Hc. apply H. apply in_rev. exact Hc.
Qed.

Lemma all_space_app : forall a b, all_space a -> all_space b -> all_space (a ++ b).
Proof.
  intros a b Ha Hb. unfold all_space in *. rewrite forallb_app, Ha, Hb. reflexivity.
Qed.

Lemma rstrip_split : forall x, exists ws, x = rstrip x ++ ws /\ all_space ws.
Proof.
  intro x. unfold rstrip. destruct (lstrip_split (rev x)) as [ws [E Hws]].
  exists (rev ws). split.
  - rewrite <- rev_app_distr, <- E. symmetry. apply rev_involutive.
  - apply all_space_rev. exact Hws.
Qed.

Lemma rstrip_last : forall x t c, rstrip x = t ++ [c] -> isspace c = false.
Proof.
  intros x t c H. unfold rstrip in H.
  apply (f_equal (@rev ascii)) in H.
  rewrite rev_involutive, rev_app_distr in H. simpl in H.
  eapply lstrip_head. exact H.
Qed.

Lemma rstrip_app_space : forall x ws, all_space ws -> rstrip (x ++ ws) = rstrip x.
Proof.
  intros x ws H. unfold rstrip. rewrite rev_app_distr.
  rewrite lstrip_app_space by (apply all_space_rev; exact H). reflexivity.
Qed.

Lemma strip_head : forall x c t, strip x = c :: t -> isspace c = false.
Proof.
  intros x c t H. unfold strip in H.
  destruct (rstrip_split (lstrip x)) as [ws [E _]].
  rewrite H in E. simpl in E. eapply lstrip_head. exact E.
Qed.

Lemma strip_last : forall x t c, strip x = t ++ [c] -> isspace c = false.
Proof. intros x t c H. unfold strip in H. eapply rstrip_last. exact H. Qed.

Lemma nonempty_true : forall x : str, nonempty x = true -> x <> [].
Proof. intros [|c t] H; [discriminate | discriminate]. Qed.

Lemma stripped_items_trimmed : forall sep raw, Forall trimmed (stripped_items sep raw).
Proof.
  intros sep raw. unfold stripped_items.
  apply Forall_forall. intros y Hy.
  apply in_map_iff in Hy. destruct Hy as [x [Ey Hx]].
  apply filter_In in Hx. destruct Hx as [_ Hne]. subst y.
  repeat split.
  - apply nonempty_true. exact Hne.
  - intros c t E. eapply strip_head. exact E.
  - intros t c E. eapply strip_last. exact E.
Qed.

Lemma section_items_trimmed : forall p sep text xs,
    section_items p sep text = Some xs -> Forall trimmed xs.
Proof.
  intros p sep text xs H. unfold section_items in H.
  destruct (search IGNORECASE_DOTALL p text) as [m|]; [|discriminate].
  destruct (group m 1) as [g|]; [|discriminate].
  destruct (nonempty g); [|discriminate].
  inversion H. apply stripped_items_trimmed.
Qed.

(** The record built by [extract_info], whatever the four matchers find. *)
Lemma extract_info_form : forall text,
    extract_info text =
    [("skills", VList (match section_items skills_pattern ","%char text with
                       | Some xs => xs | None => [] end));
     ("education", VList (match section_items education_pattern newline text with
                          | Some xs => xs | None => [] end));
     ("experience", VList (match section_items experience_pattern newline text with
                           | Some xs => xs | None => [] end));
     ("certifications",
      VList (match section_items certifications_pattern newline text with
             | Some xs => xs | None => [] end))].
Proof.
  intro text. unfold extract_info.
  destruct (section_items skills_pattern ","%char text);
    destruct (section_items education_pattern newline text);
    destruct (section_items experience_pattern newline text);
    destruct (section_items certifications_pattern newline text);
    reflexivity.
Qed.

Lemma option_items_trimmed : forall p sep text,
    Forall trimmed (match section_items p sep text with
                    | Some xs => xs | None => [] end).
Proof.
  intros p sep text. destruct (section_items p sep text) as [xs|] eqn:E.
  - eapply section_items_trimmed. exact E.
  - constructor.
Qed.

(** C10: [extract_info] returns a record with exactly the keys skills,
    education, experience and certifications, each bound to a list whose
    elements are non-empty and carry no leading or trailing whitespace. *)
Theorem extract_info_shape : forall text,
    keys (extract_info text)
    = ["skills"; "education"; "experience"; "certifications"]
    /\ Forall (fun entry => exists xs, snd entry = VList xs /\ Forall trimmed xs)
              (extract_info text).
Proof.
  intro text. rewrite extract_info_form. split; [reflexivity|].
  repeat constructor; eexists; (split; [reflexivity|]);
    apply option_items_trimmed.
Qed.

(** ** Scenarios *)

(** C9: on the contact line, with a tagger that reports nothing, the audited
    emails are [jane@example.com], the audited phones hold the ten-digit
    number without any prefix, the anonymized text contains both
    placeholders, and the skills extracted from it are Python, SQL and Go. *)
Theorem contact_line_scenario : forall E : Type,
    exists out info,
      result (anonymize_data (@no_spans E) contact_line) = Ok (out, info)
      /\ dict_get info "masked_emails" = Some (VList [txt "jane@example.com"])
      /\ (exists phones p,
             dict_get info "masked_phones" = Some (VList phones)
             /\ In p phones
             /\ p = txt "555-123-4567"
             /\ length (filter isdecimal p) = 10)
      /\ contains out EMAIL_TOKEN = true
      /\ contains out PHONE_TOKEN = true
      /\ dict_get (extract_info out) "skills"
         = Some (VList [txt "Python"; txt "SQL"; txt "Go"]).
Proof.
  intro E. eexists. eexists. split; [vm_compute; reflexivity|].
  split; [reflexivity|]. split.
  - exists [txt "555-123-4567"], (txt "555-123-4567").
    repeat split; try reflexivity. left. reflexivity.
  - repeat split; vm_compute; reflexivity.
Qed.

(** C4: under the header Experience the program extracts nothing, where the
    section as specified holds the two lines of the body. *)
Theorem experience_header_yields_nothing :
  dict_get (extract_info experience_resume) "experience" = Some (VList [])
  /\ Spec.experience experience_resume = [txt "Acme Corp"; txt "Beta Inc"]
  /\ option_map (fun m => group m 1)
                (search IGNORECASE_DOTALL experience_pattern experience_resume)
     = Some None.
Proof. repeat split; vm_compute; reflexivity. Qed.

(** ** The passes of [anonymize_data] *)

Lemma sub_no_match : forall fl r repl text,
    finditer fl r text = [] -> sub fl r repl text = text.
Proof. intros fl r repl text H. unfold sub. rewrite H. reflexivity. Qed.

Section PassOrder.

Variable exn : Type.
Variable nlp : str -> outcome exn (list Ent).
Variable text : str.

Let post_email : str := sub no_flags email_pattern EMAIL_TOKEN text.
Let post_phone : str := sub no_flags phone_pattern PHONE_TOKEN post_email.

Lemma anonymize_data_calls : calls (anonymize_data nlp text) = [post_phone].
Proof.
  unfold anonymize_data, call_nlp, bind, calls.
  fold post_email. fold post_phone.
  destruct (nlp post_phone) as [ents|e]; [|reflexivity].
  destruct (person_names ents); reflexivity.
Qed.

Lemma anonymize_data_ok : forall ents,
    nlp post_phone = Ok ents ->
    exists info,
      result (anonymize_data nlp text) = Ok (entity_pass ents post_phone, info)
      /\ dict_get info "masked_emails"
         = Some (VList (findall0 no_flags email_pattern text))
      /\ dict_get info "masked_phones"
         = Some (VList (phones_flat (findall2 no_flags phone_pattern post_email)))
      /\ dict_get info "masked_name"
         = option_map VStr (hd_error (person_names ents))
      /\ dict_get info "masked_addresses" = Some (VList (location_names ents))
      /\ (keys info = ["masked_emails"; "masked_phones"; "masked_addresses"]
          \/ keys info = ["masked_emails"; "masked_phones"; "masked_addresses";
                          "masked_name"]).
Proof.
  intros ents H. unfold anonymize_data, call_nlp, bind, result, entity_pass.
  fold post_email. fold post_phone. rewrite H.
  destruct (person_names ents) as [|n ns]; eexists;
    (split; [reflexivity|]); repeat split; try reflexivity.
  - left. reflexivity.
  - right. reflexivity.
Qed.

Lemma anonymize_data_raise : forall e,
    nlp post_phone = Raise e ->
    anonymize_data nlp text = ([post_phone], Raise e).
Proof.
  intros e H. unfold anonymize_data, call_nlp, bind.
  fold post_email. fold post_phone. rewrite H. reflexivity.
Qed.

End PassOrder.

(** C7: the phone matcher reads the text produced by the email pass, the
    tagger is called exactly once, on the text produced by the phone pass,
    and the name and the addresses both come from the entities of that one
    call. *)
Theorem passes_in_order :
  forall (exn : Type) (nlp : str -> outcome exn (list Ent)) (text : str),
    let post_email := sub no_flags email_pattern EMAIL_TOKEN text in
    let post_phone := sub no_flags phone_pattern PHONE_TOKEN post_email in
    calls (anonymize_data nlp text) = [post_phone]
    /\ match nlp post_phone with
       | Ok ents =>
           exists info,
             result (anonymize_data nlp text)
             = Ok (entity_pass ents post_phone, info)
             /\ dict_get info "masked_emails"
                = Some (VList (findall0 no_flags email_pattern text))
             /\ dict_get info "masked_phones"
                = Some (VList (phones_flat
                                 (findall2 no_flags phone_pattern post_email)))
             /\ dict_get info "masked_name"
                = option_map VStr (hd_error (person_names ents))
             /\ dict_get info "masked_addresses"
                = Some (VList (location_names ents))
       | Raise e => result (anonymize_data nlp text) = Raise e
       end.
Proof.
  intros exn nlp text post_email post_phone. split.
  - apply anonymize_data_calls.
  - destruct (nlp post_phone) as [ents|e] eqn:H.
    + destruct (anonymize_data_ok nlp text H)
        as [info [H1 [H2 [H3 [H4 [H5 _]]]]]].
      exists info. repeat split; assumption.
    + unfold post_phone, post_email in H.
      rewrite (anonymize_data_raise nlp text H). reflexivity.
Qed.

(** C8: when neither matcher finds anything and the tagger reports no
    entity, the text comes back unchanged and every audit list is empty. *)
Theorem nothing_to_redact :
  forall (exn : Type) (nlp : str -> outcome exn (list Ent)) (text : str),
    findall0 no_flags email_pattern text = [] ->
    findall2 no_flags phone_pattern text = [] ->
    nlp text = Ok [] ->
    anonymize_data nlp text
    = ([text],
       Ok (text, [("masked_emails", VList []); ("masked_phones", VList []);
                  ("masked_addresses", VList [])])).
Proof.
  intros exn nlp text He Hp Hn.
  assert (Se : sub no_flags email_pattern EMAIL_TOKEN text = text).
  { apply sub_no_match. unfold findall0 in He.
    apply map_eq_nil in He. exact He. }
  assert (Sp : sub no_flags phone_pattern PHONE_TOKEN text = text).
  { apply sub_no_match. unfold findall2 in Hp.
    apply map_eq_nil in Hp. exact Hp. }
  unfold anonymize_data, call_nlp, bind.
  rewrite He, Se, Hp, Sp, Hn. reflexivity.
Qed.

Lemma nothing_to_redact_witness :
  anonymize_data (@no_spans unit) (txt "Fluent in French and German")
  = ([txt "Fluent in French and German"],
     Ok (txt "Fluent in French and German",
         [("masked_emails", VList []); ("masked_phones", VList []);
          ("masked_addresses", VList [])])).
Proof.
  apply (@nothing_to_redact unit no_spans (txt "Fluent in French and German")).
  - vm_compute. reflexivity.
  - vm_compute. reflexivity.
  - reflexivity.
Defined.

(** ** Tagger failure *)

(** C3, as the program behaves: when the tagger raises, [anonymize_data]
    has called it once on the text produced by the phone pass and raises the
    same error, and so does [process_resume]; no partial result and no
    degraded-mode mark is produced. *)
Theorem tagger_error_propagates :
  forall (exn : Type) (nlp : str -> outcome exn (list Ent)) (path : Type)
         (pdf docx img : path -> str) (file_path : path)
         (content_type : string) (e : exn),
    let text := decode pdf docx img file_path content_type in
    let post_phone :=
      sub no_flags phone_pattern PHONE_TOKEN
          (sub no_flags email_pattern EMAIL_TOKEN text) in
    nlp post_phone = Raise e ->
    anonymize_data nlp text = ([post_phone], Raise e)
    /\ process_resume nlp pdf docx img file_path content_type
       = ([post_phone], Raise e).
Proof.
  intros exn nlp path pdf docx img file_path content_type e text post_phone H.
  assert (A : anonymize_data nlp text = ([post_phone], Raise e))
    by (apply anonymize_data_raise; exact H).
  split; [exact A|].
  unfold process_resume. fold text. rewrite A. reflexivity.
Qed.

Lemma tagger_error_propagates_witness :
  anonymize_data unavailable (txt "Reach me: jane@example.com")
  = ([txt "Reach me: ***@***.com"], Raise tt)
  /\ process_resume unavailable
       (fun _ : unit => txt "Reach me: jane@example.com")
       (fun _ => []) (fun _ => []) tt "application/pdf"
     = ([txt "Reach me: ***@***.com"], Raise tt).
Proof.
  apply (@tagger_error_propagates unit unavailable unit
           (fun _ : unit => txt "Reach me: jane@example.com")
           (fun _ => []) (fun _ => []) tt "application/pdf" tt).
  reflexivity.
Defined.

(** C3 as stated fails: with an unavailable tagger the redactor returns no
    anonymized text at all. *)
Lemma tagger_failure_gives_no_result :
  result (anonymize_data unavailable (txt "Reach me: jane@example.com"))
  = Raise tt
  /\ ~ (exists out info,
           result (anonymize_data unavailable (txt "Reach me: jane@example.com"))
           = Ok (out, info)).
Proof.
  assert (R : result (anonymize_data unavailable
                                     (txt "Reach me: jane@example.com"))
              = Raise tt) by (vm_compute; reflexivity).
  split; [exact R|].
  intros [out [info H]]. rewrite R in H. discriminate.
Qed.

(** ** The returned record *)

Lemma dict_get_In : forall d k v, dict_get d k = Some v -> In (k, v) d.
Proof.
  induction d as [|[k' v'] d IH]; simpl; intros k v H.
  - discriminate.
  - destruct (String.eqb k' k) eqn:E.
    + apply String.eqb_eq in E. inversion H. subst. left. reflexivity.
    + right. apply IH. exact H.
Qed.

(** C2, as the program behaves: the returned record has the five keys of the
    schema template, bound to the skills, the experience, the anonymized
    text, the certifications and the education; the audit record is merged
    into the intermediate record only and no field of it is returned.  A
    template entry whose internal field is missing is bound to null. *)
Theorem process_resume_output :
  forall (exn : Type) (nlp : str -> outcome exn (list Ent)) (path : Type)
         (pdf docx img : path -> str) (file_path : path)
         (content_type : string),
    match result (anonymize_data nlp (decode pdf docx img file_path content_type)) with
    | Ok (anonymized_text, _) =>
        result (process_resume nlp pdf docx img file_path content_type)
        = Ok (final_record anonymized_text)
    | Raise e =>
        result (process_resume nlp pdf docx img file_path content_type) = Raise e
    end
    /\ (forall combined_data,
           apply_template output_schema_template combined_data
           = [("Skill_Set", dict_get_or_none combined_data "skills");
              ("Experience_Summary", dict_get_or_none combined_data "experience");
              ("Anonymized_Resume_Text",
               dict_get_or_none combined_data "anonymized_resume_text");
              ("Certifications_List",
               dict_get_or_none combined_data "certifications");
              ("Education_Records", dict_get_or_none combined_data "education")])
    /\ apply_template output_schema_template []
       = [("Skill_Set", VNone); ("Experience_Summary", VNone);
          ("Anonymized_Resume_Text", VNone); ("Certifications_List", VNone);
          ("Education_Records", VNone)].
Proof.
  intros exn nlp path pdf docx img file_path content_type.
  split; [|split; [intro; reflexivity | reflexivity]].
  unfold process_resume, final_record.
  set (text := decode pdf docx img file_path content_type).
  unfold anonymize_data, call_nlp, bind, result, ret.
  destruct (nlp _) as [ents|e]; [|reflexivity].
  destruct (person_names ents) as [|n ns]; cbv beta iota zeta delta [snd fst];
    rewrite extract_info_form; reflexivity.
Qed.

(** C2 as stated fails: the audited email is recorded by the redactor but
    no field of the returned record holds it. *)
Lemma audit_record_not_returned :
  exists out info final,
    result (anonymize_data (@no_spans unit) contact_line) = Ok (out, info)
    /\ dict_get info "masked_emails" = Some (VList [txt "jane@example.com"])
    /\ result (process_resume (@no_spans unit) (fun _ : unit => contact_line)
                              (fun _ => []) (fun _ => []) tt "application/pdf")
       = Ok final
    /\ keys final = ["Skill_Set"; "Experience_Summary"; "Anonymized_Resume_Text";
                     "Certifications_List"; "Education_Records"]
    /\ forall k, dict_get final k <> Some (VList [txt "jane@example.com"]).
Proof.
  eexists. eexists. eexists.
  split; [vm_compute; reflexivity|].
  split; [reflexivity|].
  split; [vm_compute; reflexivity|].
  split; [reflexivity|].
  intros k H. apply dict_get_In in H. simpl in H.
  repeat (destruct H as [H|H]; [discriminate H|]). exact H.
Qed.

(** ** Occurrences and [replace] *)

Lemma starts_with_app : forall p x,
    starts_with p x = true <-> exists post, x = p ++ post.
Proof.
  induction p as [|a p IH]; intros x; simpl.
  - split; [intros _; exists x; reflexivity | reflexivity].
  - destruct x as [|b x].
    + split; [discriminate | intros [post H]; discriminate].
    + split.
      * intro H. apply andb_prop in H. destruct H as [Hab Hp].
        apply ch_eqb_eq in Hab. apply IH in Hp. destruct Hp as [post E].
        exists post. subst. reflexivity.
      * intros [post E]. inversion E. subst.
        rewrite ch_eqb_refl. simpl. apply IH. exists post. reflexivity.
Qed.

Lemma contains_occurs : forall x old, contains x old = true <-> Spec.occurs old x.
Proof.
  induction x as [|c t IH]; intros old.
  - simpl. rewrite orb_false_r. rewrite starts_with_app. split.
    + intros [post E]. exists [], post. exact E.
    + intros [pre [post E]]. destruct pre; [|discriminate].
      exists post. exact E.
  - simpl. rewrite orb_true_iff, starts_with_app, IH. split.
    + intros [[post E]|[pre [post E]]].
      * exists [], post. exact E.
      * exists (c :: pre), post. rewrite E. reflexivity.
    + intros [pre [post E]]. destruct pre as [|a pre].
      * left. exists post. exact E.
      * right. inversion E. exists pre, post. reflexivity.
Qed.

Lemma contains_false : forall x old, contains x old = false <-> ~ Spec.occurs old x.
Proof.
  intros x old. rewrite <- contains_occurs.
  destruct (contains x old); split; intro H; try reflexivity; try discriminate.
  exfalso. apply H. reflexivity.
Qed.

Lemma occurs_nil : forall n, Spec.occurs n [] -> n = [].
Proof.
  intros n [pre [post E]]. symmetry in E.
  apply app_eq_nil in E. destruct E as [_ E].
  apply app_eq_nil in E. destruct E as [E _]. exact E.
Qed.

Lemma occurs_in_prefix : forall n a b, Spec.occurs n a -> Spec.occurs n (a ++ b).
Proof.
  intros n a b [pre [post E]]. exists pre, (post ++ b).
  rewrite E. rewrite <- !app_assoc. reflexivity.
Qed.

Lemma occurs_in_suffix : forall n a b, Spec.occurs n b -> Spec.occurs n (a ++ b).
Proof.
  intros n a b [pre [post E]]. exists (a ++ pre), post.
  rewrite E. rewrite <- !app_assoc. reflexivity.
Qed.

(** An occurrence in a concatenation lies in one part or straddles the
    joint. *)
Lemma occurs_app_cases : forall n a b,
    Spec.occurs n (a ++ b) ->
    Spec.occurs n a \/ Spec.occurs n b
    \/ exists n1 n2 a' b',
        n = n1 ++ n2 /\ n1 <> [] /\ n2 <> [] /\ a = a' ++ n1 /\ b = n2 ++ b'.
Proof.
  intros n a b [pre [post E]].
  apply app_eq_app in E. destruct E as [l [[E1 E2]|[E1 E2]]].
  - symmetry in E2. apply app_eq_app in E2.
    destruct E2 as [l2 [[E3 E4]|[E3 E4]]].
    + left. exists pre, l2. rewrite E1, E3. reflexivity.
    + destruct l as [|x l].
      * right. left. exists [], post. simpl in E3. simpl. rewrite E4, E3. reflexivity.
      * destruct l2 as [|y l2].
        -- left. exists pre, []. rewrite E1, E3. rewrite !app_nil_r. reflexivity.
        -- right. right. exists (x :: l), (y :: l2), pre, post.
           repeat split; try assumption; discriminate.
  - right. left. exists l, post. exact E2.
Qed.

(** An occurrence of [n] in a text cut by a placeholder lies on one side of
    it, when [n] holds neither delimiter and is no part of the placeholder. *)
Lemma occurs_around_token : forall n tok o c a b,
    delimited tok o c -> ~ In o n -> ~ In c n -> ~ Spec.occurs n tok ->
    Spec.occurs n (a ++ tok ++ b) ->
    Spec.occurs n a \/ Spec.occurs n b.
Proof.
  intros n tok o c a b [[r1 Ho] [r2 Hc]] No Nc Nt H.
  apply occurs_app_cases in H.
  destruct H as [H|[H|[n1 [n2 [a' [b' [En [N1 [N2 [Ea Eb]]]]]]]]]].
  - left. exact H.
  - apply occurs_app_cases in H.
    destruct H as [H|[H|[n1 [n2 [a' [b' [En [N1 [N2 [Ea Eb]]]]]]]]]].
    + contradiction.
    + right. exact H.
    + exfalso. apply Nc. rewrite En. apply in_or_app. left.
      destruct (exists_last N1) as [m [z Em]]. rewrite Em in Ea.
      rewrite Hc in Ea. rewrite app_assoc in Ea.
      apply app_inj_tail in Ea. destruct Ea as [_ Ez]. subst z.
      rewrite Em. apply in_or_app. right. left. reflexivity.
  - exfalso. apply No. rewrite En. apply in_or_app. right.
    destruct n2 as [|z n2]; [contradiction N2; reflexivity|].
    rewrite Ho in Eb. simpl in Eb. inversion Eb. left. reflexivity.
Qed.

Lemma replace_scan_skip : forall old new n x,
    replace_scan old new n x = replace_scan old new 0 (skipn n x).
Proof.
  intros old new n x. revert n.
  induction x as [|c t IH]; intros n.
  - destruct n; reflexivity.
  - destruct n as [|n]; [reflexivity|]. simpl replace_scan at 1.
    rewrite IH. reflexivity.
Qed.

Lemma replace_scan_hit : forall old new post,
    old <> [] ->
    replace_scan old new 0 (old ++ post) = new ++ replace_scan old new 0 post.
Proof.
  intros old new post H. destruct old as [|a o]; [contradiction H; reflexivity|].
  assert (S : starts_with (a :: o) ((a :: o) ++ post) = true)
    by (apply starts_with_app; exists post; reflexivity).
  change ((a :: o) ++ post) with (a :: (o ++ post)) in *.
  unfold replace_scan at 1; fold replace_scan. rewrite S.
  rewrite replace_scan_skip.
  replace (length (a :: o) - 1) with (length o) by (simpl; lia).
  rewrite skipn_app, skipn_all, Nat.sub_diag. reflexivity.
Qed.

Lemma replace_scan_miss : forall old new c t,
    starts_with old (c :: t) = false ->
    replace_scan old new 0 (c :: t) = c :: replace_scan old new 0 t.
Proof.
  intros old new c t H. unfold replace_scan at 1; fold replace_scan.
  rewrite H. reflexivity.
Qed.

Lemma not_occurs_cons : forall old c t,
    starts_with old (c :: t) = false -> ~ Spec.occurs old t ->
    ~ Spec.occurs old (c :: t).
Proof.
  intros old c t S N [pre [post E]]. destruct pre as [|a pre].
  - assert (T : starts_with old (c :: t) = true)
      by (apply starts_with_app; exists post; exact E).
    rewrite T in S. discriminate.
  - inversion E. apply N. exists pre, post. assumption.
Qed.

Lemma replaced_all_cons : forall old new c t out,
    starts_with old (c :: t) = false ->
    Spec.replaced_all old new t out ->
    Spec.replaced_all old new (c :: t) (c :: out).
Proof.
  intros old new c t out S R. inversion R as [x N|pre post out' Min R']; subst.
  - apply Spec.ra_none. apply not_occurs_cons; assumption.
  - change (c :: pre ++ old ++ post) with ((c :: pre) ++ old ++ post).
    change (c :: pre ++ new ++ out') with ((c :: pre) ++ new ++ out').
    apply Spec.ra_next; [|exact R'].
    intros pre' post' E. destruct pre' as [|a pre'].
    + exfalso.
      assert (T : starts_with old (c :: pre ++ old ++ post) = true)
        by (apply starts_with_app; exists post'; exact E).
      rewrite T in S. discriminate.
    + inversion E. simpl. apply le_n_S. eapply Min. eassumption.
Qed.

(** [replace] replaces every occurrence of a non-empty [old]. *)
Lemma replace_replaces_all : forall old new x,
    old <> [] -> Spec.replaced_all old new x (replace x old new).
Proof.
  intros old new x Hne.
  assert (E : replace x old new = replace_scan old new 0 x)
    by (destruct old; [contradiction Hne; reflexivity | reflexivity]).
  rewrite E. clear E.
  remember (length x) as len eqn:L.
  revert x L. induction len as [len IH] using lt_wf_ind. intros x L.
  destruct x as [|c t].
  - simpl. apply Spec.ra_none. intro O. apply occurs_nil in O. contradiction.
  - destruct (starts_with old (c :: t)) eqn:S.
    + apply starts_with_app in S. destruct S as [post S]. rewrite S.
      rewrite replace_scan_hit by exact Hne.
      apply (@Spec.ra_next old new [] post).
      * intros pre' post' _. apply Nat.le_0_l.
      * apply (IH (length post)); [|reflexivity].
        rewrite L, S, length_app. destruct old; [contradiction Hne; reflexivity|].
        simpl. lia.
    + rewrite replace_scan_miss by exact S.
      apply replaced_all_cons; [exact S|].
      apply (IH (length t)); [|reflexivity]. rewrite L. simpl. lia.
Qed.

(** ** The candidate name *)

Lemma person_names_first : forall ents_before e ents_after,
    forallb (fun x => negb (String.eqb (ent_label x) "PERSON")) ents_before = true ->
    ent_label e = "PERSON" ->
    person_names (ents_before ++ e :: ents_after)
    = ent_text e :: person_names ents_after.
Proof.
  intros ents_before e ents_after Hb He. unfold person_names.
  induction ents_before as [|x l IH]; simpl.
  - rewrite He. reflexivity.
  - simpl in Hb. apply andb_prop in Hb. destruct Hb as [Hx Hl].
    apply negb_true_iff in Hx. rewrite Hx. apply IH. exact Hl.
Qed.

(** C6: when the tagger reports a PERSON entity, the first one in document
    order is the candidate: every occurrence of its text in the text produced
    by the phone pass is replaced by the name placeholder (the addresses are
    replaced afterwards), and its text is recorded as the masked name. *)
Theorem first_person_is_candidate :
  forall (exn : Type) (nlp : str -> outcome exn (list Ent)) (text : str)
         (ents_before : list Ent) (e : Ent) (ents_after : list Ent),
    let post_phone :=
      sub no_flags phone_pattern PHONE_TOKEN
          (sub no_flags email_pattern EMAIL_TOKEN text) in
    let ents := ents_before ++ e :: ents_after in
    nlp post_phone = Ok ents ->
    forallb (fun x => negb (String.eqb (ent_label x) "PERSON")) ents_before = true ->
    ent_label e = "PERSON" ->
    exists info,
      result (anonymize_data nlp text)
      = Ok (replace_addresses (location_names ents)
                              (replace post_phone (ent_text e) NAME_TOKEN),
            info)
      /\ dict_get info "masked_name" = Some (VStr (ent_text e))
      /\ (ent_text e <> [] ->
          Spec.replaced_all (ent_text e) NAME_TOKEN post_phone
                            (replace post_phone (ent_text e) NAME_TOKEN)).
Proof.
  intros exn nlp text ents_before e ents_after post_phone ents Hn Hb He.
  destruct (anonymize_data_ok nlp text Hn) as [info [H1 [_ [_ [H4 _]]]]].
  exists info.
  unfold entity_pass in H1. fold post_phone in H1.
  unfold ents in H1, H4.
  rewrite (person_names_first _ _ _ Hb He) in H1, H4.
  repeat split.
  - exact H1.
  - exact H4.
  - intro Hne. apply replace_replaces_all. exact Hne.
Qed.

Lemma first_person_is_candidate_witness :
  exists info,
    result (anonymize_data jane_tagger jane_text)
    = Ok (txt "[CANDIDATE NAME], engineer at Acme. [CANDIDATE NAME] led the team.",
          info)
    /\ dict_get info "masked_name" = Some (VStr (txt "Jane Doe"))
    /\ (txt "Jane Doe" <> [] ->
        Spec.replaced_all (txt "Jane Doe") NAME_TOKEN jane_text
          (txt "[CANDIDATE NAME], engineer at Acme. [CANDIDATE NAME] led the team.")).
Proof.
  apply (@first_person_is_candidate unit jane_tagger jane_text
           [ {| ent_text := txt "Acme"; ent_label := "ORG" |} ]
           {| ent_text := txt "Jane Doe"; ent_label := "PERSON" |}
           [ {| ent_text := txt "Doe"; ent_label := "PERSON" |} ]).
  - reflexivity.
  - reflexivity.
  - reflexivity.
Defined.

(** ** Strings that cannot survive a replacement *)

Lemma maskable_spec : forall n tok,
    maskable n tok = true ->
    n <> [] /\ ~ In "["%char n /\ ~ In "]"%char n /\ ~ Spec.occurs n tok.
Proof.
  intros n tok H. unfold maskable in H.
  apply andb_prop in H. destruct H as [H H3].
  apply andb_prop in H. destruct H as [H1 H2].
  apply negb_true_iff in H2. apply negb_true_iff in H3.
  assert (B : forall c, In c n -> is_bracket c = false).
  { intros c Hc. destruct (is_bracket c) eqn:E; [|reflexivity].
    assert (X : existsb is_bracket n = true)
      by (apply existsb_exists; exists c; split; assumption).
    rewrite X in H2. discriminate. }
  repeat split.
  - apply nonempty_true. exact H1.
  - intro Hc. apply B in Hc. discriminate.
  - intro Hc. apply B in Hc. discriminate.
  - apply contains_false. exact H3.
Qed.

Lemma NAME_TOKEN_delimited : delimited NAME_TOKEN "["%char "]"%char.
Proof.
  split; [eexists; reflexivity|]. exists (txt "[CANDIDATE NAME"). reflexivity.
Qed.

Lemma ADDRESS_TOKEN_delimited : delimited ADDRESS_TOKEN "["%char "]"%char.
Proof. split; [eexists; reflexivity|]. exists (txt "[ADDRESS"). reflexivity. Qed.

Lemma replace_nonempty : forall old new x,
    old <> [] -> replace x old new = replace_scan old new 0 x.
Proof.
  intros old new x H. destruct old; [contradiction H; reflexivity | reflexivity].
Qed.

Section Replacement.

Variables (n new : str) (o c : ascii).
Hypothesis Hnew : delimited new o c.
Hypothesis Hne : n <> [].
Hypothesis Ho : ~ In o n.
Hypothesis Hc : ~ In c n.
Hypothesis Hin : ~ Spec.occurs n new.

(** Replacing a non-empty [old] brings in no occurrence of [n]. *)
Lemma replace_scan_no_new_occurrence : forall old x pre,
    old <> [] ->
    Spec.occurs n (pre ++ replace_scan old new 0 x) -> Spec.occurs n (pre ++ x).
Proof.
  intros old x pre Hold. remember (length x) as len eqn:L.
  revert x pre L. induction len as [len IH] using lt_wf_ind. intros x pre L H.
  destruct x as [|a t]; [exact H|].
  destruct (starts_with old (a :: t)) eqn:S.
  - apply starts_with_app in S. destruct S as [post S]. rewrite S in *.
    rewrite replace_scan_hit in H by exact Hold.
    apply (occurs_around_token _ _ Hnew Ho Hc Hin) in H.
    destruct H as [H|H].
    + apply occurs_in_prefix. exact H.
    + apply occurs_in_suffix. apply occurs_in_suffix.
      apply (IH (length post)) with (pre := @nil ascii).
      * rewrite L, length_app. destruct old; [contradiction Hold; reflexivity|].
        simpl. lia.
      * reflexivity.
      * exact H.
  - rewrite replace_scan_miss in H by exact S.
    change (pre ++ a :: replace_scan old new 0 t)
      with (pre ++ [a] ++ replace_scan old new 0 t) in H.
    rewrite app_assoc in H.
    apply (IH (length t)) in H.
    + rewrite <- app_assoc in H. exact H.
    + rewrite L. simpl. lia.
    + reflexivity.
Qed.

(** Nor does the replacement of the empty string. *)
Lemma interleave_no_new_occurrence : forall x pre,
    Spec.occurs n (pre ++ new ++ flat_map (fun a => a :: new) x) ->
    Spec.occurs n pre \/ Spec.occurs n x.
Proof.
  induction x as [|a t IH]; intros pre H.
  - apply (occurs_around_token _ _ Hnew Ho Hc Hin) in H. exact H.
  - simpl in H.
    apply (occurs_around_token _ _ Hnew Ho Hc Hin) in H.
    destruct H as [H|H]; [left; exact H|].
    change (a :: new ++ flat_map (fun a0 => a0 :: new) t)
      with ([a] ++ new ++ flat_map (fun a0 => a0 :: new) t) in H.
    apply IH in H. right. destruct H as [H|H].
    + apply (occurs_in_prefix t) in H. exact H.
    + apply (occurs_in_suffix [a]) in H. exact H.
Qed.

Lemma replace_keeps_absent : forall x old,
    ~ Spec.occurs n x -> ~ Spec.occurs n (replace x old new).
Proof.
  intros x old N H. apply N. destruct old as [|b old].
  - unfold replace in H.
    apply (interleave_no_new_occurrence x []) in H.
    destruct H as [H|H]; [|exact H].
    apply occurs_nil in H. contradiction.
  - unfold replace in H.
    apply (replace_scan_no_new_occurrence (old := b :: old) x []) in H.
    + exact H.
    + discriminate.
Qed.

(** After [n] itself has been replaced, no occurrence of it is left. *)
Lemma replace_scan_absent : forall x g,
    (forall g1 g2, g = g1 ++ g2 -> g2 <> [] -> starts_with n (g2 ++ x) = false) ->
    ~ Spec.occurs n (g ++ replace_scan n new 0 x).
Proof.
  intros x. remember (length x) as len eqn:L.
  revert x L. induction len as [len IH] using lt_wf_ind. intros x L g Inv.
  assert (G : ~ Spec.occurs n g).
  { intros [pre [post E]].
    assert (F : starts_with n ((n ++ post) ++ x) = false).
    { apply (Inv pre (n ++ post) E).
      destruct n; [contradiction Hne; reflexivity | discriminate]. }
    assert (T : starts_with n ((n ++ post) ++ x) = true).
    { apply starts_with_app. exists (post ++ x). rewrite app_assoc. reflexivity. }
    rewrite T in F. discriminate. }
  destruct x as [|a t].
  - simpl. rewrite app_nil_r. exact G.
  - destruct (starts_with n (a :: t)) eqn:S.
    + apply starts_with_app in S. destruct S as [post S]. rewrite S.
      rewrite replace_scan_hit by exact Hne.
      intro H. apply (occurs_around_token _ _ Hnew Ho Hc Hin) in H.
      destruct H as [H|H]; [exact (G H)|].
      apply (IH (length post)) with (x := post) (g := @nil ascii).
      * rewrite L, S, length_app. destruct n; [contradiction Hne; reflexivity|].
        simpl. lia.
      * reflexivity.
      * intros g1 g2 E N2. symmetry in E. apply app_eq_nil in E.
        destruct E as [_ E]. contradiction.
      * exact H.
    + rewrite replace_scan_miss by exact S.
      change (g ++ a :: replace_scan n new 0 t)
        with (g ++ [a] ++ replace_scan n new 0 t).
      rewrite app_assoc.
      apply (IH (length t)).
      * rewrite L. simpl. lia.
      * reflexivity.
      * intros g1 g2 E N2.
        destruct (exists_last N2) as [m [z Em]]. rewrite Em in E.
        rewrite app_assoc in E. apply app_inj_tail in E.
        destruct E as [E Ez]. subst z. rewrite Em.
        rewrite <- app_assoc. simpl.
        destruct m as [|y m]; [exact S|].
        apply (Inv g1 (y :: m) E). discriminate.
Qed.

Lemma replace_absent : forall x, ~ Spec.occurs n (replace x n new).
Proof.
  intro x. rewrite (replace_nonempty new x Hne).
  apply (replace_scan_absent x (g := [])).
  intros g1 g2 E N2. symmetry in E. apply app_eq_nil in E.
  destruct E as [_ E]. contradiction.
Qed.

End Replacement.

Lemma replace_addresses_keeps_absent : forall n,
    maskable n ADDRESS_TOKEN = true ->
    forall addresses x,
      ~ Spec.occurs n x -> ~ Spec.occurs n (replace_addresses addresses x).
Proof.
  intros n M. apply maskable_spec in M. destruct M as [M1 [M2 [M3 M4]]].
  induction addresses as [|a l IH]; intros x N.
  - exact N.
  - unfold replace_addresses. simpl. apply IH.
    apply (replace_keeps_absent ADDRESS_TOKEN_delimited M1 M2 M3 M4). exact N.
Qed.

(** C1, as the program guarantees it: the recorded candidate name does not
    occur in the returned text when it is not empty, holds no square bracket
    and is no part of either placeholder, and the same holds for every
    recorded address with respect to the address placeholder.  Recorded
    emails and phones carry no such guarantee. *)
Theorem masked_entities_do_not_leak :
  forall (exn : Type) (nlp : str -> outcome exn (list Ent)) (text out : str)
         (info : dict),
    result (anonymize_data nlp text) = Ok (out, info) ->
    (forall n,
        dict_get info "masked_name" = Some (VStr n) ->
        maskable n NAME_TOKEN = true -> maskable n ADDRESS_TOKEN = true ->
        contains out n = false)
    /\ (forall addresses a,
           dict_get info "masked_addresses" = Some (VList addresses) ->
           In a addresses ->
           maskable a ADDRESS_TOKEN = true ->
           contains out a = false).
Proof.
  intros exn nlp text out info H.
  destruct (nlp (sub no_flags phone_pattern PHONE_TOKEN
                     (sub no_flags email_pattern EMAIL_TOKEN text)))
    as [ents|e] eqn:Hn.
  - destruct (anonymize_data_ok nlp text Hn) as [info' [H1 [_ [_ [H4 [H5 _]]]]]].
    rewrite H1 in H. inversion H. subst out info'. clear H. split.
    + intros n Hname M1 M2. rewrite H4 in Hname.
      apply contains_false. unfold entity_pass.
      destruct (person_names ents) as [|m ms]; simpl in Hname; [discriminate|].
      inversion Hname. subst m.
      apply replace_addresses_keeps_absent; [exact M2|].
      apply maskable_spec in M1. destruct M1 as [N1 [N2 [N3 N4]]].
      apply (replace_absent NAME_TOKEN_delimited N1 N2 N3 N4).
    + intros addresses a Ha Hin M. rewrite H5 in Ha. inversion Ha. subst addresses.
      apply contains_false. unfold entity_pass.
      apply in_split in Hin. destruct Hin as [l1 [l2 El]]. rewrite El.
      unfold replace_addresses. rewrite fold_left_app. simpl.
      apply (replace_addresses_keeps_absent M l2).
      apply maskable_spec in M. destruct M as [N1 [N2 [N3 N4]]].
      apply (replace_absent ADDRESS_TOKEN_delimited N1 N2 N3 N4).
  - rewrite (anonymize_data_raise nlp text Hn) in H. discriminate.
Qed.

Lemma masked_entities_do_not_leak_witness :
  contains paris_out (txt "Jane Doe") = false
  /\ contains paris_out (txt "Paris") = false
  /\ contains paris_out (txt "Lyon") = false.
Proof.
  assert (R : result (anonymize_data paris_tagger paris_text)
              = Ok (paris_out, paris_info)) by (vm_compute; reflexivity).
  destruct (@masked_entities_do_not_leak unit paris_tagger paris_text
              paris_out paris_info R) as [Hname Haddr].
  split; [|split].
  - apply Hname; reflexivity.
  - apply (Haddr [txt "Paris"; txt "Lyon"]).
    + reflexivity.
    + left. reflexivity.
    + reflexivity.
  - apply (Haddr [txt "Paris"; txt "Lyon"]).
    + reflexivity.
    + right. left. reflexivity.
    + reflexivity.
Defined.

(** C1 as stated fails for each of the three fields: an email and a phone
    number recorded from one place remain where the matcher rejects them
    (before an underscore, after a letter), and a name that is part of the
    placeholder comes back with it. *)
Lemma recorded_strings_can_remain :
  (exists out info,
      result (anonymize_data (@no_spans unit)
                (txt "jane@example.com (was jane@example.com_old)"))
      = Ok (out, info)
      /\ dict_get info "masked_emails" = Some (VList [txt "jane@example.com"])
      /\ contains out (txt "jane@example.com") = true)
  /\ (exists out info,
         result (anonymize_data (@no_spans unit)
                   (txt "Call 5551234567, ref5551234567"))
         = Ok (out, info)
         /\ dict_get info "masked_phones" = Some (VList [txt "5551234567"])
         /\ contains out (txt "5551234567") = true)
  /\ (exists out info,
         result (anonymize_data ida_tagger (txt "CANDIDATE: IDA")) = Ok (out, info)
         /\ dict_get info "masked_name" = Some (VStr (txt "IDA"))
         /\ contains out (txt "IDA") = true).
Proof.
  split; [|split]; eexists; eexists;
    (split; [vm_compute; reflexivity|]); split; vm_compute; reflexivity.
Qed.

(** ** The section patterns *)

Lemma lit_ok_newline : forall c, lit_ok IGNORECASE_DOTALL newline c = ch_eqb c newline.
Proof. intros c. destruct c as [[] [] [] [] [] [] [] []]; reflexivity. Qed.

Lemma cset_colon_space : forall c,
    cset_ok IGNORECASE_DOTALL [SChar ":"%char; SSpace] c = Spec.is_colon_space c.
Proof. intros c. destruct c as [[] [] [] [] [] [] [] []]; reflexivity. Qed.

Lemma orelse_some : forall (a b : option mstate),
    a <> None -> match a with Some m => Some m | None => b end = a.
Proof. intros [m|] b H; [reflexivity | contradiction H; reflexivity]. Qed.

(** A run of literal characters matches a case-insensitive prefix. *)
Lemma mt_lits : forall kw bef x cs k,
    mt IGNORECASE_DOTALL (lits kw) {| before := bef; rest := x; caps := cs |} k
    = if Spec.starts_with_ci kw x
      then k {| before := rev (firstn (length kw) x) ++ bef;
                rest := skipn (length kw) x; caps := cs |}
      else None.
Proof.
  induction kw as [|a kw IH]; intros bef x cs k.
  - reflexivity.
  - destruct x as [|b x]; [reflexivity|].
    simpl lits. simpl mt. unfold one. simpl rest.
    unfold lit_ok. simpl ignorecase. cbv iota.
    simpl Spec.starts_with_ci.
    destruct (ch_eqb (lower b) (lower a)); [|reflexivity].
    simpl andb. rewrite IH. simpl.
    destruct (Spec.starts_with_ci kw x); [|reflexivity].
    rewrite <- app_assoc. reflexivity.
Qed.

Lemma rep_loop_0 : forall body greedy lo k cnt st,
    rep_loop body greedy lo k 0 cnt st = if (lo <=? cnt)%nat then k st else None.
Proof. reflexivity. Qed.

Lemma rep_loop_S : forall body greedy lo k b cnt st,
    rep_loop body greedy lo k (S b) cnt st
    = if greedy then
        match body st (fun st1 => if (pos st <? pos st1)%nat
                                  then rep_loop body greedy lo k b (S cnt) st1
                                  else None) with
        | Some m => Some m
        | None => if (lo <=? cnt)%nat then k st else None
        end
      else
        match (if (lo <=? cnt)%nat then k st else None) with
        | Some m => Some m
        | None => body st (fun st1 => if (pos st <? pos st1)%nat
                                      then rep_loop body greedy lo k b (S cnt) st1
                                      else None)
        end.
Proof. reflexivity. Qed.

(** A greedy run over a character set, before a continuation that cannot
    fail, passes over every character of the set. *)
Lemma greedy_run : forall body p k,
    (forall st k', body st k' = one p st k') ->
    (forall st, k st <> None) ->
    forall budget x bef cs cnt,
      length x <= budget ->
      exists run,
        x = run ++ skip_set p x
        /\ rep_loop body true 0 k budget cnt
                    {| before := bef; rest := x; caps := cs |}
           = k {| before := rev run ++ bef; rest := skip_set p x; caps := cs |}.
Proof.
  intros body p k Hb Tot. induction budget as [|b IH]; intros x bef cs cnt L.
  - destruct x; [|simpl in L; lia]. exists []. split; reflexivity.
  - destruct x as [|c t].
    + exists []. split; [reflexivity|]. rewrite rep_loop_S, Hb. reflexivity.
    + rewrite rep_loop_S, Hb. unfold one. cbn [before rest caps]. simpl skip_set.
      destruct (p c) eqn:E.
      * destruct (IH t (c :: bef) cs (S cnt)) as [run [Er Eq]];
          [simpl in L; lia|].
        exists (c :: run). split; [simpl; f_equal; exact Er|].
        unfold pos. simpl before. simpl length.
        replace (length bef <? S (length bef))%nat with true
          by (symmetry; apply Nat.ltb_lt; lia).
        rewrite Eq. rewrite orelse_some by apply Tot.
        simpl rev. rewrite <- app_assoc. reflexivity.
      * exists []. split; reflexivity.
Qed.

Lemma lazy_run : forall body k,
    (forall st k', body st k' = one (fun _ => true) st k') ->
    forall budget x bef cs cnt,
      length x <= budget ->
      rep_loop body false 0 k budget cnt {| before := bef; rest := x; caps := cs |}
      = first_success k bef x cs.
Proof.
  intros body k Hb. induction budget as [|b IH]; intros x bef cs cnt L.
  - destruct x; [|simpl in L; lia]. rewrite rep_loop_0. simpl.
    destruct (k _); reflexivity.
  - rewrite rep_loop_S. cbv iota. simpl Nat.leb. cbv iota.
    destruct x as [|c t]; simpl first_success.
    + destruct (k _); [reflexivity|]. rewrite Hb. reflexivity.
    + destruct (k _); [reflexivity|]. rewrite Hb. unfold one.
      cbn [before rest caps]. unfold pos. cbn [before length].
      replace (length bef <? S (length bef))%nat with true
        by (symmetry; apply Nat.ltb_lt; lia).
      apply IH. simpl in L. lia.
Qed.

Lemma ch_eqb_sym : forall a b, ch_eqb a b = ch_eqb b a.
Proof. intros a b. unfold ch_eqb. apply Ascii.eqb_sym. Qed.

Lemma newline_matches : matches_text (Lit newline) [newline].
Proof.
  intros bef x cs k. simpl mt. unfold one. cbn [before rest caps].
  destruct x as [|c t]; [reflexivity|].
  rewrite lit_ok_newline. cbn [starts_with]. rewrite andb_true_r.
  rewrite (ch_eqb_sym newline c).
  destruct (ch_eqb c newline) eqn:E; [|reflexivity].
  apply ch_eqb_eq in E. subst c. reflexivity.
Qed.

Lemma blank_line_matches : matches_text blank_line [newline; newline].
Proof.
  intros bef x cs k. unfold blank_line. simpl mt. unfold one. cbn [before rest caps].
  destruct x as [|c t]; [reflexivity|].
  rewrite lit_ok_newline. cbn [starts_with].
  rewrite (ch_eqb_sym newline c).
  destruct (ch_eqb c newline) eqn:E; [|reflexivity].
  apply ch_eqb_eq in E. subst c. cbn [before rest caps].
  destruct t as [|d t]; [reflexivity|].
  rewrite lit_ok_newline. rewrite andb_true_r. rewrite (ch_eqb_sym newline d).
  destruct (ch_eqb d newline) eqn:E; [|reflexivity].
  apply ch_eqb_eq in E. subst d. reflexivity.
Qed.

(** The closing group [(END|$)] succeeds exactly where the capture stops and
    leaves the earlier groups as they are. *)
Lemma closing_group : forall r stop,
    matches_text r stop ->
    forall bef x cs,
      if stop_here stop x
      then exists bef' x' g,
          mt IGNORECASE_DOTALL (Grp 2 (Alt r Eos)) {| before := bef; rest := x; caps := cs |} Some
          = Some {| before := bef'; rest := x'; caps := (2, g) :: cs |}
      else mt IGNORECASE_DOTALL (Grp 2 (Alt r Eos)) {| before := bef; rest := x; caps := cs |} Some
           = None.
Proof.
  intros r stop Hr bef x cs. unfold stop_here. simpl mt. rewrite Hr.
  destruct (starts_with stop x).
  - simpl. eexists. eexists. eexists. unfold set_cap. cbn [before rest caps].
    reflexivity.
  - simpl. unfold at_end. cbn [before rest caps].
    change (match x with [] => true | [c] => ch_eqb c newline | c :: _ :: _ => false end)
      with (at_end_of x).
    destruct (at_end_of x).
    + eexists. eexists. eexists. unfold set_cap. cbn [before rest caps].
      reflexivity.
    + reflexivity.
Qed.

Lemma skip_set_colon_space : forall x,
    skip_set (cset_ok IGNORECASE_DOTALL [SChar ":"%char; SSpace]) x = Spec.skip_colon_space x.
Proof.
  induction x as [|c t IH]; [reflexivity|].
  cbn [skip_set Spec.skip_colon_space]. rewrite cset_colon_space, IH. reflexivity.
Qed.

Lemma get_cap_1_after_2 : forall g cs, get_cap 1 ((2, g) :: cs) = get_cap 1 cs.
Proof. reflexivity. Qed.

(** The lazy capture followed by the closing group: the capture is the text
    passed so far, up to the first position at which the closing group
    matches. *)
Lemma capture_first_success : forall r stop,
    matches_text r stop ->
    forall bef0 x0 cs x done,
      x0 = done ++ x ->
      exists st',
        first_success
          (fun st1 =>
             mt IGNORECASE_DOTALL (Grp 2 (Alt r Eos))
                (set_cap 1 (firstn (pos st1 - length bef0) x0) st1) Some)
          (rev done ++ bef0) x cs = Some st'
        /\ get_cap 1 (caps st') = Some (done ++ capture_until stop x).
Proof.
  intros r stop Hr bef0 x0 cs x. induction x as [|c t IH]; intros done E.
  - cbn [first_success]. unfold set_cap, pos. cbn [before rest caps].
    match goal with
    | |- context [mt IGNORECASE_DOTALL _ {| before := ?b; rest := ?y; caps := ?c |} Some] =>
        pose proof (closing_group Hr b y c) as C
    end.
    assert (S : stop_here stop [] = true)
      by (unfold stop_here; apply orb_true_r).
    rewrite S in C. destruct C as [bef' [x' [g C]]]. rewrite C.
    eexists. split; [reflexivity|]. cbn [caps]. rewrite get_cap_1_after_2.
    cbn [get_cap Nat.eqb]. f_equal.
    rewrite length_app, length_rev, Nat.add_sub, E.
    rewrite firstn_app, firstn_all, Nat.sub_diag. cbn [capture_until].
    rewrite S. reflexivity.
  - cbn [first_success]. unfold set_cap, pos. cbn [before rest caps].
    match goal with
    | |- context [mt IGNORECASE_DOTALL _ {| before := ?b; rest := ?y; caps := ?c0 |} Some] =>
        pose proof (closing_group Hr b y c0) as C
    end.
    cbn [capture_until].
    destruct (stop_here stop (c :: t)) eqn:S.
    + destruct C as [bef' [x' [g C]]]. rewrite C.
      eexists. split; [reflexivity|]. cbn [caps]. rewrite get_cap_1_after_2.
      cbn [get_cap Nat.eqb]. f_equal.
      rewrite length_app, length_rev, Nat.add_sub, E.
      rewrite firstn_app, firstn_all, Nat.sub_diag. reflexivity.
    + rewrite C.
      destruct (IH (done ++ [c])) as [st' [F G]].
      { rewrite E, <- app_assoc. reflexivity. }
      rewrite rev_app_distr in F. simpl in F.
      unfold set_cap, pos in F. cbn [before rest caps] in F.
      exists st'. split; [exact F|]. rewrite G, <- app_assoc. reflexivity.
Qed.

(** The tail of a section pattern always matches; its first group is the
    text after the colons and whitespace, up to the terminator. *)
Lemma section_tail_match : forall r stop,
    matches_text r stop ->
    forall bef x cs,
      exists st',
        mt IGNORECASE_DOTALL (section_tail r) {| before := bef; rest := x; caps := cs |} Some
        = Some st'
        /\ get_cap 1 (caps st')
           = Some (capture_until stop (Spec.skip_colon_space x)).
Proof.
  intros r stop Hr bef x cs.
  assert (G : forall bef0 x0 cs0,
             exists st',
               mt IGNORECASE_DOTALL (Grp 1 (star_lazy Dot) ;; Grp 2 (Alt r Eos))%re
                  {| before := bef0; rest := x0; caps := cs0 |} Some = Some st'
               /\ get_cap 1 (caps st') = Some (capture_until stop x0)).
  { intros bef0 x0 cs0.
    change (mt IGNORECASE_DOTALL (Grp 1 (star_lazy Dot) ;; Grp 2 (Alt r Eos))%re
               {| before := bef0; rest := x0; caps := cs0 |} Some)
      with (rep_loop (mt IGNORECASE_DOTALL Dot) false 0
              (fun st1 =>
                 mt IGNORECASE_DOTALL (Grp 2 (Alt r Eos))
                    (set_cap 1 (firstn (pos st1 - length bef0) x0) st1) Some)
              (length x0) 0 {| before := bef0; rest := x0; caps := cs0 |}).
    rewrite lazy_run; [|intros; reflexivity|apply le_n].
    apply (capture_first_success Hr bef0 (x0 := x0) cs0 x0 []). reflexivity. }
  unfold section_tail.
  change (mt IGNORECASE_DOTALL (star colon_space ;; Grp 1 (star_lazy Dot) ;; Grp 2 (Alt r Eos))%re
             {| before := bef; rest := x; caps := cs |} Some)
    with (rep_loop (mt IGNORECASE_DOTALL colon_space) true 0
            (fun st1 => mt IGNORECASE_DOTALL (Grp 1 (star_lazy Dot) ;; Grp 2 (Alt r Eos))%re st1 Some)
            (length x) 0 {| before := bef; rest := x; caps := cs |}).
  assert (Tot : forall st,
             (fun st1 => mt IGNORECASE_DOTALL (Grp 1 (star_lazy Dot) ;; Grp 2 (Alt r Eos))%re
                            st1 Some) st <> None).
  { intros [b0 x0 c0] N. destruct (G b0 x0 c0) as [st' [F _]].
    cbv beta in N. rewrite F in N. discriminate. }
  destruct (@greedy_run (mt IGNORECASE_DOTALL colon_space)
              (cset_ok IGNORECASE_DOTALL [SChar ":"%char; SSpace]) _
              (fun st k' => eq_refl) Tot (length x) x bef cs 0 (le_n _))
    as [run [Er Eq]].
  rewrite Eq. rewrite skip_set_colon_space. apply G.
Qed.

(** ** Items of a capture *)

Lemma stripped_items_items : forall sep x, stripped_items sep x = Spec.items sep x.
Proof.
  intros sep x. unfold stripped_items, Spec.items.
  induction (split sep x) as [|w l IH]; [reflexivity|].
  simpl. destruct (nonempty (strip w)); simpl; rewrite IH; reflexivity.
Qed.

Lemma split_not_nil : forall sep x, split sep x <> [].
Proof.
  intros sep x. destruct x as [|c t]; simpl; [discriminate|].
  destruct (ch_eqb c sep); [discriminate|].
  destruct (split sep t); discriminate.
Qed.

Lemma all_space_cons : forall c ws,
    all_space (c :: ws) <-> isspace c = true /\ all_space ws.
Proof. intros c ws. unfold all_space. simpl. apply andb_true_iff. Qed.

Lemma strip_all_space : forall ws, all_space ws -> strip ws = [].
Proof. intros ws H. unfold strip. rewrite lstrip_all_space by exact H. reflexivity. Qed.

Lemma lstrip_app_r : forall x y, lstrip x <> [] -> lstrip (x ++ y) = lstrip x ++ y.
Proof.
  induction x as [|c t IH]; intros y H; simpl in *.
  - contradiction H. reflexivity.
  - destruct (isspace c); [apply IH; exact H | reflexivity].
Qed.

Lemma lstrip_nil_all_space : forall x, lstrip x = [] -> all_space x.
Proof.
  induction x as [|c t IH]; intro H; [reflexivity|].
  simpl in H. destruct (isspace c) eqn:E; [|discriminate].
  apply all_space_cons. split; [exact E | apply IH; exact H].
Qed.

Lemma strip_app_space : forall x ws, all_space ws -> strip (x ++ ws) = strip x.
Proof.
  intros x ws H. unfold strip. destruct (lstrip x) as [|c t] eqn:E.
  - rewrite lstrip_all_space; [reflexivity|].
    apply all_space_app; [apply lstrip_nil_all_space; exact E | exact H].
  - rewrite lstrip_app_r by (rewrite E; discriminate).
    rewrite E. apply rstrip_app_space. exact H.
Qed.

Lemma strip_space_cons : forall c x, isspace c = true -> strip (c :: x) = strip x.
Proof. intros c x H. unfold strip. simpl. rewrite H. reflexivity. Qed.

(** Whitespace in front of a capture adds no item. *)
Lemma items_space_app : forall sep ws x,
    all_space ws -> Spec.items sep (ws ++ x) = Spec.items sep x.
Proof.
  intros sep ws x. induction ws as [|c ws IH]; intro H; [reflexivity|].
  apply all_space_cons in H. destruct H as [Hc Hws].
  specialize (IH Hws). unfold Spec.items in *. simpl app. simpl split.
  destruct (ch_eqb c sep).
  - simpl. exact IH.
  - destruct (split sep (ws ++ x)) as [|w l] eqn:E.
    + exfalso. apply (split_not_nil _ _ E).
    + simpl map. rewrite strip_space_cons by exact Hc. exact IH.
Qed.

Lemma split_all_space : forall sep ws,
    all_space ws -> Forall all_space (split sep ws).
Proof.
  intros sep ws. induction ws as [|c ws IH]; intro H.
  - constructor; [reflexivity | constructor].
  - apply all_space_cons in H. destruct H as [Hc Hws]. specialize (IH Hws).
    simpl. destruct (ch_eqb c sep).
    + constructor; [reflexivity | exact IH].
    + destruct (split sep ws) as [|w l].
      * constructor; [apply all_space_cons; split; [exact Hc | reflexivity]
                     | constructor].
      * inversion IH; subst. constructor; [|assumption].
        apply all_space_cons. split; assumption.
Qed.

Lemma filter_strip_all_space : forall l,
    Forall all_space l -> filter nonempty (map strip l) = [].
Proof.
  induction l as [|w l IH]; intro H; [reflexivity|].
  inversion H; subst. simpl. rewrite strip_all_space by assumption.
  simpl. apply IH. assumption.
Qed.

(** How trailing whitespace changes the pieces of a split. *)
Lemma split_app_space : forall sep ws x,
    all_space ws ->
    exists w l w' l',
      split sep x = w :: l /\ split sep (x ++ ws) = w' :: l'
      /\ ((l = [] /\ exists ws1, all_space ws1 /\ w' = w ++ ws1
                                  /\ Forall all_space l')
          \/ (w' = w
              /\ filter nonempty (map strip l') = filter nonempty (map strip l))).
Proof.
  intros sep ws x H. induction x as [|c t IH].
  - simpl app. pose proof (split_all_space sep H) as A.
    destruct (split sep ws) as [|w' l'] eqn:E.
    + exfalso. apply (split_not_nil _ _ E).
    + inversion A; subst. exists [], [], w', l'.
      split; [reflexivity|]. split; [reflexivity|]. left.
      split; [reflexivity|]. exists w'. repeat split; assumption.
  - destruct IH as [w [l [w' [l' [E1 [E2 D]]]]]].
    simpl app. simpl split. destruct (ch_eqb c sep) eqn:Ec.
    + exists [], (split sep t), [], (split sep (t ++ ws)).
      split; [reflexivity|]. split; [reflexivity|]. right.
      split; [reflexivity|]. rewrite E1, E2.
      destruct D as [[El [ws1 [A1 [Ew A2]]]]|[Ew Ef]].
      * subst l w'. simpl. rewrite strip_app_space by exact A1.
        rewrite filter_strip_all_space by exact A2. reflexivity.
      * subst w'. simpl. rewrite Ef. reflexivity.
    + rewrite E1, E2. exists (c :: w), l, (c :: w'), l'.
      split; [reflexivity|]. split; [reflexivity|].
      destruct D as [[El [ws1 [A1 [Ew A2]]]]|[Ew Ef]].
      * left. split; [exact El|]. exists ws1. subst w'. repeat split; assumption.
      * right. subst w'. split; [reflexivity | exact Ef].
Qed.

(** Whitespace behind a capture adds no item. *)
Lemma items_app_space : forall sep x ws,
    all_space ws -> Spec.items sep (x ++ ws) = Spec.items sep x.
Proof.
  intros sep x ws H.
  destruct (split_app_space sep x H) as [w [l [w' [l' [E1 [E2 D]]]]]].
  unfold Spec.items. rewrite E1, E2.
  destruct D as [[El [ws1 [A1 [Ew A2]]]]|[Ew Ef]].
  - subst l w'. simpl. rewrite strip_app_space by exact A1.
    rewrite filter_strip_all_space by exact A2. reflexivity.
  - subst w'. simpl. rewrite Ef. reflexivity.
Qed.

Lemma items_strip : forall sep x, Spec.items sep (strip x) = Spec.items sep x.
Proof.
  intros sep x. unfold strip.
  destruct (rstrip_split (lstrip x)) as [ws [E H]].
  destruct (lstrip_split x) as [ws0 [E0 H0]].
  rewrite E0 at 2. rewrite items_space_app by exact H0.
  rewrite E at 2. rewrite items_app_space by exact H. reflexivity.
Qed.

(** The list [extract_info] stores for a capture. *)
Lemma stored_items : forall sep g,
    match (if nonempty g then Some (stripped_items sep (strip g)) else None) with
    | Some xs => xs
    | None => []
    end = Spec.items sep g.
Proof.
  intros sep g. destruct g as [|c t]; [reflexivity|].
  simpl nonempty. cbv iota. rewrite stripped_items_items. apply items_strip.
Qed.

(** ** Headers and the leftmost match *)

Lemma scan_first_hit : forall r h,
    (forall bef x, group1_at r bef x = h x) ->
    forall x bef,
      option_map (fun m => group m 1) (scan IGNORECASE_DOTALL r bef x) = first_hit h x.
Proof.
  intros r h H. induction x as [|c t IH]; intros bef.
  - simpl. rewrite <- (H bef []). unfold group1_at.
    destruct (match_at IGNORECASE_DOTALL r bef []); reflexivity.
  - simpl. rewrite <- (H bef (c :: t)). unfold group1_at.
    destruct (match_at IGNORECASE_DOTALL r bef (c :: t)); [reflexivity|].
    simpl. apply IH.
Qed.

Lemma group1_of_mt : forall r bef x,
    group1_at r bef x
    = option_map (fun st => get_cap 1 (caps st))
                 (mt IGNORECASE_DOTALL r {| before := bef; rest := x; caps := [] |} Some).
Proof.
  intros r bef x. unfold group1_at, match_at.
  destruct (mt IGNORECASE_DOTALL r _ Some); reflexivity.
Qed.

(** A keyword followed by the section tail. *)
Lemma keyword_section_at : forall kw r stop,
    matches_text r stop ->
    forall bef x,
      group1_at (lits kw ;; section_tail r)%re bef x
      = if Spec.starts_with_ci kw x
        then Some (Some (capture_until stop
                           (Spec.skip_colon_space (skipn (length kw) x))))
        else None.
Proof.
  intros kw r stop Hr bef x. rewrite group1_of_mt.
  change (mt IGNORECASE_DOTALL (lits kw ;; section_tail r)%re
             {| before := bef; rest := x; caps := [] |} Some)
    with (mt IGNORECASE_DOTALL (lits kw) {| before := bef; rest := x; caps := [] |}
             (fun st1 => mt IGNORECASE_DOTALL (section_tail r) st1 Some)).
  rewrite mt_lits. destruct (Spec.starts_with_ci kw x); [|reflexivity].
  destruct (section_tail_match Hr (rev (firstn (length kw) x) ++ bef)
                               (skipn (length kw) x) [])
    as [st' [F G]].
  rewrite F. simpl. rewrite G. reflexivity.
Qed.

(** An optional letter before a continuation that cannot fail. *)
Lemma optional_letter : forall a k,
    (forall st, k st <> None) ->
    forall bef x cs,
      exists bef',
        mt IGNORECASE_DOTALL (opt (Lit a)) {| before := bef; rest := x; caps := cs |} k
        = k {| before := bef'; rest := Spec.drop_optional a x; caps := cs |}.
Proof.
  intros a k Tot bef x cs.
  change (mt IGNORECASE_DOTALL (opt (Lit a)) {| before := bef; rest := x; caps := cs |} k)
    with (rep_loop (mt IGNORECASE_DOTALL (Lit a)) true 0 k 1 0
                   {| before := bef; rest := x; caps := cs |}).
  rewrite rep_loop_S. cbv iota.
  change (mt IGNORECASE_DOTALL (Lit a)) with (one (lit_ok IGNORECASE_DOTALL a)).
  unfold one. cbn [before rest caps].
  destruct x as [|c t]; [exists bef; reflexivity|].
  change (lit_ok IGNORECASE_DOTALL a c) with (ch_eqb (lower c) (lower a)).
  cbn [Spec.drop_optional].
  destruct (ch_eqb (lower c) (lower a)).
  - exists (c :: bef). unfold pos. cbn [before length].
    replace (length bef <? S (length bef))%nat with true
      by (symmetry; apply Nat.ltb_lt; lia).
    rewrite rep_loop_0. simpl Nat.leb. cbv iota.
    apply orelse_some. apply Tot.
  - exists bef. reflexivity.
Qed.

Lemma skills_at : forall bef x,
    group1_at skills_pattern bef x
    = if Spec.starts_with_ci (txt "Skill") x
      then Some (Some (capture_until [newline]
                         (Spec.skip_colon_space
                            (Spec.drop_optional "s"%char
                               (skipn (length (txt "Skill")) x)))))
      else None.
Proof.
  intros bef x. rewrite group1_of_mt. unfold skills_pattern.
  change (mt IGNORECASE_DOTALL (lits (txt "Skill") ;; opt (Lit "s"%char)
                  ;; section_tail (Lit newline))%re
             {| before := bef; rest := x; caps := [] |} Some)
    with (mt IGNORECASE_DOTALL (lits (txt "Skill")) {| before := bef; rest := x; caps := [] |}
             (fun st1 => mt IGNORECASE_DOTALL (opt (Lit "s"%char)) st1
                            (fun st2 => mt IGNORECASE_DOTALL (section_tail (Lit newline)) st2 Some))).
  rewrite mt_lits. destruct (Spec.starts_with_ci (txt "Skill") x); [|reflexivity].
  assert (Tot : forall st,
             (fun st2 => mt IGNORECASE_DOTALL (section_tail (Lit newline)) st2 Some) st <> None).
  { intros [b0 x0 c0] N.
    destruct (section_tail_match newline_matches b0 x0 c0) as [st' [F _]].
    cbv beta in N. rewrite F in N. discriminate. }
  destruct (@optional_letter "s"%char _ Tot
              (rev (firstn (length (txt "Skill")) x) ++ bef)
              (skipn (length (txt "Skill")) x) [])
    as [bef' E].
  rewrite E.
  destruct (section_tail_match newline_matches bef'
              (Spec.drop_optional "s"%char (skipn (length (txt "Skill")) x)) [])
    as [st' [F G]].
  rewrite F. simpl option_map. rewrite G. reflexivity.
Qed.

Lemma experience_at : forall bef x,
    group1_at experience_pattern bef x
    = if Spec.starts_with_ci (txt "Experience") x then Some None
      else if Spec.starts_with_ci (txt "Work History") x
           then Some (Some (capture_until [newline; newline]
                              (Spec.skip_colon_space
                                 (skipn (length (txt "Work History")) x))))
           else None.
Proof.
  intros bef x.
  pose proof (@keyword_section_at (txt "Work History") _ _ blank_line_matches bef x) as W.
  rewrite group1_of_mt in *. unfold experience_pattern.
  change (mt IGNORECASE_DOTALL (Alt (lits (txt "Experience"))
                      (lits (txt "Work History") ;; section_tail blank_line)%re)
             {| before := bef; rest := x; caps := [] |} Some)
    with (match mt IGNORECASE_DOTALL (lits (txt "Experience"))
                   {| before := bef; rest := x; caps := [] |} Some with
          | Some m => Some m
          | None => mt IGNORECASE_DOTALL (lits (txt "Work History") ;; section_tail blank_line)%re
                       {| before := bef; rest := x; caps := [] |} Some
          end).
  rewrite mt_lits. destruct (Spec.starts_with_ci (txt "Experience") x).
  - reflexivity.
  - exact W.
Qed.

Lemma first_hit_after_first : forall kw (f : str -> str) x,
    first_hit (fun y => if Spec.starts_with_ci kw y
                        then Some (Some (f (skipn (length kw) y)))
                        else None) x
    = option_map (fun body => Some (f body)) (Spec.after_first kw x).
Proof.
  intros kw f. induction x as [|c t IH]; simpl.
  - destruct (Spec.starts_with_ci kw []); reflexivity.
  - destruct (Spec.starts_with_ci kw (c :: t)); [reflexivity | exact IH].
Qed.

Lemma first_hit_after_first_of : forall kw1 kw2 (f : str -> str) x,
    first_hit (fun y => if Spec.starts_with_ci kw1 y then Some None
                        else if Spec.starts_with_ci kw2 y
                             then Some (Some (f (skipn (length kw2) y)))
                             else None) x
    = match Spec.after_first_of kw1 kw2 x with
      | Some (true, _) => Some None
      | Some (false, body) => Some (Some (f body))
      | None => None
      end.
Proof.
  intros kw1 kw2 f. induction x as [|c t IH]; simpl.
  - destruct (Spec.starts_with_ci kw1 []); [reflexivity|].
    destruct (Spec.starts_with_ci kw2 []); reflexivity.
  - destruct (Spec.starts_with_ci kw1 (c :: t)); [reflexivity|].
    destruct (Spec.starts_with_ci kw2 (c :: t)); [reflexivity | exact IH].
Qed.

Lemma capture_until_newline : forall y,
    capture_until [newline] y = Spec.until_newline y.
Proof.
  induction y as [|c t IH]; [reflexivity|].
  cbn [capture_until Spec.until_newline]. unfold stop_here.
  cbn [starts_with at_end_of]. rewrite andb_true_r, (ch_eqb_sym newline c).
  destruct (ch_eqb c newline) eqn:E; [reflexivity|].
  destruct t; simpl orb; cbv iota; rewrite IH; reflexivity.
Qed.

(** Up to a line break that ends the text, the capture is the text up to the
    first blank line. *)
Lemma capture_until_blank_line : forall y,
    exists ws,
      all_space ws
      /\ Spec.until_blank_line y = capture_until [newline; newline] y ++ ws.
Proof.
  induction y as [|c t IH].
  - exists []. split; reflexivity.
  - cbn [capture_until Spec.until_blank_line]. unfold stop_here.
    destruct (starts_with [newline; newline] (c :: t)) eqn:S.
    + exists []. split; reflexivity.
    + cbn [orb]. destruct (at_end_of (c :: t)) eqn:A.
      * destruct t as [|d t]; [|discriminate A].
        simpl in A. apply ch_eqb_eq in A. subst c.
        exists [newline]. split; reflexivity.
      * destruct IH as [ws [H E]]. exists ws. split; [exact H|].
        rewrite E. reflexivity.
Qed.

Lemma items_until_blank_line : forall sep y,
    Spec.items sep (capture_until [newline; newline] y)
    = Spec.items sep (Spec.until_blank_line y).
Proof.
  intros sep y. destruct (capture_until_blank_line y) as [ws [H E]].
  rewrite E. symmetry. apply items_app_space. exact H.
Qed.

(** The list stored for a section, from what its pattern does at each
    position. *)
Lemma section_items_first_hit : forall p sep h text,
    (forall bef x, group1_at p bef x = h x) ->
    match section_items p sep text with Some xs => xs | None => [] end
    = match first_hit h text with
      | Some (Some g) => Spec.items sep g
      | _ => []
      end.
Proof.
  intros p sep h text H. unfold section_items, search.
  rewrite <- (@scan_first_hit p h H text []).
  destruct (scan IGNORECASE_DOTALL p [] text) as [m|]; [|reflexivity].
  simpl option_map. destruct (group m 1) as [g|]; [|reflexivity].
  apply stored_items.
Qed.

Lemma skills_items : forall text,
    match section_items skills_pattern ","%char text with
    | Some xs => xs | None => [] end = Spec.skills text.
Proof.
  intro text. rewrite (@section_items_first_hit _ _ _ text skills_at).
  rewrite (first_hit_after_first (txt "Skill")
             (fun body => capture_until [newline]
                            (Spec.skip_colon_space
                               (Spec.drop_optional "s"%char body)))).
  unfold Spec.skills. destruct (Spec.after_first (txt "Skill") text); [|reflexivity].
  simpl option_map. cbv iota. rewrite capture_until_newline. reflexivity.
Qed.

Lemma lines_items : forall kw text,
    match section_items (lits kw ;; section_tail blank_line)%re newline text with
    | Some xs => xs | None => [] end = Spec.lines_after kw text.
Proof.
  intros kw text.
  rewrite (@section_items_first_hit _ _ _ text (@keyword_section_at kw _ _ blank_line_matches)).
  rewrite (first_hit_after_first kw
             (fun body => capture_until [newline; newline]
                            (Spec.skip_colon_space body))).
  unfold Spec.lines_after. destruct (Spec.after_first kw text); [|reflexivity].
  simpl option_map. cbv iota. apply items_until_blank_line.
Qed.

Lemma experience_items : forall text,
    match section_items experience_pattern newline text with
    | Some xs => xs | None => [] end = captured_experience text.
Proof.
  intro text. rewrite (@section_items_first_hit _ _ _ text experience_at).
  rewrite (first_hit_after_first_of (txt "Experience") (txt "Work History")
             (fun body => capture_until [newline; newline]
                            (Spec.skip_colon_space body))).
  unfold captured_experience.
  destruct (Spec.after_first_of (txt "Experience") (txt "Work History") text)
    as [[[] body]|]; try reflexivity.
  apply items_until_blank_line.
Qed.

(** C5: every section matcher reads the first occurrence of its header only;
    the skills are the comma-separated items of the text up to the first
    line break, and the education and certifications are the lines of the
    text up to the first blank line, or up to the end of the text; on the
    scenario input, whatever follows the experience header, the education
    list is [BSc Computer Science, MIT].  The experience capture is not
    what is stated: on the scenario input followed by two experience lines
    the program returns no experience at all, where the capture up to the
    blank line or the end of the text holds the two lines. *)
Theorem experience_capture_diverges :
  (forall text,
      dict_get (extract_info text) "skills" = Some (VList (Spec.skills text))
      /\ dict_get (extract_info text) "education"
         = Some (VList (Spec.education text))
      /\ dict_get (extract_info text) "certifications"
         = Some (VList (Spec.certifications text)))
  /\ (forall more,
         dict_get (extract_info (education_resume more)) "education"
         = Some (VList [txt "BSc Computer Science, MIT"]))
  /\ dict_get (extract_info scenario_resume) "experience" = Some (VList [])
  /\ Spec.experience scenario_resume = [txt "Acme Corp"; txt "Beta Inc"].
Proof.
  assert (A : forall text,
             extract_info text
             = [("skills", VList (Spec.skills text));
                ("education", VList (Spec.education text));
                ("experience", VList (captured_experience text));
                ("certifications", VList (Spec.certifications text))]).
  { intro text. rewrite extract_info_form.
    rewrite skills_items, experience_items.
    unfold education_pattern, certifications_pattern.
    rewrite !lines_items. reflexivity. }
  split; [intro text; rewrite A; repeat split; reflexivity|].
  split; [intro more; rewrite A; reflexivity|].
  split; [rewrite A|]; reflexivity.
Qed.

(** ** Progress of the matcher *)

Section Progress.

Variable fl : flags.

Lemma one_progress : forall p st k res,
    one p st k = Some res ->
    exists st', k st' = Some res /\ pos st < pos st'.
Proof.
  intros p st k res H. unfold one in H.
  destruct (rest st) as [|c t]; [discriminate|].
  destruct (p c); [|discriminate].
  eexists. split; [exact H|]. unfold pos. simpl. lia.
Qed.

Lemma rep_loop_progress : forall body greedy lo k,
    (forall st k' res, body st k' = Some res ->
                       exists st', k' st' = Some res /\ pos st <= pos st') ->
    forall budget cnt st res,
      rep_loop body greedy lo k budget cnt st = Some res ->
      exists st', k st' = Some res
                  /\ pos st <= pos st'
                  /\ (cnt < lo -> pos st < pos st').
Proof.
  intros body greedy lo k Hb.
  assert (Stop : forall cnt st res,
             (if (lo <=? cnt)%nat then k st else None) = Some res ->
             exists st', k st' = Some res /\ pos st <= pos st'
                         /\ (cnt < lo -> pos st < pos st')).
  { intros cnt st res H. destruct (lo <=? cnt)%nat eqn:E; [|discriminate].
    apply Nat.leb_le in E. exists st. split; [exact H|]. split; lia. }
  induction budget as [|b IH]; intros cnt st res H.
  - apply Stop. exact H.
  - assert (More : body st (fun st1 => if (pos st <? pos st1)%nat
                                        then rep_loop body greedy lo k b (S cnt) st1
                                        else None) = Some res ->
                   exists st', k st' = Some res /\ pos st <= pos st'
                               /\ (cnt < lo -> pos st < pos st')).
    { intro M. apply Hb in M. destruct M as [st1 [M _]].
      destruct (pos st <? pos st1)%nat eqn:E; [|discriminate].
      apply Nat.ltb_lt in E. apply IH in M. destruct M as [st' [K [L _]]].
      exists st'. split; [exact K|]. split; lia. }
    rewrite rep_loop_S in H. destruct greedy.
    + destruct (body st _) as [m|].
      * apply More. exact H.
      * apply Stop. exact H.
    + destruct (if (lo <=? cnt)%nat then k st else None) as [m|] eqn:S.
      * inversion H. subst m. apply Stop. exact S.
      * apply More. exact H.
Qed.

(** A successful match hands the continuation a state that is not behind
    the one it started from, and ahead of it when the pattern consumes. *)
Lemma mt_progress : forall r st k res,
    mt fl r st k = Some res ->
    exists st', k st' = Some res
                /\ pos st <= pos st'
                /\ (consumes r = true -> pos st < pos st').
Proof.
  induction r as [| a | | items | | | r1 IH1 r2 IH2 | r1 IH1 r2 IH2
                  | greedy lo hi r1 IH1 | n r1 IH1];
    intros st k res H; simpl in H.
  - exists st. split; [exact H|]. split; [lia | discriminate].
  - apply one_progress in H. destruct H as [st' [K L]].
    exists st'. split; [exact K|]. split; lia.
  - apply one_progress in H. destruct H as [st' [K L]].
    exists st'. split; [exact K|]. split; lia.
  - apply one_progress in H. destruct H as [st' [K L]].
    exists st'. split; [exact K|]. split; lia.
  - destruct (at_boundary st); [|discriminate].
    exists st. split; [exact H|]. split; [lia | discriminate].
  - destruct (at_end st); [|discriminate].
    exists st. split; [exact H|]. split; [lia | discriminate].
  - apply IH1 in H. destruct H as [st1 [H [L1 C1]]].
    apply IH2 in H. destruct H as [st' [K [L2 C2]]].
    exists st'. split; [exact K|]. split; [lia|].
    simpl. intro C. apply orb_prop in C. destruct C as [C|C].
    + specialize (C1 C). lia.
    + specialize (C2 C). lia.
  - destruct (mt fl r1 st k) as [m|] eqn:E.
    + inversion H. subst m. apply IH1 in E. destruct E as [st' [K [L C]]].
      exists st'. split; [exact K|]. split; [lia|].
      simpl. intro A. apply andb_prop in A. apply C. apply A.
    + apply IH2 in H. destruct H as [st' [K [L C]]].
      exists st'. split; [exact K|]. split; [lia|].
      simpl. intro A. apply andb_prop in A. apply C. apply A.
  - apply (@rep_loop_progress (mt fl r1) greedy lo k) in H.
    + destruct H as [st' [K [L C]]]. exists st'. split; [exact K|].
      split; [exact L|]. simpl. intro A. apply Nat.ltb_lt in A. apply C. exact A.
    + intros st0 k' res0 B. apply IH1 in B. destruct B as [st' [K [L _]]].
      exists st'. split; assumption.
  - apply IH1 in H. destruct H as [st1 [K [L C]]].
    exists (set_cap n (firstn (pos st1 - pos st) (rest st)) st1).
    split; [exact K|]. split; [exact L | exact C].
Qed.

(** A match of a consuming pattern is not empty. *)
Lemma match_at_not_empty : forall r bef rst m,
    consumes r = true ->
    match_at fl r bef rst = Some m -> m_start m < m_end m.
Proof.
  intros r bef rst m C H. unfold match_at in H.
  destruct (mt fl r _ Some) as [st|] eqn:E; [|discriminate].
  inversion H. subst m. simpl.
  apply mt_progress in E. destruct E as [st' [K [_ P]]].
  inversion K. subst st'. apply P. exact C.
Qed.

End Progress.

(** The two patterns used with [findall] and [sub] have no empty match. *)
Lemma email_match_not_empty : forall bef rst m,
    match_at no_flags email_pattern bef rst = Some m -> m_start m < m_end m.
Proof. intros bef rst m. apply match_at_not_empty. reflexivity. Qed.

Lemma phone_match_not_empty : forall bef rst m,
    match_at no_flags phone_pattern bef rst = Some m -> m_start m < m_end m.
Proof. intros bef rst m. apply match_at_not_empty. reflexivity. Qed.

(** * Further properties of the code *)

(** ** The email and phone passes *)

Lemma ahead_refl : forall st, ahead st [] st.
Proof. intro st. split; reflexivity. Qed.

Lemma ahead_trans : forall st a st1 b st2,
    ahead st a st1 -> ahead st1 b st2 -> ahead st (a ++ b) st2.
Proof.
  intros st a st1 b st2 [R1 B1] [R2 B2]. split.
  - rewrite R1, R2, app_assoc. reflexivity.
  - rewrite B2, B1, rev_app_distr, app_assoc. reflexivity.
Qed.

Lemma ahead_pos : forall st a st', ahead st a st' -> pos st' = pos st + length a.
Proof.
  intros st a st' [_ B]. unfold pos. rewrite B, length_app, length_rev. lia.
Qed.

Lemma ahead_firstn : forall st a st',
    ahead st a st' -> firstn (pos st' - pos st) (rest st) = a.
Proof.
  intros st a st' H. rewrite (ahead_pos H). destruct H as [R _]. rewrite R.
  replace (pos st + length a - pos st) with (length a) by lia.
  rewrite firstn_app, firstn_all, Nat.sub_diag. simpl. apply app_nil_r.
Qed.

Lemma one_sound : forall p st k res,
    one p st k = Some res ->
    exists st' x, k st' = Some res /\ ahead st [x] st' /\ p x = true.
Proof.
  intros p st k res H. unfold one in H.
  destruct (rest st) as [|c t] eqn:R; [discriminate|].
  destruct (p c) eqn:P; [|discriminate].
  eexists. exists c. split; [exact H|]. split; [|exact P].
  split; simpl; [exact R | reflexivity].
Qed.

Lemma rep_loop_sound : forall body (P : str -> Prop) greedy lo k,
    (forall st k' res, body st k' = Some res ->
                       exists st' a, k' st' = Some res /\ ahead st a st' /\ P a) ->
    forall budget cnt st res,
      rep_loop body greedy lo k budget cnt st = Some res ->
      exists st' pieces,
        k st' = Some res /\ ahead st (concat pieces) st'
        /\ Forall P pieces /\ lo <= cnt + length pieces
        /\ length pieces <= budget.
Proof.
  intros body P greedy lo k Hb.
  assert (Stop : forall budget cnt st res,
             (if (lo <=? cnt)%nat then k st else None) = Some res ->
             exists st' pieces,
               k st' = Some res /\ ahead st (concat pieces) st'
               /\ Forall P pieces /\ lo <= cnt + length pieces
               /\ length pieces <= budget).
  { intros budget cnt st res H. destruct (lo <=? cnt)%nat eqn:E; [|discriminate].
    apply Nat.leb_le in E. exists st, []. split; [exact H|].
    split; [apply ahead_refl|]. split; [constructor|]. simpl. split; lia. }
  induction budget as [|b IH]; intros cnt st res H.
  - apply Stop. exact H.
  - assert (More : body st (fun st1 => if (pos st <? pos st1)%nat
                                        then rep_loop body greedy lo k b (S cnt) st1
                                        else None) = Some res ->
                   exists st' pieces,
                     k st' = Some res /\ ahead st (concat pieces) st'
                     /\ Forall P pieces /\ lo <= cnt + length pieces
                     /\ length pieces <= S b).
    { intro M. apply Hb in M. destruct M as [st1 [a [M [A Pa]]]].
      destruct (pos st <? pos st1)%nat; [|discriminate].
      apply IH in M. destruct M as [st' [pieces [K [A' [F [L1 L2]]]]]].
      exists st', (a :: pieces). split; [exact K|].
      split; [simpl; eapply ahead_trans; eassumption|].
      split; [constructor; assumption|]. simpl. split; lia. }
    rewrite rep_loop_S in H. destruct greedy.
    + destruct (body st _) as [m|].
      * apply More. exact H.
      * apply Stop. exact H.
    + destruct (if (lo <=? cnt)%nat then k st else None) as [m|] eqn:S.
      * inversion H. subst m. apply Stop. exact S.
      * apply More. exact H.
Qed.

Section Sound.

Variable fl : flags.

(** Whatever the matcher hands to its continuation lies ahead by a text of
    the pattern. *)
Lemma mt_sound : forall r st k res,
    mt fl r st k = Some res ->
    exists st' a, k st' = Some res /\ ahead st a st' /\ lang fl r a.
Proof.
  induction r as [| c | | items | | | r1 IH1 r2 IH2 | r1 IH1 r2 IH2
                  | greedy lo hi r1 IH1 | n r1 IH1];
    intros st k res H; simpl in H.
  - exists st, []. split; [exact H|]. split; [apply ahead_refl | reflexivity].
  - apply one_sound in H. destruct H as [st' [x [K [A P]]]].
    exists st', [x]. split; [exact K|]. split; [exact A|]. exists x. split; [reflexivity | exact P].
  - apply one_sound in H. destruct H as [st' [x [K [A P]]]].
    exists st', [x]. split; [exact K|]. split; [exact A|]. exists x. split; [reflexivity | exact P].
  - apply one_sound in H. destruct H as [st' [x [K [A P]]]].
    exists st', [x]. split; [exact K|]. split; [exact A|]. exists x. split; [reflexivity | exact P].
  - destruct (at_boundary st); [|discriminate].
    exists st, []. split; [exact H|]. split; [apply ahead_refl | reflexivity].
  - destruct (at_end st); [|discriminate].
    exists st, []. split; [exact H|]. split; [apply ahead_refl | reflexivity].
  - apply IH1 in H. destruct H as [st1 [a1 [H [A1 L1]]]].
    apply IH2 in H. destruct H as [st2 [a2 [K [A2 L2]]]].
    exists st2, (a1 ++ a2). split; [exact K|].
    split; [eapply ahead_trans; eassumption|].
    exists a1, a2. split; [reflexivity|]. exact (conj L1 L2).
  - destruct (mt fl r1 st k) as [m|] eqn:E.
    + inversion H. subst m. apply IH1 in E. destruct E as [st' [a [K [A L]]]].
      exists st', a. split; [exact K|]. split; [exact A|]. left. exact L.
    + apply IH2 in H. destruct H as [st' [a [K [A L]]]].
      exists st', a. split; [exact K|]. split; [exact A|]. right. exact L.
  - apply (@rep_loop_sound (mt fl r1) (lang fl r1) greedy lo k) in H.
    + destruct H as [st' [pieces [K [A [F [L1 L2]]]]]].
      exists st', (concat pieces). split; [exact K|]. split; [exact A|].
      exists pieces. split; [reflexivity|]. split; [exact F|]. split; [lia|].
      destruct hi; [exact L2 | exact I].
    + intros st0 k' res0 B. apply IH1. exact B.
  - apply IH1 in H. destruct H as [st1 [a [K [A L]]]].
    exists (set_cap n (firstn (pos st1 - pos st) (rest st)) st1), a.
    split; [exact K|]. split; [exact A | exact L].
Qed.

(** A group records the text its body has taken. *)
Lemma mt_group_sound : forall n r st k res,
    mt fl (Grp n r) st k = Some res ->
    exists st1 a, k (set_cap n a st1) = Some res /\ ahead st a st1 /\ lang fl r a.
Proof.
  intros n r st k res H. simpl in H. apply mt_sound in H.
  destruct H as [st1 [a [K [A L]]]]. exists st1, a.
  rewrite (ahead_firstn A) in K. exact (conj K (conj A L)).
Qed.

End Sound.

Lemma all_ascii_complete : forall c, In c all_ascii.
Proof.
  intro c. unfold all_ascii. apply in_map_iff.
  exists (nat_of_ascii c). split; [apply ascii_nat_embedding|].
  apply in_seq. pose proof (nat_ascii_bounded c). lia.
Qed.

Lemma every_spec : forall q p, every q p = true -> forall c, q c = true -> p c = true.
Proof.
  intros q p H c Q. unfold every in H. rewrite forallb_forall in H.
  specialize (H c (all_ascii_complete c)). rewrite Q in H. exact H.
Qed.

Lemma count_app : forall p a b, count p (a ++ b) = count p a + count p b.
Proof. intros p a b. unfold count. rewrite filter_app, length_app. reflexivity. Qed.

Lemma count_one : forall p q x,
    q x = true -> char_min p q <= count p [x] /\ count p [x] <= char_max p q.
Proof.
  intros p q x Q. unfold char_min, char_max, count. simpl. split.
  - destruct (every q p) eqn:E; [|lia].
    rewrite (every_spec _ _ E x Q). simpl. lia.
  - destruct (every q (fun c => negb (p c))) eqn:E.
    + pose proof (every_spec _ _ E x Q) as N. apply negb_true_iff in N.
      rewrite N. simpl. lia.
    + destruct (p x); simpl; lia.
Qed.

Lemma count_concat : forall p lo hi pieces,
    Forall (fun a => lo <= count p a /\ count p a <= hi) pieces ->
    length pieces * lo <= count p (concat pieces)
    /\ count p (concat pieces) <= length pieces * hi.
Proof.
  intros p lo hi pieces F. induction F as [|a l [H1 H2] _ [IH1 IH2]]; simpl.
  - unfold count. simpl. lia.
  - rewrite count_app. lia.
Qed.

Lemma count_concat_min : forall p lo pieces,
    Forall (fun a => lo <= count p a) pieces ->
    length pieces * lo <= count p (concat pieces).
Proof.
  intros p lo pieces F. induction F as [|a l H _ IH]; simpl.
  - lia.
  - rewrite count_app. lia.
Qed.

(** The bounds hold for every text of the pattern. *)
Lemma lang_count : forall fl p r a,
    lang fl r a ->
    cmin fl p r <= count p a
    /\ forall m, cmax fl p r = Some m -> count p a <= m.
Proof.
  intros fl p. induction r as [| c | | items | | | r1 IH1 r2 IH2 | r1 IH1 r2 IH2
                               | greedy lo hi r1 IH1 | n r1 IH1];
    intros a L; simpl in L; simpl cmin; simpl cmax.
  - subst a. split; [apply Nat.le_0_l|]. intros m E. apply Nat.le_0_l.
  - destruct L as [x [E Q]]. subst a. destruct (count_one p _ x Q) as [H1 H2].
    split; [exact H1|]. intros m E. inversion E. subst m. exact H2.
  - destruct L as [x [E Q]]. subst a. destruct (count_one p _ x Q) as [H1 H2].
    split; [exact H1|]. intros m E. inversion E. subst m. exact H2.
  - destruct L as [x [E Q]]. subst a. destruct (count_one p _ x Q) as [H1 H2].
    split; [exact H1|]. intros m E. inversion E. subst m. exact H2.
  - subst a. split; [apply Nat.le_0_l|]. intros m E. apply Nat.le_0_l.
  - subst a. split; [apply Nat.le_0_l|]. intros m E. apply Nat.le_0_l.
  - destruct L as [a1 [a2 [E [L1 L2]]]]. subst a. rewrite count_app.
    destruct (IH1 _ L1) as [A1 B1]. destruct (IH2 _ L2) as [A2 B2]. split; [lia|].
    intros m E. destruct (cmax fl p r1) as [m1|]; [|discriminate].
    destruct (cmax fl p r2) as [m2|]; [|discriminate].
    inversion E. subst m. specialize (B1 _ eq_refl). specialize (B2 _ eq_refl). lia.
  - split.
    + destruct L as [L|L]; [destruct (IH1 _ L) | destruct (IH2 _ L)]; lia.
    + intros m E. destruct (cmax fl p r1) as [m1|]; [|discriminate].
      destruct (cmax fl p r2) as [m2|]; [|discriminate]. inversion E. subst m.
      destruct L as [L|L];
        [destruct (IH1 _ L) as [_ B]| destruct (IH2 _ L) as [_ B]];
        specialize (B _ eq_refl); lia.
  - destruct L as [pieces [E [F [Llo Lhi]]]]. subst a. split.
    + assert (G : Forall (fun a => cmin fl p r1 <= count p a) pieces).
      { eapply Forall_impl; [|exact F]. intros a L. apply IH1. exact L. }
      apply count_concat_min in G.
      eapply Nat.le_trans; [apply Nat.mul_le_mono_r; exact Llo | exact G].
    + intros m E. destruct (cmax fl p r1) as [m1|] eqn:C; [|discriminate].
      assert (G : Forall (fun a => 0 <= count p a /\ count p a <= m1) pieces).
      { eapply Forall_impl; [|exact F]. intros a L. split; [lia|].
        apply IH1; [exact L | reflexivity]. }
      apply count_concat in G. destruct G as [_ G].
      destruct m1 as [|m1].
      * inversion E. subst m. rewrite Nat.mul_0_r in G. exact G.
      * destruct hi as [h|]; [|discriminate]. inversion E. subst m.
        eapply Nat.le_trans; [exact G | apply Nat.mul_le_mono_r; exact Lhi].
  - apply IH1. exact L.
Qed.

Lemma phone_pattern_parts :
  phone_pattern = (Bnd ;; phone_prefix ;; Grp 2 phone_number ;; Bnd)%re.
Proof. reflexivity. Qed.

Lemma mt_seq : forall fl r1 r2 st k,
    mt fl (Seq r1 r2) st k = mt fl r1 st (fun st1 => mt fl r2 st1 k).
Proof. reflexivity. Qed.

Lemma mt_bnd : forall fl st k,
    mt fl Bnd st k = if at_boundary st then k st else None.
Proof. reflexivity. Qed.

(** A successful match attempt: the match text is the text passed. *)
Lemma match_at_sound : forall fl r bef rst m,
    match_at fl r bef rst = Some m ->
    exists a post,
      rst = a ++ post /\ m_text m = a /\ m_start m = length bef
      /\ m_end m = length bef + length a /\ lang fl r a.
Proof.
  intros fl r bef rst m H. unfold match_at in H.
  destruct (mt fl r _ Some) as [st|] eqn:E; [|discriminate].
  inversion H. subst m. clear H. simpl.
  apply mt_sound in E. destruct E as [st' [a [K [A L]]]].
  inversion K. subst st'. exists a, (rest st).
  pose proof (ahead_firstn A) as F. pose proof (ahead_pos A) as P.
  destruct A as [R _]. simpl in R. unfold pos in F, P. simpl in F, P.
  repeat split; try assumption.
Qed.

(** In a phone match the second group is set: it holds a text of
    [phone_number] that closes the match. *)
Lemma phone_match_group : forall bef rst m,
    match_at no_flags phone_pattern bef rst = Some m ->
    exists a1 a,
      group m 2 = Some a /\ m_text m = a1 ++ a /\ lang no_flags phone_number a.
Proof.
  intros bef rst m H. unfold match_at in H.
  destruct (mt no_flags phone_pattern _ Some) as [st|] eqn:E; [|discriminate].
  inversion H. subst m. clear H. unfold group. simpl.
  rewrite phone_pattern_parts, mt_seq, mt_bnd in E.
  destruct (at_boundary _); [|discriminate].
  rewrite mt_seq in E. apply mt_sound in E. destruct E as [st1 [a1 [E [A1 _]]]].
  rewrite mt_seq in E. apply mt_group_sound in E.
  destruct E as [st2 [a [E [A2 L]]]].
  rewrite mt_bnd in E. destruct (at_boundary _); [|discriminate].
  inversion E. subst st. exists a1, a. split; [|split; [|exact L]].
  - simpl. reflexivity.
  - pose proof (ahead_trans A1 A2) as A.
    pose proof (ahead_firstn A) as F. unfold pos in *. simpl in *. exact F.
Qed.

(** Every match of the scan was found at a position of the text. *)
Lemma iter_In : forall fl r rst n bef m,
    In m (iter fl r n bef rst) ->
    exists bef' rst',
      match_at fl r bef' rst' = Some m /\ rev bef' ++ rst' = rev bef ++ rst.
Proof.
  intros fl r. induction rst as [|c t IH]; intros n bef m H.
  - destruct n as [|n]; simpl in H; [|contradiction].
    destruct (match_at fl r bef []) as [m0|] eqn:E; [|contradiction].
    destruct H as [H|[]]. subst m0. exists bef, []. split; [exact E | reflexivity].
  - assert (T : forall k, In m (iter fl r k (c :: bef) t) ->
                          exists bef' rst',
                            match_at fl r bef' rst' = Some m
                            /\ rev bef' ++ rst' = rev bef ++ c :: t).
    { intros k Hk. apply IH in Hk. destruct Hk as [bef' [rst' [M E]]].
      exists bef', rst'. split; [exact M|]. rewrite E. simpl.
      rewrite <- app_assoc. reflexivity. }
    destruct n as [|n]; simpl in H.
    + destruct (match_at fl r bef (c :: t)) as [m0|] eqn:E.
      * destruct H as [H|H].
        -- subst m0. exists bef, (c :: t). split; [exact E | reflexivity].
        -- eapply T. exact H.
      * eapply T. exact H.
    + eapply T. exact H.
Qed.

Lemma iter_skip : forall fl r a bef x,
    iter fl r (length a) bef (a ++ x) = iter fl r 0 (rev a ++ bef) x.
Proof.
  intros fl r. induction a as [|c a IH]; intros bef x; [reflexivity|].
  simpl length. simpl app. cbn [iter]. rewrite IH. simpl rev.
  rewrite <- app_assoc. reflexivity.
Qed.

Lemma iter_head : forall fl r rst n bef m ms,
    iter fl r n bef rst = m :: ms ->
    length bef + n <= m_start m /\ m_start m <= m_end m.
Proof.
  intros fl r. induction rst as [|c t IH]; intros n bef m ms H.
  - destruct n as [|n]; simpl in H; [|discriminate].
    destruct (match_at fl r bef []) as [m0|] eqn:E; [|discriminate].
    inversion H. subst m0. apply match_at_sound in E.
    destruct E as [a [post [_ [_ [S [En _]]]]]]. lia.
  - destruct n as [|n]; simpl in H.
    + destruct (match_at fl r bef (c :: t)) as [m0|] eqn:E.
      * inversion H. subst m0. apply match_at_sound in E.
        destruct E as [a [post [_ [_ [S [En _]]]]]]. lia.
      * apply IH in H. simpl in H. lia.
    + apply IH in H. simpl in H. lia.
Qed.

Lemma splice_step : forall repl at_ c t ms,
    (forall m ms', ms = m :: ms' -> S at_ <= m_start m /\ m_start m <= m_end m) ->
    splice repl at_ (c :: t) ms = c :: splice repl (S at_) t ms.
Proof.
  intros repl at_ c t ms H. destruct ms as [|m ms']; [reflexivity|].
  destruct (H m ms' eq_refl) as [H1 H2]. simpl splice.
  replace (m_start m - at_) with (S (m_start m - S at_)) by lia.
  replace (m_end m - at_) with (S (m_end m - S at_)) by lia.
  reflexivity.
Qed.

Lemma spliced_step : forall repl c t ts out,
    spliced repl t ts out -> spliced repl (c :: t) ts (c :: out).
Proof.
  intros repl c t ts out H. inversion H as [x|gap t0 rest ts0 out0 H0]; subst.
  - apply spliced_nil.
  - apply (@spliced_cons repl (c :: gap) t0 rest ts0 out0). exact H0.
Qed.

(** The matches of a scan cut the text, and [splice] replaces exactly
    them. *)
Lemma iter_spliced : forall fl r repl,
    consumes r = true ->
    forall len rst bef,
      length rst = len ->
      spliced repl rst (map m_text (iter fl r 0 bef rst))
              (splice repl (length bef) rst (iter fl r 0 bef rst)).
Proof.
  intros fl r repl C. induction len as [len IH] using lt_wf_ind.
  intros rst bef L.
  destruct (match_at fl r bef rst) as [m|] eqn:E.
  - pose proof (match_at_not_empty fl r bef rst C E) as NE.
    apply match_at_sound in E as S.
    destruct S as [a [post [Er [Et [Es [Ee _]]]]]].
    destruct a as [|c a]; [simpl in Ee; lia|].
    subst rst. simpl app. cbn [iter]. simpl app in E. rewrite E.
    replace (m_end m - m_start m - 1) with (length a) by (simpl in Ee; lia).
    rewrite iter_skip. cbn [map splice].
    replace (m_start m - length bef) with 0 by lia.
    replace (m_end m - length bef) with (length (c :: a)) by lia.
    change (c :: a ++ post) with ((c :: a) ++ post).
    rewrite skipn_app, skipn_all, Nat.sub_diag. simpl firstn. simpl skipn.
    replace (m_end m) with (length (rev a ++ c :: bef))
      by (rewrite length_app, length_rev; simpl; simpl in Ee; lia).
    rewrite Et.
    apply (@spliced_cons repl [] (c :: a) post).
    apply (IH (length post)); [|reflexivity].
    rewrite <- L, length_app. simpl. lia.
  - destruct rst as [|c t].
    + simpl. rewrite E. apply spliced_nil.
    + cbn [iter]. rewrite E.
      rewrite splice_step.
      * apply spliced_step.
        apply (IH (length t) ltac:(simpl in L; lia) t (c :: bef) eq_refl).
      * intros m ms' Hm. apply iter_head in Hm. simpl in Hm. lia.
Qed.

(** [re.findall] and [re.sub] agree: the text is cut by the strings
    [findall] returns, and [sub] replaces exactly those. *)
Lemma findall_sub_spliced : forall fl r repl text,
    consumes r = true ->
    spliced repl text (map m_text (finditer fl r text)) (sub fl r repl text).
Proof.
  intros fl r repl text C. unfold finditer, sub, finditer.
  apply (@iter_spliced fl r repl C (length text) text [] eq_refl).
Qed.

Lemma spliced_occurs : forall repl x ts out t,
    spliced repl x ts out -> In t ts -> Spec.occurs t x.
Proof.
  intros repl x ts out t H. induction H as [x|gap t0 rest ts out H IH]; intro I.
  - contradiction.
  - destruct I as [I|I].
    + subst t0. exists gap, rest. reflexivity.
    + apply occurs_in_suffix. apply occurs_in_suffix. apply IH. exact I.
Qed.

Lemma count_zero : forall p a, count p a = 0 -> forall c, In c a -> p c = false.
Proof.
  intros p a H c I. destruct (p c) eqn:E; [|reflexivity].
  assert (F : In c (filter p a)) by (apply filter_In; split; assumption).
  unfold count in H. destruct (filter p a); [contradiction | discriminate].
Qed.

Lemma finditer_In : forall fl r text m,
    In m (finditer fl r text) ->
    exists bef rst, match_at fl r bef rst = Some m /\ rev bef ++ rst = text.
Proof.
  intros fl r text m H. unfold finditer in H. apply iter_In in H.
  destruct H as [bef [rst [M E]]]. exists bef, rst. split; [exact M | exact E].
Qed.

(** What [re.findall] returns for the email pattern. *)
Lemma email_found : forall text e,
    In e (findall0 no_flags email_pattern text) ->
    count is_at e = 1 /\ count isspace e = 0.
Proof.
  intros text e H. unfold findall0 in H. apply in_map_iff in H.
  destruct H as [m [E H]]. apply finditer_In in H.
  destruct H as [bef [rst [M _]]]. apply match_at_sound in M.
  destruct M as [a [post [_ [T [_ [_ L]]]]]]. rewrite T in E. subst a.
  pose proof (@lang_count no_flags is_at _ _ L) as [A1 A2].
  pose proof (@lang_count no_flags isspace _ _ L) as [_ B2].
  specialize (A2 1 ltac:(vm_compute; reflexivity)).
  specialize (B2 0 ltac:(vm_compute; reflexivity)).
  assert (A0 : cmin no_flags is_at email_pattern = 1) by (vm_compute; reflexivity).
  rewrite A0 in A1. lia.
Qed.

(** What [phones_flat] keeps of [re.findall] for the phone pattern: the
    second group of every match. *)
Lemma phones_flat_groups : forall text,
    Forall2 (fun p m => exists a1, m_text m = a1 ++ p
                                   /\ lang no_flags phone_number p)
            (phones_flat (findall2 no_flags phone_pattern text))
            (finditer no_flags phone_pattern text).
Proof.
  intro text. unfold phones_flat, findall2.
  assert (H : forall m, In m (finditer no_flags phone_pattern text) ->
                        exists a1 a, group m 2 = Some a /\ m_text m = a1 ++ a
                                     /\ lang no_flags phone_number a).
  { intros m I. apply finditer_In in I. destruct I as [bef [rst [M _]]].
    eapply phone_match_group. exact M. }
  induction (finditer no_flags phone_pattern text) as [|m ms IH]; [constructor|].
  destruct (H m (or_introl eq_refl)) as [a1 [a [G [T L]]]].
  assert (N : nonempty a = true).
  { pose proof (@lang_count no_flags isdecimal _ _ L) as [A _].
    assert (A0 : cmin no_flags isdecimal phone_number = 10) by (vm_compute; reflexivity).
    rewrite A0 in A. destruct a; [unfold count in A; simpl in A; lia | reflexivity]. }
  assert (GE : group_or_empty m 2 = a)
    by (unfold group_or_empty; rewrite G; reflexivity).
  simpl map. rewrite GE. cbn [filter snd]. rewrite N.
  cbn [map snd]. constructor.
  - exists a1. split; assumption.
  - apply IH. intros m' I. apply H. right. exact I.
Qed.

Lemma phone_number_shape : forall p,
    lang no_flags phone_number p ->
    count isdecimal p = 10 /\ count (fun c => negb (phone_char c)) p = 0.
Proof.
  intros p L.
  pose proof (@lang_count no_flags isdecimal _ _ L) as [A1 A2].
  pose proof (@lang_count no_flags (fun c => negb (phone_char c)) _ _ L) as [_ B2].
  specialize (A2 10 ltac:(vm_compute; reflexivity)).
  specialize (B2 0 ltac:(vm_compute; reflexivity)).
  assert (A0 : cmin no_flags isdecimal phone_number = 10) by (vm_compute; reflexivity).
  rewrite A0 in A1. lia.
Qed.

Lemma Forall2_In_l : forall (A B : Type) (R : A -> B -> Prop) l1 l2 x,
    Forall2 R l1 l2 -> In x l1 -> exists y, In y l2 /\ R x y.
Proof.
  intros A B R l1 l2 x F. induction F as [|a b l1 l2 H _ IH]; intro I.
  - contradiction.
  - destruct I as [I|I].
    + subst a. exists b. split; [left; reflexivity | exact H].
    + destruct (IH I) as [y [Iy Ry]]. exists y. split; [right; exact Iy | exact Ry].
Qed.

Lemma Forall2_map_r : forall (A B C : Type) (R : A -> B -> Prop)
                               (R' : A -> C -> Prop) (f : B -> C) l1 l2,
    Forall2 R l1 l2 -> (forall x y, R x y -> R' x (f y)) ->
    Forall2 R' l1 (map f l2).
Proof.
  intros A B C R R' f l1 l2 F H. induction F as [|a b l1 l2 Hab _ IH].
  - constructor.
  - simpl. constructor; [apply H; exact Hab | exact IH].
Qed.

Lemma EMAIL_TOKEN_delimited : delimited EMAIL_TOKEN "*"%char "m"%char.
Proof. split; [eexists; reflexivity|]. exists (txt "***@***.co"). reflexivity. Qed.

(** A text that a placeholder cannot bring in occurs in the output of a
    replacement only where it occurred in the input. *)
Lemma spliced_occurs_back : forall repl o c p x ts out,
    delimited repl o c -> ~ In o p -> ~ In c p -> ~ Spec.occurs p repl ->
    spliced repl x ts out -> Spec.occurs p out -> Spec.occurs p x.
Proof.
  intros repl o c p x ts out D No Nc Nr H.
  induction H as [x|gap t rest ts out H IH]; intro O; [exact O|].
  apply (occurs_around_token _ _ D No Nc Nr) in O. destruct O as [O|O].
  - apply occurs_in_prefix. exact O.
  - apply occurs_in_suffix. apply occurs_in_suffix. apply IH. exact O.
Qed.

Lemma occurs_count_le : forall q p x,
    Spec.occurs p x -> count q p <= count q x.
Proof.
  intros q p x [pre [post E]]. subst x. rewrite !count_app. lia.
Qed.

(** What a successful call of [anonymize_data] returns. *)
Lemma anonymize_data_result :
  forall (exn : Type) (nlp : str -> outcome exn (list Ent)) (text out : str)
         (info : dict),
    result (anonymize_data nlp text) = Ok (out, info) ->
    let post_email := sub no_flags email_pattern EMAIL_TOKEN text in
    let post_phone := sub no_flags phone_pattern PHONE_TOKEN post_email in
    exists ents,
      nlp post_phone = Ok ents
      /\ out = entity_pass ents post_phone
      /\ dict_get info "masked_emails"
         = Some (VList (findall0 no_flags email_pattern text))
      /\ dict_get info "masked_phones"
         = Some (VList (phones_flat (findall2 no_flags phone_pattern post_email)))
      /\ dict_get info "masked_name" = option_map VStr (hd_error (person_names ents))
      /\ dict_get info "masked_addresses" = Some (VList (location_names ents)).
Proof.
  intros exn nlp text out info H post_email post_phone.
  destruct (nlp post_phone) as [ents|e] eqn:N.
  - destruct (anonymize_data_ok nlp text N) as [info' [H1 [H2 [H3 [H4 [H5 _]]]]]].
    fold post_email in H1, H3. fold post_phone in H1.
    rewrite H1 in H. inversion H. subst out info'.
    exists ents. repeat split; assumption.
  - unfold post_phone, post_email in N.
    rewrite (anonymize_data_raise nlp text N) in H. discriminate.
Qed.

(** X1: the email pass cuts the input at the recorded emails: the input is
    gap, email, gap, ..., gap with the recorded emails in order, and the text
    handed to the phone pass is the same with each of them replaced by the
    email placeholder. *)
Theorem email_pass_replaces_recorded :
  forall (exn : Type) (nlp : str -> outcome exn (list Ent)) (text out : str)
         (info : dict) (emails : list str),
    result (anonymize_data nlp text) = Ok (out, info) ->
    dict_get info "masked_emails" = Some (VList emails) ->
    spliced EMAIL_TOKEN text emails (sub no_flags email_pattern EMAIL_TOKEN text).
Proof.
  intros exn nlp text out info emails H He.
  destruct (anonymize_data_result nlp text H) as [ents [_ [_ [E _]]]].
  rewrite E in He. inversion He. subst emails.
  apply findall_sub_spliced. reflexivity.
Qed.

Lemma email_pass_replaces_recorded_witness :
  spliced EMAIL_TOKEN contact_line [txt "jane@example.com"]
          (sub no_flags email_pattern EMAIL_TOKEN contact_line).
Proof.
  apply (@email_pass_replaces_recorded unit no_spans contact_line
           contact_out contact_info [txt "jane@example.com"]).
  - vm_compute. reflexivity.
  - reflexivity.
Defined.

(** X2: every recorded email occurs verbatim in the input, holds exactly
    one [@] and no whitespace. *)
Theorem recorded_emails_shape :
  forall (exn : Type) (nlp : str -> outcome exn (list Ent)) (text out : str)
         (info : dict) (emails : list str) (e : str),
    result (anonymize_data nlp text) = Ok (out, info) ->
    dict_get info "masked_emails" = Some (VList emails) ->
    In e emails ->
    contains text e = true /\ count is_at e = 1 /\ count isspace e = 0.
Proof.
  intros exn nlp text out info emails e H He I.
  destruct (anonymize_data_result nlp text H) as [ents [_ [_ [E _]]]].
  rewrite E in He. inversion He. subst emails. split.
  - apply contains_occurs.
    apply (@spliced_occurs EMAIL_TOKEN text (findall0 no_flags email_pattern text)
             (sub no_flags email_pattern EMAIL_TOKEN text)); [|exact I].
    apply findall_sub_spliced. reflexivity.
  - eapply email_found. exact I.
Qed.

Lemma recorded_emails_shape_witness :
  contains contact_line (txt "jane@example.com") = true
  /\ count is_at (txt "jane@example.com") = 1
  /\ count isspace (txt "jane@example.com") = 0.
Proof.
  apply (@recorded_emails_shape unit no_spans contact_line
           contact_out contact_info [txt "jane@example.com"]).
  - vm_compute. reflexivity.
  - reflexivity.
  - left. reflexivity.
Defined.

(** A text taken by at most one repetition of a one-character pattern. *)
Lemma lang_at_most_one : forall fl greedy q r p a,
    (forall x, lang fl r x -> exists c, x = [c] /\ q c = true) ->
    every q p = true ->
    lang fl (Rep greedy 0 (Some 1) r) a ->
    length a <= 1 /\ forallb p a = true.
Proof.
  intros fl greedy q r p a One E L. cbn [lang] in L.
  destruct L as [pieces [C [F [_ U]]]]. subst a.
  destruct pieces as [|x [|y pieces]]; [split; [apply Nat.le_0_l | reflexivity] | | simpl in U; lia].
  inversion F as [|? ? Lx _]. subst.
  destruct (One _ Lx) as [c [Ex Q]]. subst x. simpl.
  rewrite (every_spec _ _ E c Q). split; [apply Nat.le_refl | reflexivity].
Qed.

Lemma lang_some_of : forall fl greedy q items p lo hi a,
    (forall c, cset_ok fl items c = true -> q c = true) ->
    every q p = true ->
    lang fl (Rep greedy lo (Some hi) (CSet items)) a ->
    lo <= length a <= hi /\ forallb p a = true.
Proof.
  intros fl greedy q items p lo hi a Q E L. cbn [lang] in L.
  destruct L as [pieces [C [F [Lo Hi]]]]. subst a.
  assert (K : length (concat pieces) = length pieces
              /\ forallb p (concat pieces) = true).
  { clear Lo Hi. induction F as [|x l [c [Ex Qc]] _ IH]; [split; reflexivity|].
    subst x. destruct IH as [I1 I2]. simpl. rewrite I1, I2.
    rewrite (every_spec _ _ E c (Q c Qc)). split; reflexivity. }
  destruct K as [K1 K2]. rewrite K1. split; [lia | exact K2].
Qed.

(** What the optional first group of [phone_pattern] takes. *)
Lemma phone_prefix_shape : forall code,
    lang no_flags phone_prefix code -> country_code code.
Proof.
  intros code L. unfold phone_prefix, opt in L. cbn [lang] in L.
  destruct L as [pieces [C [F [_ U]]]]. subst code.
  destruct pieces as [|x [|y pieces]]; [left; reflexivity | | simpl in U; lia].
  right. inversion F as [|? ? Lx _]. subst. clear F U.
  destruct Lx as [sign [rest1 [E1 [Ls [digits [separator [E2 [Ld Lp]]]]]]]].
  subst x rest1. exists sign, digits, separator.
  simpl concat. rewrite app_nil_r. split; [reflexivity|].
  destruct (@lang_at_most_one no_flags true (lit_ok no_flags "+"%char)
              (Lit "+"%char) is_plus sign) as [S1 S2];
    [intros x [c [Ex Q]]; exists c; split; assumption
    | vm_compute; reflexivity | exact Ls |].
  destruct (@lang_some_of no_flags true (cset_ok no_flags [SDigit]) [SDigit]
              isdecimal 1 3 digits) as [D1 D2];
    [intros c Q; exact Q | vm_compute; reflexivity | exact Ld |].
  destruct (@lang_at_most_one no_flags false
              (cset_ok no_flags [SChar "-"%char; SChar "."%char; SSpace])
              sep_set is_separator separator) as [P1 P2];
    [intros x [c [Ex Q]]; exists c; split; assumption
    | vm_compute; reflexivity | exact Lp |].
  repeat split; assumption || lia.
Qed.

(** The parts of a phone match: a country code, then the recorded number. *)
Lemma phone_match_parts : forall bef rst m,
    match_at no_flags phone_pattern bef rst = Some m ->
    exists a1 a,
      group m 2 = Some a /\ m_text m = a1 ++ a
      /\ country_code a1 /\ lang no_flags phone_number a.
Proof.
  intros bef rst m H. unfold match_at in H.
  destruct (mt no_flags phone_pattern _ Some) as [st|] eqn:E; [|discriminate].
  inversion H. subst m. clear H. unfold group. simpl.
  rewrite phone_pattern_parts, mt_seq, mt_bnd in E.
  destruct (at_boundary _); [|discriminate].
  rewrite mt_seq in E. apply mt_sound in E. destruct E as [st1 [a1 [E [A1 L1]]]].
  rewrite mt_seq in E. apply mt_group_sound in E.
  destruct E as [st2 [a [E [A2 L]]]].
  rewrite mt_bnd in E. destruct (at_boundary _); [|discriminate].
  inversion E. subst st. exists a1, a. split; [|split; [|split; [|exact L]]].
  - simpl. reflexivity.
  - pose proof (ahead_trans A1 A2) as A.
    pose proof (ahead_firstn A) as F. unfold pos in *. simpl in *. exact F.
  - apply phone_prefix_shape. exact L1.
Qed.

(** One recorded phone for every match of the scan: the match is a country
    code followed by the recorded phone. *)
Lemma phones_flat_codes : forall text,
    Forall2 (fun p m => exists code, m_text m = code ++ p /\ country_code code)
            (phones_flat (findall2 no_flags phone_pattern text))
            (finditer no_flags phone_pattern text).
Proof.
  intro text. unfold phones_flat, findall2.
  assert (H : forall m, In m (finditer no_flags phone_pattern text) ->
                        exists a1 a, group m 2 = Some a /\ m_text m = a1 ++ a
                                     /\ country_code a1
                                     /\ lang no_flags phone_number a).
  { intros m I. apply finditer_In in I. destruct I as [bef [rst [M _]]].
    eapply phone_match_parts. exact M. }
  induction (finditer no_flags phone_pattern text) as [|m ms IH]; [constructor|].
  destruct (H m (or_introl eq_refl)) as [a1 [a [G [T [C L]]]]].
  assert (N : nonempty a = true).
  { pose proof (@lang_count no_flags isdecimal _ _ L) as [A _].
    assert (A0 : cmin no_flags isdecimal phone_number = 10) by (vm_compute; reflexivity).
    rewrite A0 in A. destruct a; [unfold count in A; simpl in A; lia | reflexivity]. }
  assert (GE : group_or_empty m 2 = a)
    by (unfold group_or_empty; rewrite G; reflexivity).
  simpl map. rewrite GE. cbn [filter snd]. rewrite N.
  cbn [map snd]. constructor.
  - exists a1. split; assumption.
  - apply IH. intros m' I. apply H. right. exact I.
Qed.

(** X3: the phone pass cuts the text left by the email pass at its matches
    and replaces each by the phone placeholder; there is one recorded phone
    for every match, in order, and the match is a country code followed by
    the recorded phone: nothing, or an optional plus sign, one to three
    digits and an optional separator. The country code is masked with the
    phone, and is not recorded. *)
Theorem phone_pass_replaces_matches :
  forall (exn : Type) (nlp : str -> outcome exn (list Ent)) (text out : str)
         (info : dict) (phones : list str),
    result (anonymize_data nlp text) = Ok (out, info) ->
    dict_get info "masked_phones" = Some (VList phones) ->
    let post_email := sub no_flags email_pattern EMAIL_TOKEN text in
    exists matches,
      spliced PHONE_TOKEN post_email matches
              (sub no_flags phone_pattern PHONE_TOKEN post_email)
      /\ Forall2 (fun p m => exists code, m = code ++ p /\ country_code code)
                 phones matches.
Proof.
  intros exn nlp text out info phones H Hp post_email.
  destruct (anonymize_data_result nlp text H) as [ents [_ [_ [_ [E _]]]]].
  fold post_email in E. rewrite E in Hp. inversion Hp. subst phones.
  exists (map m_text (finditer no_flags phone_pattern post_email)). split.
  - apply findall_sub_spliced. reflexivity.
  - eapply Forall2_map_r; [apply phones_flat_codes|].
    intros p m [a1 [T C]]. exists a1. split; assumption.
Qed.

Lemma phone_pass_replaces_matches_witness :
  exists matches,
    spliced PHONE_TOKEN (sub no_flags email_pattern EMAIL_TOKEN intl_line)
            matches
            (sub no_flags phone_pattern PHONE_TOKEN
                 (sub no_flags email_pattern EMAIL_TOKEN intl_line))
    /\ Forall2 (fun p m => exists code, m = code ++ p /\ country_code code)
               [txt "555-123-4567"] matches.
Proof.
  apply (@phone_pass_replaces_matches unit no_spans intl_line
           intl_out intl_info [txt "555-123-4567"]).
  - vm_compute. reflexivity.
  - reflexivity.
Defined.

(** X4: every recorded phone occurs verbatim in the input, holds exactly
    ten decimal digits, and holds nothing but digits, parentheses, hyphens,
    dots and whitespace. *)
Theorem recorded_phones_shape :
  forall (exn : Type) (nlp : str -> outcome exn (list Ent)) (text out : str)
         (info : dict) (phones : list str) (p : str),
    result (anonymize_data nlp text) = Ok (out, info) ->
    dict_get info "masked_phones" = Some (VList phones) ->
    In p phones ->
    contains text p = true /\ count isdecimal p = 10 /\ forallb phone_char p = true.
Proof.
  intros exn nlp text out info phones p H Hp I.
  destruct (anonymize_data_result nlp text H) as [ents [_ [_ [_ [E _]]]]].
  rewrite E in Hp. inversion Hp. subst phones. clear Hp E.
  set (post_email := sub no_flags email_pattern EMAIL_TOKEN text) in *.
  destruct (@Forall2_In_l _ _ _ _ _ p (phones_flat_groups post_email) I)
    as [m [Im [a1 [T L]]]].
  destruct (phone_number_shape L) as [D C].
  assert (P : forall c, In c p -> phone_char c = true).
  { intros c Ic. apply (count_zero _ _ C) in Ic. apply negb_false_iff in Ic. exact Ic. }
  split; [|split; [exact D | apply forallb_forall; exact P]].
  apply contains_occurs.
  assert (O : Spec.occurs p post_email).
  { assert (Om : Spec.occurs (m_text m) post_email).
    { apply (@spliced_occurs PHONE_TOKEN post_email
               (map m_text (finditer no_flags phone_pattern post_email))
               (sub no_flags phone_pattern PHONE_TOKEN post_email)).
      - apply findall_sub_spliced. reflexivity.
      - apply in_map. exact Im. }
    destruct Om as [pre [post Em]]. exists (pre ++ a1), post.
    rewrite Em, T, <- !app_assoc. reflexivity. }
  apply (@spliced_occurs_back EMAIL_TOKEN "*"%char "m"%char p text
           (findall0 no_flags email_pattern text) post_email).
  - apply EMAIL_TOKEN_delimited.
  - intro Ic. apply P in Ic. discriminate.
  - intro Ic. apply P in Ic. discriminate.
  - intro Oc. apply (occurs_count_le isdecimal) in Oc. rewrite D in Oc.
    vm_compute in Oc. lia.
  - apply findall_sub_spliced. reflexivity.
  - exact O.
Qed.

Lemma recorded_phones_shape_witness :
  contains contact_line (txt "555-123-4567") = true
  /\ count isdecimal (txt "555-123-4567") = 10
  /\ forallb phone_char (txt "555-123-4567") = true.
Proof.
  apply (@recorded_phones_shape unit no_spans contact_line
           contact_out contact_info [txt "555-123-4567"]).
  - vm_compute. reflexivity.
  - reflexivity.
  - left. reflexivity.
Defined.

(** ** Header keywords and extracted items *)

(** [extract_info] in terms of the direct scanner. *)
Lemma extract_info_scanned : forall text,
    extract_info text
    = [("skills", VList (Spec.skills text));
       ("education", VList (Spec.education text));
       ("experience", VList (captured_experience text));
       ("certifications", VList (Spec.certifications text))].
Proof.
  intro text. rewrite extract_info_form.
  rewrite skills_items, experience_items.
  unfold education_pattern, certifications_pattern.
  rewrite !lines_items. reflexivity.
Qed.

Lemma starts_with_ci_lower : forall kw x,
    Spec.starts_with_ci kw x = starts_with (map lower kw) (map lower x).
Proof.
  induction kw as [|a kw IH]; intros x; [reflexivity|].
  destruct x as [|b x]; [reflexivity|].
  simpl. rewrite IH, (ch_eqb_sym (lower b) (lower a)). reflexivity.
Qed.

Lemma after_first_none : forall kw text,
    mentions kw text = false -> Spec.after_first kw text = None.
Proof.
  intros kw. unfold mentions. induction text as [|c t IH]; intro H.
  - simpl in *. rewrite starts_with_ci_lower. simpl.
    rewrite orb_false_r in H. rewrite H. reflexivity.
  - simpl in *. apply orb_false_iff in H. destruct H as [H1 H2].
    rewrite starts_with_ci_lower. simpl. rewrite H1. apply IH. exact H2.
Qed.

Lemma after_first_some : forall kw text,
    mentions kw text = true -> exists body, Spec.after_first kw text = Some body.
Proof.
  intros kw. unfold mentions. induction text as [|c t IH]; intro H.
  - simpl in *. rewrite starts_with_ci_lower. simpl.
    rewrite orb_false_r in H. rewrite H. eexists. reflexivity.
  - simpl in *. rewrite starts_with_ci_lower. simpl.
    destruct (starts_with (map lower kw) (lower c :: map lower t)).
    + eexists. reflexivity.
    + apply IH. exact H.
Qed.

Lemma after_first_of_first_only : forall kw1 kw2 text,
    mentions kw2 text = false ->
    Spec.after_first_of kw1 kw2 text
    = option_map (fun body => (true, body)) (Spec.after_first kw1 text).
Proof.
  intros kw1 kw2. unfold mentions. induction text as [|c t IH]; intro H.
  - simpl in *. rewrite orb_false_r in H.
    destruct (Spec.starts_with_ci kw1 []); [reflexivity|].
    rewrite (starts_with_ci_lower kw2). simpl. rewrite H. reflexivity.
  - simpl in *. apply orb_false_iff in H. destruct H as [H1 H2].
    destruct (Spec.starts_with_ci kw1 (c :: t)); [reflexivity|].
    rewrite (starts_with_ci_lower kw2). simpl. rewrite H1. apply IH. exact H2.
Qed.

Lemma after_first_of_second_only : forall kw1 kw2 text,
    mentions kw1 text = false ->
    Spec.after_first_of kw1 kw2 text
    = option_map (fun body => (false, body)) (Spec.after_first kw2 text).
Proof.
  intros kw1 kw2. unfold mentions. induction text as [|c t IH]; intro H.
  - simpl in *. rewrite orb_false_r in H.
    rewrite (starts_with_ci_lower kw1). simpl. rewrite H.
    destruct (Spec.starts_with_ci kw2 []); reflexivity.
  - simpl in *. apply orb_false_iff in H. destruct H as [H1 H2].
    rewrite (starts_with_ci_lower kw1). simpl. rewrite H1.
    destruct (Spec.starts_with_ci kw2 (c :: t)); [reflexivity|].
    apply IH. exact H2.
Qed.

(** X5: a text that mentions none of the header keywords, in any letter
    case, gives four empty lists. *)
Theorem no_header_no_section : forall text,
    mentions (txt "Skill") text = false ->
    mentions (txt "Education") text = false ->
    mentions (txt "Experience") text = false ->
    mentions (txt "Work History") text = false ->
    mentions (txt "Certifications") text = false ->
    extract_info text
    = [("skills", VList []); ("education", VList []);
       ("experience", VList []); ("certifications", VList [])].
Proof.
  intros text H1 H2 H3 H4 H5. rewrite extract_info_scanned.
  unfold Spec.skills, Spec.education, Spec.certifications, Spec.lines_after,
    captured_experience.
  rewrite (after_first_none _ _ H1), (after_first_none _ _ H2),
    (after_first_none _ _ H5).
  rewrite (after_first_of_first_only _ _ _ H4), (after_first_none _ _ H3).
  reflexivity.
Qed.

Lemma no_header_no_section_witness :
  extract_info (txt "Fluent in French and German")
  = [("skills", VList []); ("education", VList []);
     ("experience", VList []); ("certifications", VList [])].
Proof.
  apply no_header_no_section; vm_compute; reflexivity.
Defined.

(** X6: when the word Experience occurs in the text and the words Work
    History do not, the experience list is empty, whatever the text holds. *)
Theorem experience_alone_gives_nothing : forall text,
    mentions (txt "Experience") text = true ->
    mentions (txt "Work History") text = false ->
    dict_get (extract_info text) "experience" = Some (VList []).
Proof.
  intros text H1 H2. rewrite extract_info_scanned. simpl dict_get.
  unfold captured_experience.
  rewrite (after_first_of_first_only _ _ _ H2).
  destruct (after_first_some _ _ H1) as [body E]. rewrite E. reflexivity.
Qed.

Lemma experience_alone_gives_nothing_witness :
  dict_get (extract_info experience_resume) "experience" = Some (VList []).
Proof.
  apply experience_alone_gives_nothing; vm_compute; reflexivity.
Defined.

(** X7: when the word Experience does not occur in the text, the
    experience list holds the lines that follow the first Work History
    header, up to the first blank line or the end of the text. *)
Theorem work_history_is_extracted : forall text,
    mentions (txt "Experience") text = false ->
    dict_get (extract_info text) "experience"
    = Some (VList (Spec.lines_after (txt "Work History") text)).
Proof.
  intros text H. rewrite extract_info_scanned. simpl dict_get.
  unfold captured_experience, Spec.lines_after.
  rewrite (after_first_of_second_only _ _ _ H).
  destruct (Spec.after_first (txt "Work History") text); reflexivity.
Qed.

Lemma work_history_is_extracted_witness :
  dict_get (extract_info work_history_resume) "experience"
  = Some (VList [txt "Acme Corp"; txt "Beta Inc"]).
Proof.
  apply (work_history_is_extracted work_history_resume).
  vm_compute. reflexivity.
Defined.

Lemma occurs_refl : forall x, Spec.occurs x x.
Proof. intro x. exists [], []. rewrite app_nil_r. reflexivity. Qed.

Lemma occurs_trans : forall a b c,
    Spec.occurs a b -> Spec.occurs b c -> Spec.occurs a c.
Proof.
  intros a b c [p1 [q1 E1]] [p2 [q2 E2]]. exists (p2 ++ p1), (q1 ++ q2).
  rewrite E2, E1, <- !app_assoc. reflexivity.
Qed.

Lemma occurs_In : forall a b c, Spec.occurs a b -> In c a -> In c b.
Proof.
  intros a b c [p [q E]] I. rewrite E. apply in_or_app. right.
  apply in_or_app. left. exact I.
Qed.

(** The first piece of a split starts the text. *)
Lemma split_head_prefix : forall sep x w ws,
    split sep x = w :: ws -> exists q, x = w ++ q.
Proof.
  intros sep. induction x as [|c t IH]; intros w ws S.
  - simpl in S. inversion S. exists []. reflexivity.
  - simpl in S. destruct (ch_eqb c sep).
    + inversion S. exists (c :: t). reflexivity.
    + destruct (split sep t) as [|w1 ws1].
      * inversion S. exists t. reflexivity.
      * inversion S. subst. destruct (IH _ _ eq_refl) as [q E].
        exists q. simpl. rewrite <- E. reflexivity.
Qed.

(** A piece of a split occurs in the text and holds no separator. *)
Lemma split_piece : forall sep x w,
    In w (split sep x) -> Spec.occurs w x /\ ~ In sep w.
Proof.
  intros sep. induction x as [|c t IH]; intros w H.
  - simpl in H. destruct H as [H|[]]. subst w. split; [apply occurs_refl|].
    intros [].
  - simpl in H. destruct (ch_eqb c sep) eqn:E.
    + destruct H as [H|H].
      * subst w. split; [exists [], (c :: t); reflexivity | intros []].
      * destruct (IH _ H) as [O N]. split; [|exact N].
        apply (occurs_in_suffix [c]) in O. exact O.
    + destruct (split sep t) as [|w0 ws] eqn:S.
      * destruct H as [H|[]]. subst w. split.
        -- exists [], t. reflexivity.
        -- intros [I|[]]. subst c. rewrite ch_eqb_refl in E. discriminate.
      * destruct H as [H|H].
        -- subst w. destruct (split_head_prefix _ _ S) as [q P].
           destruct (IH w0 (or_introl eq_refl)) as [_ N]. split.
           ++ exists [], q. simpl. rewrite <- P. reflexivity.
           ++ intros [I|I]; [subst c; rewrite ch_eqb_refl in E; discriminate|].
              exact (N I).
        -- destruct (IH w (or_intror H)) as [O N]. split; [|exact N].
           apply (occurs_in_suffix [c]) in O. exact O.
Qed.

Lemma strip_occurs : forall x, Spec.occurs (strip x) x.
Proof.
  intro x. unfold strip.
  destruct (lstrip_split x) as [ws1 [E1 _]].
  destruct (rstrip_split (lstrip x)) as [ws2 [E2 _]].
  exists ws1, ws2. rewrite <- E2. exact E1.
Qed.

(** An item of a capture occurs in it and holds no separator. *)
Lemma item_of_capture : forall sep cap x,
    In x (Spec.items sep cap) -> Spec.occurs x cap /\ ~ In sep x.
Proof.
  intros sep cap x H. unfold Spec.items in H. apply filter_In in H.
  destruct H as [H _]. apply in_map_iff in H. destruct H as [w [E H]].
  subst x. destruct (split_piece _ _ _ H) as [O N]. split.
  - eapply occurs_trans; [apply strip_occurs | exact O].
  - intro I. apply N. eapply occurs_In; [apply strip_occurs | exact I].
Qed.

Lemma until_newline_prefix : forall y, exists q, y = Spec.until_newline y ++ q.
Proof.
  induction y as [|c t [q IH]]; [exists []; reflexivity|].
  simpl. destruct (ch_eqb c newline).
  - exists (c :: t). reflexivity.
  - exists q. simpl. rewrite <- IH. reflexivity.
Qed.

Lemma until_newline_no_newline : forall y, ~ In newline (Spec.until_newline y).
Proof.
  induction y as [|c t IH]; [intros []|].
  simpl. destruct (ch_eqb c newline) eqn:E; [intros []|].
  intros [I|I]; [subst c; rewrite ch_eqb_refl in E; discriminate | exact (IH I)].
Qed.

Lemma until_blank_line_prefix : forall y, exists q, y = Spec.until_blank_line y ++ q.
Proof.
  induction y as [|c t [q IH]]; [exists []; reflexivity|].
  cbn [Spec.until_blank_line].
  destruct (starts_with [newline; newline] (c :: t)).
  - exists (c :: t). reflexivity.
  - exists q. simpl. rewrite <- IH. reflexivity.
Qed.

Lemma skip_colon_space_suffix : forall y, exists p, y = p ++ Spec.skip_colon_space y.
Proof.
  induction y as [|c t [p IH]]; [exists []; reflexivity|].
  simpl. destruct (Spec.is_colon_space c).
  - exists (c :: p). simpl. rewrite <- IH. reflexivity.
  - exists []. reflexivity.
Qed.

Lemma drop_optional_suffix : forall a y, exists p, y = p ++ Spec.drop_optional a y.
Proof.
  intros a [|c t]; [exists []; reflexivity|].
  simpl. destruct (ch_eqb (lower c) (lower a)).
  - exists [c]. reflexivity.
  - exists []. reflexivity.
Qed.

Lemma after_first_suffix : forall kw text body,
    Spec.after_first kw text = Some body -> exists p, text = p ++ body.
Proof.
  intros kw. induction text as [|c t IH]; intros body H; simpl in H.
  - destruct (Spec.starts_with_ci kw []); [|discriminate].
    inversion H. exists (firstn (length kw) []). apply eq_sym, firstn_skipn.
  - destruct (Spec.starts_with_ci kw (c :: t)).
    + inversion H. exists (firstn (length kw) (c :: t)). apply eq_sym, firstn_skipn.
    + destruct (IH _ H) as [p E]. exists (c :: p). simpl. rewrite <- E. reflexivity.
Qed.

Lemma after_first_of_suffix : forall kw1 kw2 text b body,
    Spec.after_first_of kw1 kw2 text = Some (b, body) -> exists p, text = p ++ body.
Proof.
  intros kw1 kw2. induction text as [|c t IH]; intros b body H; simpl in H.
  - destruct (Spec.starts_with_ci kw1 []).
    + inversion H. exists (firstn (length kw1) []). apply eq_sym, firstn_skipn.
    + destruct (Spec.starts_with_ci kw2 []); [|discriminate].
      inversion H. exists (firstn (length kw2) []). apply eq_sym, firstn_skipn.
  - destruct (Spec.starts_with_ci kw1 (c :: t)).
    + inversion H. exists (firstn (length kw1) (c :: t)). apply eq_sym, firstn_skipn.
    + destruct (Spec.starts_with_ci kw2 (c :: t)).
      * inversion H. exists (firstn (length kw2) (c :: t)).
        apply eq_sym, firstn_skipn.
      * destruct (IH _ _ H) as [p E]. exists (c :: p). simpl.
        rewrite <- E. reflexivity.
Qed.

Lemma occurs_of_suffix : forall p u y, y = p ++ u -> Spec.occurs u y.
Proof. intros p u y E. exists p, []. rewrite app_nil_r. exact E. Qed.

Lemma occurs_of_prefix : forall u q y, y = u ++ q -> Spec.occurs u y.
Proof. intros u q y E. exists [], q. exact E. Qed.

(** The lines captured after a header occur in the body. *)
Lemma lines_of_body : forall body x,
    In x (Spec.items newline (Spec.until_blank_line (Spec.skip_colon_space body))) ->
    Spec.occurs x body /\ ~ In newline x.
Proof.
  intros body x H. destruct (item_of_capture _ _ _ H) as [O N]. split; [|exact N].
  destruct (until_blank_line_prefix (Spec.skip_colon_space body)) as [q E1].
  destruct (skip_colon_space_suffix body) as [p E2].
  exact (occurs_trans O (occurs_trans (occurs_of_prefix _ _ E1)
                                      (occurs_of_suffix _ _ E2))).
Qed.

Lemma lines_after_items : forall kw text x,
    In x (Spec.lines_after kw text) -> Spec.occurs x text /\ ~ In newline x.
Proof.
  intros kw text x H. unfold Spec.lines_after in H.
  destruct (Spec.after_first kw text) as [body|] eqn:A; [|contradiction].
  destruct (lines_of_body _ _ H) as [O N]. split; [|exact N].
  destruct (after_first_suffix _ _ A) as [p E].
  exact (occurs_trans O (occurs_of_suffix _ _ E)).
Qed.

Lemma captured_experience_items : forall text x,
    In x (captured_experience text) -> Spec.occurs x text /\ ~ In newline x.
Proof.
  intros text x H. unfold captured_experience in H.
  destruct (Spec.after_first_of (txt "Experience") (txt "Work History") text)
    as [[[] body]|] eqn:A; try contradiction.
  destruct (lines_of_body _ _ H) as [O N]. split; [|exact N].
  destruct (after_first_of_suffix _ _ _ A) as [p E].
  exact (occurs_trans O (occurs_of_suffix _ _ E)).
Qed.

Lemma skills_items_shape : forall text x,
    In x (Spec.skills text) ->
    Spec.occurs x text /\ ~ In ","%char x /\ ~ In newline x.
Proof.
  intros text x H. unfold Spec.skills in H.
  destruct (Spec.after_first (txt "Skill") text) as [body|] eqn:A; [|contradiction].
  destruct (item_of_capture _ _ _ H) as [O N].
  set (y := Spec.skip_colon_space (Spec.drop_optional "s"%char body)) in *.
  split; [|split; [exact N|]].
  - destruct (until_newline_prefix y) as [q E1].
    destruct (skip_colon_space_suffix (Spec.drop_optional "s"%char body)) as [p2 E2].
    destruct (drop_optional_suffix "s"%char body) as [p3 E3].
    destruct (after_first_suffix _ _ A) as [p4 E4].
    fold y in E2.
    exact (occurs_trans O
             (occurs_trans (occurs_of_prefix _ _ E1)
                (occurs_trans (occurs_of_suffix _ _ E2)
                   (occurs_trans (occurs_of_suffix _ _ E3)
                                 (occurs_of_suffix _ _ E4))))).
  - intro I. apply (until_newline_no_newline y). eapply occurs_In; [exact O | exact I].
Qed.

(** What is known of every item of every list of [extract_info]. *)
Lemma extracted_item : forall text k xs x,
    dict_get (extract_info text) k = Some (VList xs) -> In x xs ->
    Spec.occurs x text /\ ~ In newline x /\ (k = "skills" -> ~ In ","%char x).
Proof.
  intros text k xs x H I. rewrite extract_info_scanned in H.
  apply dict_get_In in H. simpl in H.
  destruct H as [H|[H|[H|[H|[]]]]]; inversion H; subst k xs; clear H.
  - destruct (skills_items_shape _ _ I) as [O [N1 N2]].
    split; [exact O|]. split; [exact N2 | intros _; exact N1].
  - destruct (lines_after_items _ _ _ I) as [O N].
    split; [exact O|]. split; [exact N | discriminate].
  - destruct (captured_experience_items _ _ I) as [O N].
    split; [exact O|]. split; [exact N | discriminate].
  - destruct (lines_after_items _ _ _ I) as [O N].
    split; [exact O|]. split; [exact N | discriminate].
Qed.

(** X8: every item that [extract_info] returns occurs verbatim in the text
    it was given. *)
Theorem extracted_items_occur : forall text k xs x,
    dict_get (extract_info text) k = Some (VList xs) -> In x xs ->
    contains text x = true.
Proof.
  intros text k xs x H I. apply contains_occurs.
  apply (@extracted_item text k xs x H I).
Qed.

Lemma extracted_items_occur_witness :
  contains contact_line (txt "SQL") = true.
Proof.
  apply (@extracted_items_occur contact_line "skills"
           [txt "Python"; txt "SQL"; txt "Go"] (txt "SQL")).
  - vm_compute. reflexivity.
  - right. left. reflexivity.
Defined.

(** X9: no item holds a line break, and no skills item holds a comma. *)
Theorem extracted_items_hold_no_separator : forall text k xs x,
    dict_get (extract_info text) k = Some (VList xs) -> In x xs ->
    existsb (ch_eqb newline) x = false
    /\ (k = "skills" -> existsb (ch_eqb ","%char) x = false).
Proof.
  intros text k xs x H I.
  destruct (@extracted_item text k xs x H I) as [_ [N1 N2]].
  assert (F : forall c y, ~ In c y -> existsb (ch_eqb c) y = false).
  { intros c y N. destruct (existsb (ch_eqb c) y) eqn:E; [|reflexivity].
    apply existsb_exists in E. destruct E as [d [Id Ed]].
    apply ch_eqb_eq in Ed. subst d. contradiction. }
  split; [apply F; exact N1 | intro Ek; apply F; apply N2; exact Ek].
Qed.

Lemma extracted_items_hold_no_separator_witness :
  existsb (ch_eqb newline) (txt "SQL") = false
  /\ ("skills" = "skills" -> existsb (ch_eqb ","%char) (txt "SQL") = false).
Proof.
  apply (@extracted_items_hold_no_separator contact_line "skills"
           [txt "Python"; txt "SQL"; txt "Go"] (txt "SQL")).
  - vm_compute. reflexivity.
  - right. left. reflexivity.
Defined.

(** ** The returned record *)

Lemma entity_pass_hides_name : forall ents n ns t,
    person_names ents = n :: ns ->
    maskable n NAME_TOKEN = true -> maskable n ADDRESS_TOKEN = true ->
    ~ Spec.occurs n (entity_pass ents t).
Proof.
  intros ents n ns t P M1 M2. unfold entity_pass. rewrite P.
  apply replace_addresses_keeps_absent; [exact M2|].
  apply maskable_spec in M1. destruct M1 as [N1 [N2 [N3 N4]]].
  apply (replace_absent NAME_TOKEN_delimited N1 N2 N3 N4).
Qed.

Lemma entity_pass_hides_address : forall ents a t,
    In a (location_names ents) -> maskable a ADDRESS_TOKEN = true ->
    ~ Spec.occurs a (entity_pass ents t).
Proof.
  intros ents a t I M. unfold entity_pass.
  apply in_split in I. destruct I as [l1 [l2 El]]. rewrite El.
  unfold replace_addresses. rewrite fold_left_app. simpl.
  apply (replace_addresses_keeps_absent M l2).
  apply maskable_spec in M. destruct M as [N1 [N2 [N3 N4]]].
  apply (replace_absent ADDRESS_TOKEN_delimited N1 N2 N3 N4).
Qed.

(** What [process_resume] returns when [anonymize_data] returns. *)
Lemma process_resume_result :
  forall (exn : Type) (nlp : str -> outcome exn (list Ent)) (path : Type)
         (pdf docx img : path -> str) (file_path : path)
         (content_type : string) (out : str) (info : dict),
    result (anonymize_data nlp (decode pdf docx img file_path content_type))
    = Ok (out, info) ->
    result (process_resume nlp pdf docx img file_path content_type)
    = Ok (final_record out).
Proof.
  intros exn nlp path pdf docx img file_path content_type out info H.
  unfold process_resume, final_record.
  set (text := decode pdf docx img file_path content_type) in *.
  destruct (anonymize_data_result nlp text H) as [ents [N [Eo _]]].
  revert H. unfold anonymize_data, call_nlp, bind, result, ret. rewrite N.
  destruct (person_names ents) as [|n ns]; cbv beta iota zeta delta [snd fst];
    intro H; inversion H; subst; rewrite extract_info_form; reflexivity.
Qed.

(** The strings of the returned record occur in the anonymized text. *)
Lemma final_record_strings : forall out s,
    In s (record_strings (final_record out)) -> Spec.occurs s out.
Proof.
  intros out s H. unfold final_record in H.
  rewrite extract_info_scanned in H.
  unfold record_strings in H. simpl in H. rewrite app_nil_r in H.
  assert (L : forall k xs, In s xs ->
                           dict_get (extract_info out) k = Some (VList xs) ->
                           Spec.occurs s out).
  { intros k xs I D. apply (@extracted_item out k xs s D I). }
  apply in_app_or in H. destruct H as [H|H].
  { apply (L "skills" _ H). rewrite extract_info_scanned. reflexivity. }
  apply in_app_or in H. destruct H as [H|H].
  { apply (L "experience" _ H). rewrite extract_info_scanned. reflexivity. }
  destruct H as [H|H].
  { subst s. apply occurs_refl. }
  apply in_app_or in H. destruct H as [H|H].
  { apply (L "certifications" _ H). rewrite extract_info_scanned. reflexivity. }
  apply (L "education" _ H). rewrite extract_info_scanned. reflexivity.
Qed.

(** X10: what the redactor masked does not come back through the returned
    record: a recorded candidate name that is not empty, holds no square
    bracket and is no part of either placeholder occurs in no string of the
    record returned by [process_resume], neither in the anonymized text nor
    in any extracted item; the same holds for every recorded address with
    respect to the address placeholder. *)
Theorem returned_record_hides_entities :
  forall (exn : Type) (nlp : str -> outcome exn (list Ent)) (path : Type)
         (pdf docx img : path -> str) (file_path : path)
         (content_type : string) (out : str) (info : dict),
    result (anonymize_data nlp (decode pdf docx img file_path content_type))
    = Ok (out, info) ->
    exists record,
      result (process_resume nlp pdf docx img file_path content_type) = Ok record
      /\ (forall n s,
             dict_get info "masked_name" = Some (VStr n) ->
             maskable n NAME_TOKEN = true -> maskable n ADDRESS_TOKEN = true ->
             In s (record_strings record) -> contains s n = false)
      /\ (forall addresses a s,
             dict_get info "masked_addresses" = Some (VList addresses) ->
             In a addresses -> maskable a ADDRESS_TOKEN = true ->
             In s (record_strings record) -> contains s a = false).
Proof.
  intros exn nlp path pdf docx img file_path content_type out info H.
  exists (final_record out). split; [eapply process_resume_result; exact H|].
  destruct (anonymize_data_result nlp _ H) as [ents [_ [Eo [_ [_ [En Ea]]]]]].
  split.
  - intros n s Hn M1 M2 I. apply contains_false. intro O.
    rewrite En in Hn. destruct (person_names ents) as [|m ms] eqn:P;
      simpl in Hn; [discriminate|]. inversion Hn. subst m.
    apply (@entity_pass_hides_name ents n ms
             (sub no_flags phone_pattern PHONE_TOKEN
                  (sub no_flags email_pattern EMAIL_TOKEN
                       (decode pdf docx img file_path content_type))) P M1 M2).
    rewrite <- Eo. apply (occurs_trans O). apply final_record_strings. exact I.
  - intros addresses a s Ha Ia M I. apply contains_false. intro O.
    rewrite Ea in Ha. inversion Ha. subst addresses.
    apply (@entity_pass_hides_address ents a
             (sub no_flags phone_pattern PHONE_TOKEN
                  (sub no_flags email_pattern EMAIL_TOKEN
                       (decode pdf docx img file_path content_type))) Ia M).
    rewrite <- Eo. apply (occurs_trans O). apply final_record_strings. exact I.
Qed.

Lemma returned_record_hides_entities_witness :
  exists record,
    result (process_resume paris_tagger (fun _ : unit => paris_text)
                           (fun _ => []) (fun _ => []) tt "application/pdf")
    = Ok record
    /\ (forall s, In s (record_strings record) ->
                  contains s (txt "Jane Doe") = false)
    /\ (forall s, In s (record_strings record) ->
                  contains s (txt "Paris") = false).
Proof.
  assert (R : result (anonymize_data paris_tagger
                        (decode (fun _ : unit => paris_text)
                                (fun _ => []) (fun _ => []) tt "application/pdf"))
              = Ok (paris_out, paris_info)) by (vm_compute; reflexivity).
  destruct (@returned_record_hides_entities unit paris_tagger unit
              (fun _ : unit => paris_text) (fun _ => []) (fun _ => [])
              tt "application/pdf" paris_out paris_info R)
    as [record [E [Hn Ha]]].
  exists record. split; [exact E|]. split.
  - intros s I. apply (Hn (txt "Jane Doe") s); [reflexivity..|exact I].
  - intros s I. apply (Ha [txt "Paris"; txt "Lyon"] (txt "Paris") s);
      [reflexivity | left; reflexivity | reflexivity | exact I].
Defined.

(** ** The schema template *)

Lemma dict_get_set_same : forall d k v, dict_get (dict_set d k v) k = Some v.
Proof.
  induction d as [|[k' v'] d IH]; intros k v; simpl.
  - rewrite String.eqb_refl. reflexivity.
  - destruct (String.eqb k' k) eqn:E; simpl; rewrite E; [reflexivity | apply IH].
Qed.

Lemma dict_get_set_other : forall d k v k',
    k' <> k -> dict_get (dict_set d k v) k' = dict_get d k'.
Proof.
  induction d as [|[k0 v0] d IH]; intros k v k' N; simpl.
  - destruct (String.eqb k k') eqn:E; [|reflexivity].
    apply String.eqb_eq in E. subst k'. contradiction N. reflexivity.
  - destruct (String.eqb k0 k) eqn:E; simpl.
    + apply String.eqb_eq in E. subst k0.
      destruct (String.eqb k k') eqn:E'; [|reflexivity].
      apply String.eqb_eq in E'. subst k'. contradiction N. reflexivity.
    + destruct (String.eqb k0 k'); [reflexivity | apply IH; exact N].
Qed.

Lemma keys_dict_set_new : forall d k v,
    ~ In k (keys d) -> keys (dict_set d k v) = keys d ++ [k].
Proof.
  induction d as [|[k0 v0] d IH]; intros k v N; simpl; [reflexivity|].
  destruct (String.eqb k0 k) eqn:E.
  - apply String.eqb_eq in E. subst k0. exfalso. apply N. left. reflexivity.
  - simpl. f_equal. apply IH. intro I. apply N. right. exact I.
Qed.

Lemma distinct_cons : forall k l,
    distinct (k :: l) = true -> ~ In k l /\ distinct l = true.
Proof.
  intros k l H. simpl in H. apply andb_prop in H. destruct H as [H1 H2].
  split; [|exact H2]. intro I. apply negb_true_iff in H1.
  assert (E : existsb (String.eqb k) l = true)
    by (apply existsb_exists; exists k; split; [exact I | apply String.eqb_refl]).
  rewrite E in H1. discriminate.
Qed.

(** The record built for a nested template entry. *)
Lemma nested_record : forall combined sub_keys acc,
    (forall s v, dict_get acc s = Some v -> v = dict_get_or_none combined s) ->
    let d := fold_left (fun d sub_key =>
                          dict_set d sub_key (dict_get_or_none combined sub_key))
                       sub_keys acc in
    (forall s v, dict_get d s = Some v -> v = dict_get_or_none combined s)
    /\ (forall s, In s sub_keys -> dict_get d s <> None).
Proof.
  intros combined. induction sub_keys as [|k l IH]; intros acc A d.
  - split; [exact A | intros s []].
  - simpl in d.
    assert (A' : forall s v,
               dict_get (dict_set acc k (dict_get_or_none combined k)) s = Some v ->
               v = dict_get_or_none combined s).
    { intros s v H. destruct (String.eqb k s) eqn:E.
      - apply String.eqb_eq in E. subst s. rewrite dict_get_set_same in H.
        inversion H. reflexivity.
      - rewrite dict_get_set_other in H; [apply A; exact H|].
        intro Es. subst s. rewrite String.eqb_refl in E. discriminate. }
    destruct (IH _ A') as [B C]. split; [exact B|].
    intros s [I|I]; [|apply C; exact I]. subst s.
    clear - IH A'. 
    (* a key once set stays set *)
    assert (K : forall l acc0, dict_get acc0 k <> None ->
                dict_get (fold_left (fun d sub_key =>
                            dict_set d sub_key (dict_get_or_none combined sub_key))
                            l acc0) k <> None).
    { induction l0 as [|k1 l1 IHl]; intros acc0 H; [exact H|].
      simpl. apply IHl. destruct (String.eqb k1 k) eqn:E.
      - apply String.eqb_eq in E. subst k1. rewrite dict_get_set_same. discriminate.
      - rewrite dict_get_set_other; [exact H|].
        intro Es. subst k1. rewrite String.eqb_refl in E. discriminate. }
    apply K. rewrite dict_get_set_same. discriminate.
Qed.

Lemma distinct_NoDup : forall l, distinct l = true -> NoDup l.
Proof.
  induction l as [|k l IH]; intro H; [constructor|].
  apply distinct_cons in H. destruct H as [N D].
  constructor; [exact N | apply IH; exact D].
Qed.

Lemma dict_get_keys : forall d k, dict_get d k <> None <-> In k (keys d).
Proof.
  induction d as [|[k' v] d IH]; intro k; simpl.
  - split; [intro H; contradiction H; reflexivity | intros []].
  - destruct (String.eqb k' k) eqn:E.
    + apply String.eqb_eq in E. split; [intro; left; exact E | discriminate].
    + rewrite IH. split; [intro; right; assumption|].
      intros [H|H]; [|exact H]. subst k'. rewrite String.eqb_refl in E. discriminate.
Qed.

Lemma apply_template_step : forall combined_data final_output entry,
    (match snd entry with
     | TKeys sub_keys =>
         dict_set final_output (fst entry)
           (VDict (fold_left
                     (fun d sub_key =>
                        dict_set d sub_key
                                 (dict_get_or_none combined_data sub_key))
                     sub_keys []))
     | TKey value_key =>
         dict_set final_output (fst entry)
                  (dict_get_or_none combined_data value_key)
     end)
    = dict_set final_output (fst entry) (entry_value combined_data (snd entry)).
Proof. intros c f [k [vk|sk]]; reflexivity. Qed.

Lemma apply_template_fold : forall combined_data template acc,
    fold_left
      (fun final_output entry =>
         match snd entry with
         | TKeys sub_keys =>
             dict_set final_output (fst entry)
               (VDict (fold_left
                         (fun d sub_key =>
                            dict_set d sub_key
                                     (dict_get_or_none combined_data sub_key))
                         sub_keys []))
         | TKey value_key =>
             dict_set final_output (fst entry)
                      (dict_get_or_none combined_data value_key)
         end)
      template acc
    = fold_left (fun final_output entry =>
                   dict_set final_output (fst entry)
                            (entry_value combined_data (snd entry)))
                template acc.
Proof.
  intros combined_data. induction template as [|e t IH]; intro acc; [reflexivity|].
  cbn [fold_left]. rewrite <- IH. f_equal. apply apply_template_step.
Qed.

(** The loop of [apply_template] from any record built so far. *)
Lemma apply_template_loop : forall combined_data template acc,
    NoDup (keys acc ++ map fst template) ->
    let out :=
      fold_left (fun final_output entry =>
                   dict_set final_output (fst entry)
                            (entry_value combined_data (snd entry)))
                template acc in
    keys out = keys acc ++ map fst template
    /\ (forall k, In k (keys acc) -> dict_get out k = dict_get acc k)
    /\ (forall entry, In entry template ->
          dict_get out (fst entry)
          = Some (entry_value combined_data (snd entry))).
Proof.
  intros combined_data. induction template as [|[k v] template IH]; intros acc N out.
  - subst out. simpl. rewrite app_nil_r.
    split; [reflexivity|]. split; [reflexivity | intros e []].
  - subst out. cbn [fold_left fst snd map] in *.
    assert (Nk : ~ In k (keys acc)).
    { intro I. apply NoDup_remove_2 in N. apply N. apply in_or_app. left. exact I. }
    assert (K : keys (dict_set acc k (entry_value combined_data v)) = keys acc ++ [k])
      by (apply keys_dict_set_new; exact Nk).
    assert (N' : NoDup (keys (dict_set acc k (entry_value combined_data v))
                        ++ map fst template)).
    { rewrite K, <- app_assoc. exact N. }
    destruct (IH _ N') as [A [B C]]. cbv zeta in A, B, C.
    split; [rewrite A, K, <- app_assoc; reflexivity|]. split.
    + intros k0 I. rewrite B by (rewrite K; apply in_or_app; left; exact I).
      apply dict_get_set_other. intro E. subst k0. exact (Nk I).
    + intros e [E|I]; [|apply C; exact I]. subst e. cbn [fst snd].
      rewrite B by (rewrite K; apply in_or_app; right; left; reflexivity).
      apply dict_get_set_same.
Qed.

(** X11.  [process_resume], the loop over the schema template: for any
    template (a Python dict, so its keys are distinct) and any combined
    record, the output has exactly the template's keys, in the template's
    order; a plain entry is bound to the combined record's value at its
    internal key, or to [None] when the record has no such key (it is never
    left out); a nested entry is bound to a record that has exactly the
    listed sub-keys, each bound in the same way. *)
Theorem apply_template_binds_every_key :
  forall (template : list (string * tval)) (combined_data : dict),
    distinct (map fst template) = true ->
    let final_output := apply_template template combined_data in
    keys final_output = map fst template
    /\ (forall key value_key,
          In (key, TKey value_key) template ->
          dict_get final_output key
          = Some (match dict_get combined_data value_key with
                  | Some v => v
                  | None => VNone
                  end))
    /\ (forall key sub_keys,
          In (key, TKeys sub_keys) template ->
          exists d,
            dict_get final_output key = Some (VDict d)
            /\ forall s,
                dict_get d s
                = if existsb (String.eqb s) sub_keys
                  then Some (match dict_get combined_data s with
                             | Some v => v
                             | None => VNone
                             end)
                  else None).
Proof.
  intros template combined_data D final_output.
  assert (E : final_output
              = fold_left (fun final_output entry =>
                             dict_set final_output (fst entry)
                                      (entry_value combined_data (snd entry)))
                          template []).
  { subst final_output. unfold apply_template. apply apply_template_fold. }
  destruct (@apply_template_loop combined_data template [])
    as [A [_ C]]; [apply distinct_NoDup; exact D|].
  cbv zeta in A, C. rewrite <- E in A, C.
  split; [exact A|]. split.
  - intros key value_key I. exact (C _ I).
  - intros key sub_keys I. eexists. split; [exact (C _ I)|].
    intro s. cbn [snd entry_value].
    destruct (@nested_record combined_data sub_keys []) as [P Q];
      [intros s0 v0 H; discriminate|].
    cbv zeta in P, Q.
    destruct (existsb (String.eqb s) sub_keys) eqn:X.
    + apply existsb_exists in X. destruct X as [s' [I' X]].
      apply String.eqb_eq in X. subst s'.
      specialize (Q _ I').
      match goal with |- ?g = _ => destruct g as [v|] eqn:G end;
        [|contradiction Q; reflexivity ].
      f_equal. apply (P _ _ G).
    + match goal with |- ?g = _ => destruct g as [v|] eqn:G end; [|reflexivity].
      exfalso.
      assert (In s sub_keys).
      { clear - G.
        assert (K : forall l acc,
                   dict_get (fold_left (fun d sub_key =>
                       dict_set d sub_key (dict_get_or_none combined_data sub_key))
                       l acc) s <> None -> In s l \/ dict_get acc s <> None).
        { induction l as [|k l IH]; intros acc H; [right; exact H|].
          cbn [fold_left] in H. apply IH in H. destruct H as [H|H].
          - left. right. exact H.
          - destruct (String.eqb k s) eqn:E.
            + apply String.eqb_eq in E. left. left. exact E.
            + right. rewrite dict_get_set_other in H; [exact H|].
              intro Es. subst k. rewrite String.eqb_refl in E. discriminate. }
        destruct (K sub_keys []) as [H|H]; [rewrite G; discriminate | exact H|].
        contradiction H. reflexivity. }
      assert (Y : existsb (String.eqb s) sub_keys = true)
        by (apply existsb_exists; exists s; split; [assumption | apply String.eqb_refl]).
      rewrite Y in X. discriminate.
Qed.

Lemma apply_template_binds_every_key_witness :
  distinct (map fst nested_template) = true
  /\ keys (apply_template nested_template partial_data) = ["Text"; "Sections"]
  /\ exists d,
      dict_get (apply_template nested_template partial_data) "Sections"
      = Some (VDict d)
      /\ dict_get d "education" = Some VNone.
Proof.
  split; [reflexivity|].
  destruct (@apply_template_binds_every_key nested_template partial_data)
    as [A [_ C]]; [reflexivity|].
  split; [exact A|].
  destruct (C "Sections" ["skills"; "education"]) as [d [G H]];
    [right; left; reflexivity|].
  exists d. split; [exact G|]. rewrite H. reflexivity.
Defined.

(** ** The upload endpoint *)

Lemma process_resume_empty_text :
  forall (exn path : Type) (nlp : str -> outcome exn (list Ent))
         (pdf docx img : path -> str) (file_path : path) (ct : string),
    decode pdf docx img file_path ct = [] ->
    nlp [] = Ok [] ->
    process_resume nlp pdf docx img file_path ct = ([[]], Ok empty_record).
Proof.
  intros exn path nlp pdf docx img file_path ct D N.
  assert (E : sub no_flags phone_pattern PHONE_TOKEN
                  (sub no_flags email_pattern EMAIL_TOKEN []) = [])
    by (vm_compute; reflexivity).
  unfold process_resume. rewrite D.
  unfold anonymize_data, call_nlp. cbv zeta.
  rewrite E, N. vm_compute. reflexivity.
Qed.

Lemma read_upload_complete : forall chunks size buffer,
    (size + N.of_nat (length (received chunks)) <= max_file_size_bytes)%N ->
    read_upload chunks size buffer = (buffer ++ received chunks, true).
Proof.
  induction chunks as [|chunk chunks IH]; intros size buffer H.
  - simpl. rewrite app_nil_r. reflexivity.
  - destruct chunk as [|b chunk].
    + simpl. rewrite app_nil_r. reflexivity.
    + cbn [read_upload received]. cbn [received] in H.
      rewrite length_app, Nat2N.inj_add in H.
      destruct (N.ltb_spec max_file_size_bytes
                           (size + N.of_nat (length (b :: chunk)))) as [L|L];
        [lia|].
      rewrite IH by lia. rewrite <- app_assoc. reflexivity.
Qed.

Lemma read_upload_refused : forall chunks size buffer,
    (size <= max_file_size_bytes)%N ->
    (max_file_size_bytes < size + N.of_nat (length (received chunks)))%N ->
    snd (read_upload chunks size buffer) = false.
Proof.
  induction chunks as [|chunk chunks IH]; intros size buffer S H.
  - simpl in H. lia.
  - destruct chunk as [|b chunk].
    + simpl in H. lia.
    + cbn [read_upload received]. cbn [received] in H.
      rewrite length_app, Nat2N.inj_add in H.
      destruct (N.ltb_spec max_file_size_bytes
                           (size + N.of_nat (length (b :: chunk)))) as [L|L];
        [reflexivity|].
      apply IH; lia.
Qed.

Lemma received_repeat_length : forall (chunk : bytes) n,
    chunk <> [] -> length (received (repeat chunk n)) = n * length chunk.
Proof.
  intros chunk n N. induction n as [|n IH]; [reflexivity|].
  cbn [repeat]. destruct chunk as [|b chunk]; [contradiction N; reflexivity|].
  cbn [received]. rewrite length_app, IH. reflexivity.
Qed.

Lemma cleanup_removes : forall fs p q,
    cleanup fs p q = if String.eqb q p then None else fs q.
Proof.
  intros fs p q. unfold cleanup, exists_, remove.
  destruct (fs p) eqn:E; [reflexivity|].
  destruct (String.eqb q p) eqn:Q; [|reflexivity].
  apply String.eqb_eq in Q. subst q. exact E.
Qed.

(** X12.  [process_resume], unsupported content type or failed decoding: when
    no text comes out of the file (the content type is none of the four
    handled ones, or the decoder returned the empty text, as the three
    decoders do on any error) and the tagger finds nothing in the empty
    text, nothing is raised: the tagger is still called once, on the empty
    text, and the record returned has the five schema keys bound to empty
    lists and to the empty text. *)
Theorem textless_file_gives_empty_record :
  forall (exn path : Type) (nlp : str -> outcome exn (list Ent))
         (extract_text_from_pdf extract_text_from_docx
            extract_text_from_image : path -> str)
         (file_path : path) (content_type : string),
    existsb (String.eqb content_type) allowed_types = false
    \/ decode extract_text_from_pdf extract_text_from_docx
              extract_text_from_image file_path content_type = [] ->
    nlp [] = Ok [] ->
    process_resume nlp extract_text_from_pdf extract_text_from_docx
                   extract_text_from_image file_path content_type
    = ([[]], Ok empty_record).
Proof.
  intros exn path nlp pdf docx img file_path ct H N.
  apply process_resume_empty_text; [|exact N].
  destruct H as [H|H]; [|exact H].
  unfold allowed_types in H. cbn [existsb] in H.
  do 4 (apply orb_false_elim in H; destruct H as [? H]).
  unfold decode.
  repeat match goal with
         | E : String.eqb ct _ = false |- _ => rewrite E; clear E
         end.
  reflexivity.
Qed.

Lemma textless_file_gives_empty_record_witness :
  process_resume silent_tagger (fun _ : unit => txt "Skills: Rocq")
                 (fun _ => txt "Skills: Rocq") (fun _ => txt "Skills: Rocq")
                 tt "text/plain"
  = ([[]], Ok empty_record).
Proof.
  apply textless_file_gives_empty_record; [left|]; reflexivity.
Defined.

(** X13.  [upload_and_parse], the size limit: an upload of an allowed type
    whose body (the chunks read before the first empty one) is longer than
    5 * 1024 * 1024 bytes never reaches the tagger.  It is answered with
    HTTP 413 when the temporary file could be opened for writing; when it
    could not, the error of opening it is raised before a byte is read. *)
Theorem oversized_upload_is_refused :
  forall (exn : Type) (nlp : str -> outcome exn (list Ent))
         (pdf docx img : filesystem -> string -> str)
         (uuid4 : string) (can_open : filesystem -> string -> bool)
         (file : UploadFile) (fs : filesystem),
    existsb (String.eqb (content_type file)) allowed_types = true ->
    (max_file_size_bytes < N.of_nat (length (received (reads file))))%N ->
    snd (upload_and_parse nlp pdf docx img uuid4 can_open file fs)
    = ([], Raise (if can_open fs (temp_path uuid4 file)
                  then HTTPException 413 "File size exceeds the 5 MB limit."
                  else OpenError)).
Proof.
  intros exn nlp pdf docx img uuid4 can_open file fs A S.
  unfold upload_and_parse. fold (temp_path uuid4 file).
  rewrite A. cbn [negb].
  destruct (can_open fs (temp_path uuid4 file)); cbn [negb]; [|reflexivity].
  pose proof (@read_upload_refused (reads file) 0%N []) as R.
  destruct (read_upload (reads file) 0 []) as [buffer complete].
  cbn [snd] in R. rewrite R; [reflexivity | unfold max_file_size_bytes; lia | exact S].
Qed.

Lemma oversized_upload_is_refused_witness :
  snd (upload_and_parse silent_tagger stored_text stored_text stored_text
                        "0000" (fun _ _ => true) big_upload no_files)
  = ([], Raise (HTTPException 413 "File size exceeds the 5 MB limit.")).
Proof.
  apply (@oversized_upload_is_refused
           unit silent_tagger stored_text stored_text stored_text
           "0000" (fun _ _ => true) big_upload no_files); [reflexivity|].
  unfold big_upload. cbn [reads].
  rewrite received_repeat_length.
  - rewrite repeat_length. unfold max_file_size_bytes. lia.
  - intro H. apply (f_equal (@length Byte.byte)) in H.
    rewrite repeat_length in H. discriminate H.
Defined.

(** X14.  [upload_and_parse], the accepted path: when the upload is of an
    allowed type, its body is at most 5 * 1024 * 1024 bytes long and the
    temporary file, at the path [Path] gives for [temp_<uuid>_<filename>],
    can be opened for writing, the body is stored whole in that file, chunk
    after chunk up to the first empty read, and the endpoint then calls the
    tagger as [process_resume] does on that file and returns what
    [process_resume] returns (or raises what the tagger raised). *)
Theorem accepted_upload_is_processed :
  forall (exn : Type) (nlp : str -> outcome exn (list Ent))
         (pdf docx img : filesystem -> string -> str)
         (uuid4 : string) (can_open : filesystem -> string -> bool)
         (file : UploadFile) (fs : filesystem),
    existsb (String.eqb (content_type file)) allowed_types = true ->
    can_open fs (temp_path uuid4 file) = true ->
    (N.of_nat (length (received (reads file))) <= max_file_size_bytes)%N ->
    let stored := write_file fs (temp_path uuid4 file) (received (reads file)) in
    let processed :=
      process_resume nlp (pdf stored) (docx stored) (img stored)
                     (temp_path uuid4 file) (content_type file) in
    let answer := snd (upload_and_parse nlp pdf docx img uuid4 can_open file fs) in
    calls answer = calls processed
    /\ result answer
       = match result processed with
         | Ok structured_data => Ok structured_data
         | Raise e => Raise (TaggerError e)
         end.
Proof.
  intros exn nlp pdf docx img uuid4 can_open file fs A O S stored processed answer.
  subst answer. unfold upload_and_parse. fold (temp_path uuid4 file).
  rewrite A, O. cbn [negb].
  rewrite read_upload_complete by (rewrite N.add_0_l; exact S).
  cbn [app]. fold stored. fold processed.
  destruct processed as [log r]. split; reflexivity.
Qed.

Lemma accepted_upload_is_processed_witness :
  let answer :=
    snd (upload_and_parse silent_tagger stored_text stored_text stored_text
                          "0000" (fun _ _ => true) small_upload no_files) in
  calls answer = [txt "Ski"]
  /\ result answer
     = Ok [("Skill_Set", VList []); ("Experience_Summary", VList []);
           ("Anonymized_Resume_Text", VStr (txt "Ski"));
           ("Certifications_List", VList []); ("Education_Records", VList [])].
Proof.
  exact (@accepted_upload_is_processed
           unit silent_tagger stored_text stored_text stored_text
           "0000" (fun _ _ => true) small_upload no_files
           eq_refl eq_refl ltac:(vm_compute; discriminate)).
Defined.

(** X15.  [upload_and_parse], the [finally] block: whatever the upload and
    however the request ends (a result, HTTP 400 or 413, a failure to open
    the temporary file, an error of the tagger), every file at another path
    than the temporary one, the path [Path] gives for
    [temp_<uuid>_<filename>], is as it was before the request; a request of
    an allowed type leaves no file at the temporary path, also when there
    was one before, and a request of another type leaves every file as it
    was. *)
Theorem upload_leaves_no_temporary_file :
  forall (exn : Type) (nlp : str -> outcome exn (list Ent))
         (pdf docx img : filesystem -> string -> str)
         (uuid4 : string) (can_open : filesystem -> string -> bool)
         (file : UploadFile) (fs : filesystem),
    let after := fst (upload_and_parse nlp pdf docx img uuid4 can_open file fs) in
    (forall p, p <> temp_path uuid4 file -> after p = fs p)
    /\ (existsb (String.eqb (content_type file)) allowed_types = true ->
        after (temp_path uuid4 file) = None)
    /\ (existsb (String.eqb (content_type file)) allowed_types = false ->
        forall p, after p = fs p).
Proof.
  intros exn nlp pdf docx img uuid4 can_open file fs after.
  assert (K : existsb (String.eqb (content_type file)) allowed_types = false
              /\ (forall p, after p = fs p)
              \/ existsb (String.eqb (content_type file)) allowed_types = true
                 /\ forall p, after p
                              = if String.eqb p (temp_path uuid4 file)
                                then None else fs p).
  { subst after. unfold upload_and_parse. fold (temp_path uuid4 file).
    destruct (existsb (String.eqb (content_type file)) allowed_types);
      cbn [negb]; [right | left; split; reflexivity].
    split; [reflexivity|]. intro p.
    destruct (can_open fs (temp_path uuid4 file)); cbn [negb].
    - destruct (read_upload (reads file) 0 []) as [buffer complete].
      destruct complete.
      + destruct (process_resume _ _ _ _ _ _) as [log r]. cbn [fst].
        rewrite cleanup_removes. unfold write_file.
        destruct (String.eqb p (temp_path uuid4 file)); reflexivity.
      + cbn [fst]. rewrite cleanup_removes. unfold write_file.
        destruct (String.eqb p (temp_path uuid4 file)); reflexivity.
    - cbn [fst]. apply cleanup_removes. }
  destruct K as [[A K]|[A K]]; rewrite A.
  - split; [intros p _; apply K|]. split; [discriminate | intros _; exact K].
  - split; [|split; [|discriminate]].
    + intros p N. rewrite K.
      destruct (String.eqb p (temp_path uuid4 file)) eqn:E; [|reflexivity].
      apply String.eqb_eq in E. contradiction.
    + intros _. rewrite K, String.eqb_refl. reflexivity.
Qed.

Lemma upload_leaves_no_temporary_file_witness :
  fst (upload_and_parse silent_tagger stored_text stored_text stored_text
                        "0000" (fun _ _ => true) slash_upload
                        (write_file no_files "temp_0000_cv.pdf" [Byte.x6b]))
      "temp_0000_cv.pdf"
  = None.
Proof.
  apply (@upload_leaves_no_temporary_file
           unit silent_tagger stored_text stored_text stored_text
           "0000" (fun _ _ => true) slash_upload
           (write_file no_files "temp_0000_cv.pdf" [Byte.x6b])).
  reflexivity.
Defined.
